(** * rtcheck: lockset algebra, stack interning and the path-state walker

    A shallow embedding of the deadlock detector of [rtcheck/main.go]:
    [StringSpace], [LockSet], [LockSetSet], [StackFrame], [PathState],
    [PathStateSet], [PathStateMap] and the two walkers [walkFunction] and
    [walkBlock], followed by the properties of these that the design
    document states. *)

From Stdlib Require Import NArith ZArith List Lia Bool.
From stdpp Require Import base gmap strings list fin_maps.

Set Default Proof Using "Type".

(** ** Pointers

    A Go pointer is an address; [None] is the nil pointer. *)

Abbreviation ptr := (option nat).

(** ** StringSpace *)

Module StringSpace.

(** [type StringSpace struct { m map[string]int; s []string }] *)
Record t := mk { m : gmap string nat; s : list string }.

Definition NewStringSpace : t := mk ∅ [].

(** [Intern] returns the id of [str] and the space after the call. *)
Definition Intern (sp : t) (str : string) : t * nat :=
  match m sp !! str with
  | Some id => (sp, id)
  | None =>
      let id := length (s sp) in
      (mk (<[str := id]> (m sp)) (s sp ++ [str]), id)
  end.

End StringSpace.

(** The string spaces that [*StringSpace] pointers refer to.  Every pointer
    the program passes to [NewLockSet] comes from [NewStringSpace]; an
    address that was never allocated reads as the empty space. *)
Abbreviation Spaces := (gmap nat StringSpace.t).

Definition spaceAt (h : Spaces) (p : nat) : StringSpace.t :=
  default StringSpace.NewStringSpace (h !! p).

(** [sp.Intern(str)] through the pointer [p]. *)
Definition InternAt (h : Spaces) (p : nat) (str : string) : Spaces * nat :=
  let '(sp', id) := StringSpace.Intern (spaceAt h p) str in
  (<[p := sp']> h, id).

(** ** StackFrame

    Frames live in a memory of cells; a [*StackFrame] is the address of its
    cell.  A frame is written once, by [Extend], and never changed. *)

Module StackFrame.

(** [type StackFrame struct { parent *StackFrame; call ssa.Instruction }];
    an instruction is known by its identity, a number. *)
Record t := mk { parent : ptr; call : nat }.

(** The frame memory and the table [internedStackFrames], whose keys are
    frame values (a parent pointer and a call) and whose values are
    pointers to frames. *)
Record Frames := mkFrames {
  cells : list t;
  internedStackFrames : gmap (ptr * nat) nat
}.

Definition empty : Frames := mkFrames [] ∅.

(** [*sf] as a map key. *)
Definition key (c : t) : ptr * nat := (parent c, call c).

(** [&StackFrame{sf, call}]: a new cell at the next free address. *)
Definition Extend (fr : Frames) (sf : ptr) (call : nat) : Frames * ptr :=
  (mkFrames (cells fr ++ [mk sf call]) (internedStackFrames fr),
   Some (length (cells fr))).

(** [Flatten]: the calls of [sf], the outermost first.  The recursion
    follows [parent]; [n] bounds its depth.  The buffer [into] only
    provides storage for the result. *)
Fixpoint FlattenN (n : nat) (mem : list t) (sf : ptr) : option (list nat) :=
  match sf with
  | None => Some []
  | Some a =>
      match n with
      | 0 => None
      | S n' =>
          match mem !! a with
          | None => None
          | Some c => (λ l, l ++ [call c]) <$> FlattenN n' mem (parent c)
          end
      end
  end.

(** A parent is older than its child, so as many steps as there are cells
    always suffice. *)
Definition Flatten (fr : Frames) (sf : ptr) : option (list nat) :=
  FlattenN (length (cells fr)) (cells fr) sf.

(** The loop [for sf := p; sf != nil; sf = sf.parent] of [LockSet.Key]:
    the calls of [sf], the innermost first. *)
Fixpoint callsN (n : nat) (mem : list t) (sf : ptr) : list nat :=
  match sf, n with
  | Some a, S n' =>
      match mem !! a with
      | Some c => call c :: callsN n' mem (parent c)
      | None => []
      end
  | _, _ => []
  end.

Definition calls (fr : Frames) (sf : ptr) : list nat :=
  callsN (length (cells fr)) (cells fr) sf.

Fixpoint InternN (n : nat) (fr : Frames) (sf : ptr)
  : option (Frames * ptr) :=
  match sf with
  | None => Some (fr, None)
  | Some a =>
      match n with
      | 0 => None
      | S n' =>
          match cells fr !! a with
          | None => None
          | Some c =>
              match internedStackFrames fr !! key c with
              | Some q => Some (fr, Some q)
              | None =>
                  match InternN n' fr (parent c) with
                  | None => None
                  | Some (fr1, p) =>
                      let '(fr2, nsf) := Extend fr1 p (call c) in
                      match internedStackFrames fr2 !! (p, call c) with
                      | Some q => Some (fr2, Some q)
                      | None =>
                          Some (mkFrames (cells fr2)
                                  (<[(p, call c) := length (cells fr1)]>
                                     (internedStackFrames fr2)),
                                nsf)
                      end
                  end
              end
          end
      end
  end.

Definition Intern (fr : Frames) (sf : ptr) : option (Frames * ptr) :=
  InternN (length (cells fr)) fr sf.

(** A pointer is valid when it is nil or the address of a cell. *)
Definition valid (fr : Frames) (sf : ptr) : Prop :=
  match sf with None => True | Some a => a < length (cells fr) end.

(** A pointer is canonical when the table returns it. *)
Definition canonical (fr : Frames) (q : nat) : Prop :=
  ∃ k, internedStackFrames fr !! k = Some q.

(** What [Extend] and [Intern] maintain: a frame's parent is an older
    frame, and the table maps the value of a frame, whose parent is nil or
    canonical, to that frame. *)
Record wf (fr : Frames) : Prop := {
  wf_parent a c p :
    cells fr !! a = Some c → parent c = Some p → p < a;
  wf_entry k q :
    internedStackFrames fr !! k = Some q →
    cells fr !! q = Some (mk k.1 k.2);
  wf_canon k q p :
    internedStackFrames fr !! k = Some q → k.1 = Some p → canonical fr p
}.

(** The sequence of calls of a frame, the outermost first, as a
    relation on the frame memory. *)
Inductive seqOf (mem : list t) : ptr → list nat → Prop :=
| seq_nil : seqOf mem None []
| seq_frame a c l :
    mem !! a = Some c → seqOf mem (parent c) l →
    seqOf mem (Some a) (l ++ [call c]).

(** The loop of [TrimCommonPrefix] that counts the calls [f1] and [f2]
    have in common at their beginning.  Each turn increments [common],
    which stays below [len(f1)], so the loop takes at most [len(f1)] turns;
    [n] counts them. *)
Fixpoint commonFrom (n : nat) (f1 f2 : list nat) (common : nat) : nat :=
  match n with
  | 0 => common
  | S n' =>
      match f1 !! common, f2 !! common with
      | Some x, Some y =>
          if bool_decide (x = y) then commonFrom n' f1 f2 (S common)
          else common
      | _, _ => common
      end
  end.

(** The loops of [TrimCommonPrefix] that reconstitute a stack from its
    calls: [nsf = nsf.Extend(call)] for each call, from the nil stack. *)
Definition reconstitute (fr : Frames) (calls : list nat) : Frames * ptr :=
  fold_left (λ '(fr, nsf) call, Extend fr nsf call) calls (fr, None).

(** [TrimCommonPrefix].  The array [buf] only provides storage for the two
    flattened stacks: [f2] is written behind [f1], or to a new array when
    the room does not suffice. *)
Definition TrimCommonPrefix (fr : Frames) (sf other : ptr)
  : option (Frames * ptr * ptr) :=
  f1 ← Flatten fr sf;
  f2 ← Flatten fr other;
  let common := commonFrom (length f1) f1 f2 0 in
  if common =? 0 then Some (fr, sf, other)
  else
    let '(fr1, nsf1) := reconstitute fr (drop common f1) in
    let '(fr2, nsf2) := reconstitute fr1 (drop common f2) in
    Some (fr2, nsf1, nsf2).

End StackFrame.

(** ** LockSet *)

Module LockSet.

(** [type LockSet struct { sp *StringSpace; bits big.Int;
    stacks map[int]*StackFrame }].  [bits] starts at zero and is only
    changed by [SetBit], [Or] and [AndNot], so it is never negative. *)
Record t := mk { sp : nat; bits : N; stacks : gmap nat ptr }.

Definition NewLockSet (sp : nat) : t := mk sp 0%N ∅.

(** [set.bits.Bit(id) != 0] *)
Definition Bit (set : t) (id : nat) : bool :=
  N.testbit (bits set) (N.of_nat id).

(** [set.stacks[k]]: reading an absent key gives the zero value, nil. *)
Definition stackAt (set : t) (k : nat) : ptr :=
  default None (stacks set !! k).

(** [HashKey] is [set.bits.Text(16)], a rendering of [bits] that is
    one-to-one; the number stands for its text. *)
Definition HashKey (set : t) : N := bits set.

Definition Equal (set set2 : t) : bool :=
  if negb (sp set =? sp set2) then false
  else if negb (bits set =? bits set2)%N then false
  else bool_decide (map_Forall (λ k v, stackAt set2 k = v) (stacks set)).

(** [out.bits.SetBit(&out.bits, id, 1); out.stacks[id] = stack] *)
Definition acquire (out : t) (id : nat) (stack : ptr) : t :=
  mk (sp out) (N.setbit (bits out) (N.of_nat id)) (<[id := stack]> (stacks out)).

(** [out.bits.SetBit(&out.bits, id, 0); delete(out.stacks, id)] *)
Definition release (out : t) (id : nat) : t :=
  mk (sp out) (N.clearbit (bits out) (N.of_nat id)) (delete id (stacks out)).

(** One iteration of the loop of [Plus].  The loop clones [set] before its
    first write, so [set] itself is never written and [out] is a value. *)
Definition plusStep (stack : ptr) (acc : Spaces * t) (label : string)
  : Spaces * t :=
  let '(h, out) := acc in
  let '(h', id) := InternAt h (sp out) label in
  if Bit out id then (h', out) else (h', acquire out id stack).

Definition Plus (h : Spaces) (set : t) (s : list string) (stack : ptr)
  : Spaces * t :=
  fold_left (plusStep stack) s (h, set).

Definition PlusLabel (h : Spaces) (set : t) (label : string) (stack : ptr)
  : Spaces * t :=
  let '(h', id) := InternAt h (sp set) label in
  if Bit set id then (h', set) else (h', acquire set id stack).

(** The loop of [Union] over [o.stacks]: an iteration reads and writes
    the key it visits only, so the order of the visit does not matter. *)
Definition unionStep (k : nat) (v : ptr) (out : gmap nat ptr)
  : gmap nat ptr :=
  match default None (out !! k) with
  | None => <[k := v]> out
  | Some _ => out
  end.

Definition Union (set o : t) : t :=
  if (N.ldiff (bits o) (bits set) =? 0)%N then set
  else mk (sp set) (N.lor (bits set) (bits o))
          (map_fold unionStep (stacks set) (stacks o)).

Definition minusStep (acc : Spaces * t) (label : string) : Spaces * t :=
  let '(h, out) := acc in
  let '(h', id) := InternAt h (sp out) label in
  if Bit out id then (h', release out id) else (h', out).

Definition Minus (h : Spaces) (set : t) (s : list string) : Spaces * t :=
  fold_left minusStep s (h, set).

Definition MinusLabel (h : Spaces) (set : t) (label : string)
  : Spaces * t :=
  let '(h', id) := InternAt h (sp set) label in
  if Bit set id then (h', release set id) else (h', set).

(** [Key]: the text of [bits], then for each set bit, in increasing
    order, a colon and the positions of the calls of its stack, the
    innermost first, each followed by a comma.  The pair of [bits] and the
    list of position lists stands for that string, which determines it.
    [Pos] gives the position of an instruction. *)
Definition Key (Pos : nat → nat) (fr : StackFrame.Frames) (set : t)
  : N * list (list nat) :=
  (bits set,
   (λ i, Pos <$> StackFrame.calls fr (stackAt set i))
     <$> filter (λ i, Is_true (Bit set i)) (seq 0 (N.size_nat (bits set)))).

(** [String]: the labels of the locks of [set], by increasing id, between
    braces and with commas in between.  The loop state is the text [b] and
    the flag [first]; [set.sp.s[i]] panics when [i] is no index of [s], and
    the result is [None] then. *)
Definition String (h : Spaces) (set : t) : option string :=
  '(b, _) ←
    foldl
      (λ acc i,
         '(b, first) ← acc;
         if Bit set i then
           let b := if (first : bool) then b else b +:+ "," in
           label ← StringSpace.s (spaceAt h (sp set)) !! i;
           Some (b +:+ label, false)
         else Some (b, first))
      (Some ("{"%string, true))
      (seq 0 (N.size_nat (bits set)));
  Some (b +:+ "}").

(** The invariant of the data model: a bit is set exactly for the keys of
    [stacks]. *)
Definition integral (set : t) : Prop :=
  ∀ id, Bit set id = true ↔ is_Some (stacks set !! id).

(** The lock sets the six constructors build. *)
Inductive reachable : t → Prop :=
| reach_new sp : reachable (NewLockSet sp)
| reach_plus h set s stack :
    reachable set → reachable (Plus h set s stack).2
| reach_plus_label h set label stack :
    reachable set → reachable (PlusLabel h set label stack).2
| reach_minus h set s :
    reachable set → reachable (Minus h set s).2
| reach_minus_label h set label :
    reachable set → reachable (MinusLabel h set label).2
| reach_union set o :
    reachable set → reachable o → reachable (Union set o).

End LockSet.



(** ** LockSetSet *)

Module LockSetSet.

(** [type LockSetSet struct { M map[LockSetKey]*LockSet }].  A nil map
    reads like an empty one, and the walkers never write to the nil map of
    the placeholder [&LockSetSet{}]. *)
Record t := mk { M : gmap (N * list (list nat)) LockSet.t }.

Definition NewLockSetSet : t := mk ∅.

Definition Add (Pos : nat → nat) (fr : StackFrame.Frames)
    (lss : t) (ss : LockSet.t) : t :=
  mk (<[LockSet.Key Pos fr ss := ss]> (M lss)).

(** [lss.M[k] = ss] for every entry of [lss2]. *)
Definition Union (lss lss2 : t) : t := mk (M lss2 ∪ M lss).

End LockSetSet.

(** ** Results of the walkers

    A walker returns, stops on a run-time panic of the Go program, or runs
    out of the steps the model gives it. *)

Inductive Res (A : Type) : Type :=
| Done (a : A)
| Panics
| OutOfFuel.

Arguments Done {A} a.
Arguments Panics {A}.
Arguments OutOfFuel {A}.

Global Instance Res_bind : MBind Res := λ A B k r,
  match r with
  | Done a => k a
  | Panics => Panics
  | OutOfFuel => OutOfFuel
  end.

(** [for _, x := range l] with a body that may stop the walk. *)
Fixpoint forEachM {A B} (body : B → A → Res B) (l : list A) (b : B) : Res B :=
  match l with
  | [] => Done b
  | x :: l' => b' ← body b x ; forEachM body l' b'
  end.

(** ** ValState *)

Module ValState.

(** [go/constant] values, as far as the walkers look at them. *)
Inductive constant := Bool (b : bool) | Int (z : Z) | String (s : string) | Unknown.

Definition MakeBool (b : bool) : constant := Bool b.

(** [constant.BoolVal] is defined on [Bool] and [Unknown] and panics on
    the other kinds. *)
Definition BoolVal (c : constant) : Res bool :=
  match c with
  | Bool b => Done b
  | Unknown => Done false
  | _ => Panics
  end.

(** Modelled from the spec: the type [DynValue], declared outside
    [main.go]: a constant, a pointer to a heap object, or a struct that
    maps field names to heap objects.  A heap object is known by its
    identity. *)
Inductive DynValue :=
| DynConst (c : constant)
| DynHeapPtr (h : nat)
| DynStruct (fields : gmap string nat).

Global Instance constant_eq_dec : EqDecision constant.
Proof. solve_decision. Defined.

Global Instance DynValue_eq_dec : EqDecision DynValue.
Proof. solve_decision. Defined.

(** Modelled from the spec: the type [ValState] and its methods [Get],
    [Extend], [ExtendHeap], [LimitToHeap] and [EqualAt], declared outside
    [main.go]: an immutable map from SSA values to [DynValue]s and a map
    from heap objects to [DynValue]s; two states are equal at a mask when
    they agree on every value of the mask and on all heap entries. *)
Record t := mk { vals : gmap nat DynValue; heap : gmap nat DynValue }.

Definition empty : t := mk ∅ ∅.

Definition Get (vs : t) (v : nat) : option DynValue := vals vs !! v.

Definition Extend (vs : t) (v : nat) (d : DynValue) : t :=
  mk (<[v := d]> (vals vs)) (heap vs).

Definition ExtendHeap (vs : t) (h : nat) (d : DynValue) : t :=
  mk (vals vs) (<[h := d]> (heap vs)).

Definition LimitToHeap (vs : t) : t := mk ∅ (heap vs).

Definition EqualAt (vs vs2 : t) (mask : gset nat) : bool :=
  bool_decide (set_Forall (λ v, vals vs !! v = vals vs2 !! v) mask)
  && bool_decide (heap vs = heap vs2).

End ValState.

(** ** PathState *)

Module PathState.

(** [type PathState struct { block *ssa.BasicBlock; lockSet *LockSet;
    vs ValState; mask map[ssa.Instruction]struct{} }].  A block is known
    by its identity; a nil mask is the empty set. *)
Record t := mk {
  block : option nat;
  lockSet : LockSet.t;
  vs : ValState.t;
  mask : gset nat
}.

Definition HashKey (ps : t) : option nat * N :=
  (block ps, LockSet.HashKey (lockSet ps)).

Definition Equal (ps ps2 : t) : bool :=
  bool_decide (block ps = block ps2)
  && LockSet.Equal (lockSet ps) (lockSet ps2)
  && ValState.EqualAt (vs ps) (vs ps2) (mask ps).

Definition withBlock (b : option nat) (ps : t) : t :=
  mk b (lockSet ps) (vs ps) (mask ps).
Definition withLockSet (ls : LockSet.t) (ps : t) : t :=
  mk (block ps) ls (vs ps) (mask ps).
Definition withVs (v : ValState.t) (ps : t) : t :=
  mk (block ps) (lockSet ps) v (mask ps).
Definition withMask (m : gset nat) (ps : t) : t :=
  mk (block ps) (lockSet ps) (vs ps) m.

End PathState.

(** ** PathStateSet *)

Module PathStateSet.

(** [type PathStateSet struct { m map[pathStateKey][]PathState }] *)
Record t := mk { m : gmap (option nat * N) (list PathState.t) }.

Definition NewPathStateSet : t := mk ∅.

(** [set.m[key]]: the nil slice when the key is absent. *)
Definition bucket (set : t) (key : option nat * N) : list PathState.t :=
  default [] (m set !! key).

Definition Add (set : t) (ps : PathState.t) : t :=
  let key := PathState.HashKey ps in
  let slice := bucket set key in
  if existsb (λ e, PathState.Equal e ps) slice then set
  else mk (<[key := slice ++ [ps]]> (m set)).

Definition Contains (set : t) (ps : PathState.t) : bool * nat :=
  let slice := bucket set (PathState.HashKey ps) in
  (existsb (λ e, PathState.Equal e ps) slice, length slice).

Section transforms.
Context {St : Type}.

(** The inner loop of [MapInPlace] over one bucket, from index [i] on.
    The loop state is the state [σ] that [f] works on, the map [set.m]
    and the queue [toAdd].  Each turn increments [i] and [slice] never
    grows, so the loop takes at most [len(slice)] turns; [n] counts
    them. *)
Fixpoint sweep (f : St → PathState.t → St * PathState.t) (n : nat)
    (hashKey : option nat * N)
    (acc : St * gmap (option nat * N) (list PathState.t) * list PathState.t)
    (slice : list PathState.t) (i : nat)
  : St * gmap (option nat * N) (list PathState.t) * list PathState.t :=
  match n with
  | 0 => acc
  | S n' =>
      match slice !! i with
      | None => acc
      | Some ps =>
          let '(σ, m, toAdd) := acc in
          let '(σ', ps2) := f σ ps in
          if PathState.Equal ps ps2
          then sweep f n' hashKey (σ', m, toAdd) slice (S i)
          else
            let slice' :=
              take (length slice - 1)
                   (<[i := default ps (last slice)]> slice) in
            let m' :=
              match slice' with
              | [] => delete hashKey m
              | _ => <[hashKey := slice']> m
              end in
            sweep f n' hashKey (σ', m', toAdd ++ [ps2]) slice' (S i)
      end
  end.

(** [MapInPlace]; the closure [f] may work on a state of its own.  The
    range over [set.m] visits the buckets that the map had when the loop
    began, and a turn changes the bucket it visits only. *)
Definition MapInPlace (f : St → PathState.t → St * PathState.t)
    (σ : St) (set : t) : St * t :=
  let '(σ', m', toAdd) :=
    map_fold (λ hashKey slice acc,
                sweep f (length slice) hashKey acc slice 0)
             (σ, m set, []) (m set) in
  (σ', fold_left Add toAdd (mk m')).

(** [ForEach], with a closure that works on a state and may stop the
    walk. *)
Definition ForEach (f : St → PathState.t → Res St) (σ : St) (set : t)
  : Res St :=
  map_fold (λ _ slice r, σ' ← r ; forEachM f slice σ') (Done σ) (m set).

(** [FlatMap]; the scratch slice only provides storage. *)
Definition FlatMap (f : St → PathState.t → Res (St * list PathState.t))
    (σ : St) (set : t) : Res (St * t) :=
  map_fold
    (λ _ slice r,
       acc ← r ;
       forEachM (λ '(σ1, out) ps,
                   '(σ2, nps) ← f σ1 ps ;
                   Done (σ2, fold_left Add nps out))
                slice acc)
    (Done (σ, NewPathStateSet)) (m set).

End transforms.

(** [MapInPlace] with a closure that has no state of its own. *)
Definition MapInPlacePure (f : PathState.t → PathState.t) (set : t) : t :=
  (MapInPlace (λ (_ : unit) ps, (tt, f ps)) tt set).2.

(** The path states stored in a set. *)
Definition stored (set : t) (ps : PathState.t) : Prop :=
  ∃ key slice, m set !! key = Some slice ∧ ps ∈ slice.

End PathStateSet.

(** ** PathStateMap *)

Module PathStateMap.

(** [type pathStateMapEntry struct { ps PathState; val interface{} }];
    every value that the walkers store is a [*LockSetSet]. *)
Record pathStateMapEntry := mkEntry { ps : PathState.t; val : LockSetSet.t }.

Record t := mk { m : gmap (option nat * N) (list pathStateMapEntry) }.

Definition NewPathStateMap : t := mk ∅.

(** The loop of [Set]: the first entry [Equal] to [key] gets the value. *)
Fixpoint setFirst (key : PathState.t) (v : LockSetSet.t)
    (slice : list pathStateMapEntry) : option (list pathStateMapEntry) :=
  match slice with
  | [] => None
  | e :: rest =>
      if PathState.Equal (ps e) key then Some (mkEntry (ps e) v :: rest)
      else (e ::.) <$> setFirst key v rest
  end.

(** [Set]; the name is reserved in Rocq. *)
Definition Set_ (psm : t) (key : PathState.t) (v : LockSetSet.t) : t :=
  let k := PathState.HashKey key in
  let slice := default [] (m psm !! k) in
  match setFirst key v slice with
  | Some slice' => mk (<[k := slice']> (m psm))
  | None => mk (<[k := slice ++ [mkEntry key v]]> (m psm))
  end.

(** [Get] returns nil when no entry is [Equal] to [key]. *)
Definition Get (psm : t) (key : PathState.t) : option LockSetSet.t :=
  let slice := default [] (m psm !! PathState.HashKey key) in
  val <$> List.find (λ e, PathState.Equal (ps e) key) slice.

End PathStateMap.

(** ** The SSA program *)

(** [ssa.CallCommon], as far as [callees] looks at it: the built-in the call
    applies, with whether the first parameter of that built-in is a string,
    and the static callee. *)
Record CallCommon := mkCall {
  Builtin : option (string * bool);
  StaticCallee : option nat
}.

(** The instructions that [walkBlock] tells apart.  A value, like an
    instruction, is known by its identity. *)
Inductive InstrKind :=
| If (Cond : nat)
| Call (c : CallCommon)
| Lookup (isMap CommaOk : bool)
| MakeChan
| MakeMap
| MakeSlice
| MapUpdate
| Panic
| Send
| Go (c : CallCommon)
| Return
| Phi (Edges : list nat)
| Other.

Record Instruction := mkInstr { ident : nat; kind : InstrKind }.

(** The run-time functions of [var fns]. *)
Record runtimeFns := mkFns {
  growslice : nat; closechan : nat; slicecopy : nat; slicestringcopy : nat;
  mapdelete : nat; mapaccess1 : nat; mapaccess2 : nat; makechan : nat;
  makemap : nat; newarray : nat; mapassign1 : nat; gopanic : nat;
  chansend1 : nat
}.

(** The lines that [warnl] prints. *)
Inductive Warning :=
| ExternalFunction (f : nat)
| NoCallGraph (call : nat)
| TooManyStates (b : nat) (index : nat).

(** [type funcInfo struct { exitLockSets *PathStateMap;
    ifDeps []map[ssa.Instruction]struct{} }]; the debug tree only records
    the walk and is left out, here and in the walkers. *)
Record funcInfo := mkInfo {
  exitLockSets : PathStateMap.t;
  ifDeps : list (gset nat)
}.

Module state.
Section state.
(** The lock-order graph, declared outside [main.go]; only the call
  handlers use it. *)
Context {LockOrder : Type}.

(** [type state struct]: the fields that the walkers and the handlers
  work on, with the memory behind the pointers they hold: the string
  spaces and the stack frames. *)
Record t := mk {
spaces : Spaces;
frames : StackFrame.Frames;
fns : gmap nat funcInfo;
stack : ptr;
lockOrder : LockOrder;
roots : list nat;
rootSet : gset nat;
warnings : list Warning
}.

Definition withFrames fr stk (s : t) : t :=
mk (spaces s) fr (fns s) stk (lockOrder s) (roots s) (rootSet s)
   (warnings s).
Definition withSpaces h (s : t) : t :=
mk h (frames s) (fns s) (stack s) (lockOrder s) (roots s) (rootSet s)
   (warnings s).
Definition withFns m (s : t) : t :=
mk (spaces s) (frames s) m (stack s) (lockOrder s) (roots s) (rootSet s)
   (warnings s).
Definition withStack stk (s : t) : t :=
mk (spaces s) (frames s) (fns s) stk (lockOrder s) (roots s) (rootSet s)
   (warnings s).

Definition warnl (s : t) (w : Warning) : t :=
mk (spaces s) (frames s) (fns s) (stack s) (lockOrder s) (roots s)
   (rootSet s) (warnings s ++ [w]).

Definition addRoot (s : t) (fn : nat) : t :=
if bool_decide (fn ∈ rootSet s) then s
else mk (spaces s) (frames s) (fns s) (stack s) (lockOrder s)
        (roots s ++ [fn]) ({[fn]} ∪ rootSet s) (warnings s).

(** A write through the pointer [fInfo := s.fns[f]] to its memoization
  cache. *)
Definition setExit (f : nat) (ps : PathState.t) (v : LockSetSet.t)
  (s : t) : t :=
withFns
  (alter (λ fi, mkInfo (PathStateMap.Set_ (exitLockSets fi) ps v)
                       (ifDeps fi))
         f (fns s))
  s.

End state.
End state.

Arguments state.t : clear implicits.

(** ** The walkers *)

Section walkers.

Context {LockOrder : Type}.

(** The SSA form of the program, its call graph, the liveness analysis of
    [live.go], and the parts of the analysis that are declared outside
    [main.go]: the call handlers and [ValState.Do]. *)
Variable Blocks : nat → list nat.
Variable Instrs : nat → list Instruction.
Variable Succs : nat → list nat.
Variable Preds : nat → list nat.
Variable Parent : nat → nat.
Variable Index : nat → nat.
Variable String : nat → string.
Variable Name : nat → string.
Variable Pos : nat → nat.
Variable cgOut : nat → option (list (nat * nat)).
Variable runtime : runtimeFns.
Variable livenessFor : nat → list Instruction → list (gset nat).
Variable Do : ValState.t → Instruction → ValState.t.
Variable callHandlers :
  string →
  option (state.t LockOrder → PathState.t → Instruction →
          list PathState.t → state.t LockOrder * list PathState.t).

Abbreviation state := (state.t LockOrder).

(** [callees], for the call [call] with common part [c] in function [f]. *)
Definition callees (s : state) (f : nat) (call : Instruction)
    (c : CallCommon) : state * list nat :=
  match Builtin c with
  | Some (name, arg0IsString) =>
      if bool_decide (name = "append"%string) then (s, [growslice runtime])
      else if bool_decide (name = "close"%string)
      then (s, [closechan runtime])
      else if bool_decide (name = "copy"%string)
      then (if arg0IsString then (s, [slicestringcopy runtime])
            else (s, [slicecopy runtime]))
      else if bool_decide (name = "delete"%string)
      then (s, [mapdelete runtime])
      else (s, [])
  | None =>
      match StaticCallee c with
      | Some fn => (s, [fn])
      | None =>
          match cgOut f with
          | Some out =>
              (s, snd <$> filter (λ o, o.1 = ident call) out)
          | None => (state.warnl s (NoCallGraph (ident call)), [])
          end
      end
  end.

(** The first visit of a function by [walkFunction]. *)
Definition ifInstrs (f : nat) : list Instruction :=
  omap (λ b, match last (Instrs b) with
             | Some instr =>
                 match kind instr with If _ => Some instr | _ => None end
             | None => None
             end)
       (Blocks f).

Definition firstVisit (f : nat) (s : state) : state :=
  match state.fns s !! f with
  | Some _ => s
  | None =>
      let fInfo := mkInfo PathStateMap.NewPathStateMap
                          (livenessFor f (ifInstrs f)) in
      let s := state.withFns (<[f := fInfo]> (state.fns s)) s in
      match Blocks f with
      | [] => state.warnl s (ExternalFunction f)
      | _ => s
      end
  end.

(** The successors that [walkBlock] visits from [ps]: all of them, or
    the one that the known value of the condition selects.  A block that
    ends in an [If] has two successors. *)
Definition takenSuccs (b : nat) (ifCond : option nat) (ps : PathState.t)
  : Res (list nat) :=
  match ifCond with
  | None => Done (Succs b)
  | Some cond =>
      match ValState.Get (PathState.vs ps) cond with
      | None => Done (Succs b)
      | Some (ValState.DynConst c) =>
          x ← ValState.BoolVal c;
          if (x : bool) then Done (take 1 (Succs b))
          else Done (drop 1 (Succs b))
      | Some _ => Panics
      end
  end.

(** The loop over the edges of one phi of the successor [b2]. *)
Definition phiEdges (b b2 : nat) (phi : nat) (edges : list nat)
    (vs : ValState.t) : ValState.t :=
  fold_left
    (λ vs '(i, inval),
       if bool_decide (Preds b2 !! i = Some b) then
         match ValState.Get vs inval with
         | Some x => ValState.Extend vs phi x
         | None => vs
         end
       else vs)
    (imap (λ i inval, (i, inval)) edges) vs.

(** The loop over the phis at the beginning of [b2]. *)
Fixpoint phis (b b2 : nat) (instrs : list Instruction) (vs : ValState.t)
  : ValState.t :=
  match instrs with
  | instr :: rest =>
      match kind instr with
      | Phi edges => phis b b2 rest (phiEdges b b2 (ident instr) edges vs)
      | _ => vs
      end
  | [] => vs
  end.

(** The path state [ps2] with which [walkBlock] enters the successor
    [b2], the [i]th of the successors it visits. *)
Definition succState (b : nat) (ifCond : option nat) (ps : PathState.t)
    (i : nat) (b2 : nat) : PathState.t :=
  let ps2 := PathState.withBlock (Some b2) ps in
  let ps2 :=
    match ifCond with
    | Some cond =>
        PathState.withVs
          (ValState.Extend (PathState.vs ps2) cond
             (ValState.DynConst (ValState.MakeBool (i =? 0))))
          ps2
    | None => ps2
    end in
  PathState.withVs (phis b b2 (Instrs b2) (PathState.vs ps2)) ps2.

(** The path states that [walkBlock] enters from [ps], in order. *)
Definition succStates (b : nat) (ifCond : option nat) (ps : PathState.t)
  : Res (list PathState.t) :=
  succs ← takenSuccs b ifCond ps;
  Done (imap (succState b ifCond ps) succs).

Section steps.
(** The two walkers, for the calls that one step makes. *)
Variable walkFunction :
  nat → PathState.t → state → Res (LockSetSet.t * state).
Variable walkBlock :
  PathStateSet.t → PathState.t → LockSetSet.t → state →
  Res (PathStateSet.t * LockSetSet.t * state).

(** The closure that [doCall] hands to [FlatMap]. *)
Definition doCallBody (instr : Instruction) (fs : list nat)
    (s : state) (ps : PathState.t) : Res (state * list PathState.t) :=
  let psEntry :=
    PathState.mk None (PathState.lockSet ps)
                 (ValState.LimitToHeap (PathState.vs ps)) ∅ in
  '(s', _, newps) ←
    forEachM
      (λ '(s, ps, newps) fn,
         match callHandlers (String fn) with
         | Some handler =>
             let '(s', newps') := handler s ps instr newps in
             Done (s', ps, newps')
         | None =>
             '(lss, s') ← walkFunction fn psEntry s;
             let '(ps', newps') :=
               map_fold
                 (λ _ ls '(ps, newps),
                    let ps := PathState.withLockSet ls ps in
                    (ps, newps ++ [ps]))
                 (ps, newps) (LockSetSet.M lss) in
             Done (s', ps', newps')
         end)
      fs (s, ps, []);
  Done (s', newps).

Definition doCall (instr : Instruction) (fs : list nat)
    (pathStates : PathStateSet.t) (s : state)
  : Res (PathStateSet.t * state) :=
  let '(fr, stk) :=
    StackFrame.Extend (state.frames s) (state.stack s) (ident instr) in
  '(s, pathStates) ←
    PathStateSet.FlatMap (doCallBody instr fs)
      (state.withFrames fr stk s) pathStates;
  match state.stack s with
  | None => Panics
  | Some a =>
      match StackFrame.cells (state.frames s) !! a with
      | None => Panics
      | Some c =>
          Done (pathStates, state.withStack (StackFrame.parent c) s)
      end
  end.

(** One turn of the loop of [walkBlock] over the instructions of a
    block of function [f]. *)
Definition instrStep (f : nat)
    (acc : PathStateSet.t * option nat * LockSetSet.t * state)
    (instr : Instruction)
  : Res (PathStateSet.t * option nat * LockSetSet.t * state) :=
  let '(pathStates, ifCond, exitLockSets, s) := acc in
  let pathStates :=
    PathStateSet.MapInPlacePure
      (λ ps, PathState.withVs (Do (PathState.vs ps) instr) ps)
      pathStates in
  let call fs :=
    '(pathStates, s) ← doCall instr fs pathStates s;
    Done (pathStates, ifCond, exitLockSets, s) in
  match kind instr with
  | If cond => Done (pathStates, Some cond, exitLockSets, s)
  | Call c =>
      let '(s, outs) := callees s f instr c in
      match outs with
      | [] => Done (pathStates, ifCond, exitLockSets, s)
      | _ =>
          '(pathStates, s) ← doCall instr outs pathStates s;
          Done (pathStates, ifCond, exitLockSets, s)
      end
  | Lookup isMap CommaOk =>
      if negb isMap then Done (pathStates, ifCond, exitLockSets, s)
      else if CommaOk then call [mapaccess2 runtime]
      else call [mapaccess1 runtime]
  | MakeChan => call [makechan runtime]
  | MakeMap => call [makemap runtime]
  | MakeSlice => call [newarray runtime]
  | MapUpdate => call [mapassign1 runtime]
  | Panic => call [gopanic runtime]
  | Send => call [chansend1 runtime]
  | Go c =>
      let '(s, outs) := callees s f instr c in
      Done (pathStates, ifCond, exitLockSets,
            fold_left state.addRoot outs s)
  | Return =>
      let '(h, pathStates) :=
        if bool_decide (Name f = "traceReleaseBuffer"%string) then
          PathStateSet.MapInPlace
            (λ h ps,
               let '(h', ls) :=
                 LockSet.MinusLabel h (PathState.lockSet ps)
                   "runtime.trace.bufLock" in
               (h', PathState.withLockSet ls ps))
            (state.spaces s) pathStates
        else (state.spaces s, pathStates) in
      let s := state.withSpaces h s in
      exitLockSets ←
        PathStateSet.ForEach
          (λ lss ps,
             Done (LockSetSet.Add Pos (state.frames s) lss
                     (PathState.lockSet ps)))
          exitLockSets pathStates;
      Done (pathStates, ifCond, exitLockSets, s)
  | Phi _ | Other => Done (pathStates, ifCond, exitLockSets, s)
  end.

(** The closure that processes the successor blocks of [b] from one
    path state. *)
Definition visitSuccs (b : nat) (ifCond : option nat)
    (acc : PathStateSet.t * LockSetSet.t * state) (ps : PathState.t)
  : Res (PathStateSet.t * LockSetSet.t * state) :=
  pss ← succStates b ifCond ps;
  forEachM (λ '(blockCache, exitLockSets, s) ps2,
              walkBlock blockCache ps2 exitLockSets s)
           pss acc.

(** [walkBlock] after the check of the block cache. *)
Definition walkInstrs (b f : nat) (blockCache : PathStateSet.t)
    (enterPathState : PathState.t) (exitLockSets : LockSetSet.t)
    (s : state) : Res (PathStateSet.t * LockSetSet.t * state) :=
  let pathStates :=
    PathStateSet.Add PathStateSet.NewPathStateSet enterPathState in
  '(pathStates, ifCond, exitLockSets, s) ←
    forEachM (instrStep f) (Instrs b)
             (pathStates, None, exitLockSets, s);
  PathStateSet.ForEach (visitSuccs b ifCond)
    (blockCache, exitLockSets, s) pathStates.

(** [walkBlock], with its calls of itself and of [walkFunction] left to
    the two parameters. *)
Definition walkBlockBody (blockCache : PathStateSet.t)
    (enterPathState : PathState.t) (exitLockSets : LockSetSet.t)
    (s : state) : Res (PathStateSet.t * LockSetSet.t * state) :=
  match PathState.block enterPathState with
  | None => Panics
  | Some b =>
      let f := Parent b in
      match state.fns s !! f with
      | None => Panics
      | Some fInfo =>
          match ifDeps fInfo !! Index b with
          | None => Panics
          | Some mask =>
              let enterPathState :=
                PathState.withMask mask enterPathState in
              let '(cached, similar) :=
                PathStateSet.Contains blockCache enterPathState in
              if cached then Done (blockCache, exitLockSets, s)
              else if 10 <? similar
              then Done (blockCache, exitLockSets,
                         state.warnl s (TooManyStates b (Index b)))
              else
                walkInstrs b f
                  (PathStateSet.Add blockCache enterPathState)
                  enterPathState exitLockSets s
          end
      end
  end.

(** [walkFunction], with its call of [walkBlock] left to the
    parameter. *)
Definition walkFunctionBody (f : nat) (ps : PathState.t) (s : state)
  : Res (LockSetSet.t * state) :=
  let s := firstVisit f s in
  match Blocks f with
  | [] =>
      Done (LockSetSet.Add Pos (state.frames s) LockSetSet.NewLockSetSet
              (PathState.lockSet ps), s)
  | entry :: _ =>
      match state.fns s !! f with
      | None => Panics
      | Some fInfo =>
          match PathStateMap.Get (exitLockSets fInfo) ps with
          | Some memo => Done (memo, s)
          | None =>
              let s := state.setExit f ps (LockSetSet.mk ∅) s in
              let blockCache := PathStateSet.NewPathStateSet in
              let enterPathState :=
                PathState.mk (Some entry) (PathState.lockSet ps)
                             (PathState.vs ps) ∅ in
              '(_, exitLockSets, s) ←
                walkBlock blockCache enterPathState
                  LockSetSet.NewLockSetSet s;
              Done (exitLockSets, state.setExit f ps exitLockSets s)
          end
      end
  end.

End steps.

(** The two walkers call each other; [n] bounds the depth of the calls. *)
Fixpoint walkFunction (n : nat) (f : nat) (ps : PathState.t) (s : state)
  : Res (LockSetSet.t * state) :=
  match n with
  | 0 => OutOfFuel
  | S n' => walkFunctionBody (walkBlock n') f ps s
  end
with walkBlock (n : nat) (blockCache : PathStateSet.t)
    (enterPathState : PathState.t) (exitLockSets : LockSetSet.t)
    (s : state) : Res (PathStateSet.t * LockSetSet.t * state) :=
  match n with
  | 0 => OutOfFuel
  | S n' =>
      walkBlockBody (walkFunction n') (walkBlock n')
        blockCache enterPathState exitLockSets s
  end.

End walkers.

(** ** [blockPos] *)

Section blockPos.

(** The blocks of a function, the instructions and the predecessors of a
    block, its function and its index in the function; the position of an
    instruction and the position of a function.  [token.NoPos], the
    position that is not valid, is 0. *)
Variable Blocks : nat → list nat.
Variable Instrs : nat → list Instruction.
Variable Preds : nat → list nat.
Variable Parent Index : nat → nat.
Variable Pos : nat → nat.
Variable FuncPos : nat → nat.

(** The loop over [b.Instrs]: the first instruction that is no phi and
    has a valid position. *)
Definition firstReal (b : nat) : option Instruction :=
  List.find
    (λ i, negb (match kind i with Phi _ => true | _ => false end
                || (Pos (ident i) =? 0)))
    (Instrs b).

(** The loop of [blockPos], from the block [b] with the slice [visited],
    which is nil before it is allocated.  A turn for a block that is
    marked returns, so every turn after the first marks one more block;
    [n] bounds the turns. *)
Fixpoint blockPosFrom (n : nat) (visited : option (list bool)) (b : nat)
  : Res nat :=
  match n with
  | 0 => OutOfFuel
  | S n' =>
      let rest (visited : option (list bool)) : Res nat :=
        match firstReal b with
        | Some i => Done (Pos (ident i))
        | None =>
            match Preds b with
            | [] => Done (FuncPos (Parent b))
            | pred :: _ =>
                match visited with
                | Some v => blockPosFrom n' (Some v) pred
                | None =>
                    let v := replicate (length (Blocks (Parent b))) false in
                    if Index b <? length v
                    then blockPosFrom n' (Some (<[Index b := true]> v)) pred
                    else Panics
                end
            end
        end in
      match visited with
      | None => rest None
      | Some v =>
          match v !! Index b with
          | None => Panics
          | Some true => Done (FuncPos (Parent b))
          | Some false => rest (Some (<[Index b := true]> v))
          end
      end
  end.

(** [blockPos]: one turn more than the function has blocks. *)
Definition blockPos (b : nat) : Res nat :=
  blockPosFrom (S (length (Blocks (Parent b)))) None b.

End blockPos.

(** ** Vocabulary of the lockset statements *)

(** The ids that interning the labels of a points-to set returns, in the
    order of the labels. *)
Fixpoint internAll (sp : StringSpace.t) (s : list string)
  : StringSpace.t * list nat :=
  match s with
  | [] => (sp, [])
  | l :: s' =>
      let '(sp1, id) := StringSpace.Intern sp l in
      let '(sp2, ids) := internAll sp1 s' in
      (sp2, id :: ids)
  end.

(** The lock classes of the points-to set [s], seen from [set]. *)
Definition classes (h : Spaces) (set : LockSet.t) (s : list string) : list nat :=
  (internAll (spaceAt h (LockSet.sp set)) s).2.

Definition acquireAll (stack : ptr) (set : LockSet.t) (ids : list nat) : LockSet.t :=
  fold_left (λ out id, if LockSet.Bit out id then out else LockSet.acquire out id stack)
    ids set.

Definition releaseAll (set : LockSet.t) (ids : list nat) : LockSet.t :=
  fold_left (λ out id, if LockSet.Bit out id then LockSet.release out id else out) ids set.

(** ** Vocabulary of the path-state statements *)

(** A block cache in which no bucket holds more than [k] path states. *)
Definition bounded (k : nat) (set : PathStateSet.t) : Prop :=
  ∀ key, length (PathStateSet.bucket set key) ≤ k.

(** A path state as the walkers build it: its lock set is integral and its
    mask is the one of its block, [D (block ps)]. *)
Definition regular (D : option nat → gset nat) (ps : PathState.t) : Prop :=
  LockSet.integral (PathState.lockSet ps) ∧
  PathState.mask ps = D (PathState.block ps).

(** Set semantics under [PathState.Equal]: every path state is stored under
    its own hash key, and no two stored path states are [Equal]. *)
Record distinct (set : PathStateSet.t) : Prop := {
  distinct_key key slice ps :
    PathStateSet.m set !! key = Some slice → ps ∈ slice →
    PathState.HashKey ps = key;
  distinct_pair key slice i j a b :
    PathStateSet.m set !! key = Some slice →
    slice !! i = Some a → slice !! j = Some b → i ≠ j →
    PathState.Equal a b = false
}.

(** One bucket of such a set: regular path states of one hash key, no two
    of them [Equal]. *)
Definition bucketOK (D : option nat → gset nat) (key : option nat * N)
    (slice : list PathState.t) : Prop :=
  (∀ ps, ps ∈ slice → PathState.HashKey ps = key ∧ regular D ps) ∧
  (∀ i j a b, slice !! i = Some a → slice !! j = Some b → i ≠ j →
              PathState.Equal a b = false).

Definition mapOK (D : option nat → gset nat)
    (m : gmap (option nat * N) (list PathState.t)) : Prop :=
  ∀ key slice, m !! key = Some slice → bucketOK D key slice.

(** A memoization cache [psm'] keeps the cache [psm] when every bucket of
    [psm] is the beginning of the same bucket of [psm']: the entries of
    [psm] are there, with their values, before any other. *)
Definition psmKeeps (psm psm' : PathStateMap.t) : Prop :=
  ∀ k, default [] (PathStateMap.m psm !! k)
         `prefix_of` default [] (PathStateMap.m psm' !! k).

(** The analysis state [s'] keeps the memoized results of [s]. *)
Definition memoKeeps {LockOrder : Type} (s s' : state.t LockOrder) : Prop :=
  ∀ f fi, state.fns s !! f = Some fi →
          ∃ fi', state.fns s' !! f = Some fi' ∧
                 psmKeeps (exitLockSets fi) (exitLockSets fi').

(** A set of regular path states with set semantics. *)
Definition proper (D : option nat → gset nat) (set : PathStateSet.t) : Prop :=
  distinct set ∧ ∀ ps, PathStateSet.stored set ps → regular D ps.

(** ** The liveness analysis of [live.go] *)

(** A call of [livenessFor] returns, stops the program with [log.Fatalf],
    stops it with an index out of range, or runs out of the steps the
    model gives it. *)
Inductive Outcome (A : Type) : Type :=
| Returns (a : A)
| Fatal
| OutOfRange
| Unfinished.

Arguments Returns {A} a.
Arguments Fatal {A}.
Arguments OutOfRange {A}.
Arguments Unfinished {A}.

Global Instance Outcome_bind : MBind Outcome := λ A B k r,
  match r with
  | Returns a => k a
  | Fatal => Fatal
  | OutOfRange => OutOfRange
  | Unfinished => Unfinished
  end.

(** [for _, x := range l] with a body that may stop the program. *)
Fixpoint rangeO {A B} (body : B → A → Outcome B) (l : list A) (b : B)
  : Outcome B :=
  match l with
  | [] => Returns b
  | x :: l' => b' ← body b x ; rangeO body l' b'
  end.

Module live.
Section live.

(** The blocks of a function, the predecessors and the index of a block,
    the block of an instruction, the operands of an instruction, which are
    values, and the instruction that a value is, if it is one: the type
    assertion [rand.(ssa.Instruction)]. *)
Variable Blocks : nat → list nat.
Variable Preds : nat → list nat.
Variable Index : nat → nat.
Variable Block : nat → nat.
Variable Operands : Instruction → list nat.
Variable asInstruction : nat → option Instruction.

(** The closure [walk].  [deps] is the slice that [livenessFor] returns;
    a nil map reads as the empty set.  A call that does not return at once
    adds [def] to a set that lacked it, so the calls are nested no deeper
    than there are blocks; [n] bounds the depth. *)
Fixpoint walk (n : nat) (def use : nat) (deps : list (gset nat))
  : Outcome (list (gset nat)) :=
  match n with
  | 0 => Unfinished
  | S n' =>
      match deps !! Index use with
      | None => OutOfRange
      | Some d =>
          if bool_decide (def ∈ d) then Returns deps
          else if bool_decide (Block def = use) then Returns deps
          else
            let deps := <[Index use := {[def]} ∪ d]> deps in
            match Preds use with
            | [] => Fatal
            | preds => rangeO (λ deps pred, walk n' def pred deps) preds deps
            end
      end
  end.

(** The closure [doVal], on the map [visited] and the slice [deps];
    [n] bounds the depth of its calls of itself and [m] that of the calls
    of [walk]. *)
Fixpoint doVal (n m : nat) (val : Instruction)
    (acc : gset nat * list (gset nat))
  : Outcome (gset nat * list (gset nat)) :=
  match n with
  | 0 => Unfinished
  | S n' =>
      let '(visited, deps) := acc in
      if bool_decide (ident val ∈ visited) then Returns acc
      else
        let visited := {[ident val]} ∪ visited in
        match kind val with
        | Phi edges =>
            let b := Block (ident val) in
            match deps !! Index b with
            | None => OutOfRange
            | Some _ =>
                rangeO
                  (λ '(visited, deps) '(i, rand),
                     match asInstruction rand with
                     | None => Returns (visited, deps)
                     | Some r =>
                         match deps !! Index b with
                         | None => OutOfRange
                         | Some d =>
                             let deps :=
                               <[Index b := {[ident r]} ∪ d]> deps in
                             match Preds b !! i with
                             | None => OutOfRange
                             | Some pred =>
                                 deps ← walk m (ident r) pred deps;
                                 doVal n' m r (visited, deps)
                             end
                         end
                     end)
                  (imap (λ i rand, (i, rand)) edges) (visited, deps)
            end
        | _ =>
            rangeO
              (λ '(visited, deps) rand,
                 match asInstruction rand with
                 | None => Returns (visited, deps)
                 | Some r =>
                     deps ← walk m (ident r) (Block (ident val)) deps;
                     doVal n' m r (visited, deps)
                 end)
              (Operands val) (visited, deps)
        end
  end.

(** [livenessFor]; [n] bounds the depth of the calls of [doVal]. *)
Definition livenessFor (n : nat) (f : nat) (vals : list Instruction)
  : Outcome (list (gset nat)) :=
  '(_, deps) ←
    rangeO (λ acc val, doVal n (S (length (Blocks f))) val acc) vals
           (∅, replicate (length (Blocks f)) ∅);
  Returns deps.

End live.
End live.

(** [def] is live at the entry of the block [u] according to [deps]. *)
Definition liveAt (Index : nat → nat) (deps : list (gset nat))
    (def u : nat) : Prop :=
  ∃ d, deps !! Index u = Some d ∧ def ∈ d.

(** The liveness of [def] flows back along the edges of the control-flow
    graph: a block at whose entry [def] is live, and that is not among the
    [pending] ones, has only predecessors that define [def] or at whose
    entry [def] is live. *)
Definition flowsBack (Preds : nat → list nat) (Index Block : nat → nat)
    (pending : gset nat) (deps : list (gset nat)) (def : nat) : Prop :=
  ∀ u, liveAt Index deps def u → u ∉ pending →
       ∀ p, p ∈ Preds u → p = Block def ∨ liveAt Index deps def p.

(** The operands of [val] that are instructions have been visited and are
    live where [val] uses them.  An instruction that is no phi uses its
    operands in its own block: an operand is live at the entry of the
    block unless the block defines it.  A phi uses the operand of edge [i]
    at the end of predecessor [i]: the operand is in the set of the phi's
    block, and live at the entry of that predecessor unless the
    predecessor defines it. *)
Definition operandsLive (Preds : nat → list nat) (Index Block : nat → nat)
    (Operands : Instruction → list nat)
    (asInstruction : nat → option Instruction)
    (deps : list (gset nat)) (visited : gset nat) (val : Instruction)
  : Prop :=
  match kind val with
  | Phi edges =>
      ∀ i rand r, edges !! i = Some rand → asInstruction rand = Some r →
        ident r ∈ visited ∧
        liveAt Index deps (ident r) (Block (ident val)) ∧
        ∃ pred, Preds (Block (ident val)) !! i = Some pred ∧
                (pred = Block (ident r) ∨ liveAt Index deps (ident r) pred)
  | _ =>
      ∀ rand r, rand ∈ Operands val → asInstruction rand = Some r →
        ident r ∈ visited ∧
        (Block (ident val) = Block (ident r) ∨
         liveAt Index deps (ident r) (Block (ident val)))
  end.

(** ** Example programs *)

Module Examples.

(** A function with three blocks: block 0 ends in [if t7], with block 1
    for the true edge and block 2 for the false edge; both return. *)
Definition Blocks (f : nat) : list nat :=
  match f with 0 => [0; 1; 2] | _ => [] end.
Definition Instrs (b : nat) : list Instruction :=
  match b with
  | 0 => [mkInstr 8 (If 7)]
  | 1 | 2 => [mkInstr 9 Return]
  | _ => []
  end.
Definition Succs (b : nat) : list nat :=
  match b with 0 => [1; 2] | _ => [] end.
Definition Preds (b : nat) : list nat :=
  match b with 1 | 2 => [0] | _ => [] end.
Definition Parent (b : nat) : nat := 0.
Definition Index (b : nat) : nat := b.
Definition String (f : nat) : string := "f".
Definition Pos (i : nat) : nat := i.
Definition cgOut (f : nat) : option (list (nat * nat)) := None.
Definition runtime : runtimeFns :=
  mkFns 100 101 102 103 104 105 106 107 108 109 110 111 112.
Definition livenessFor (f : nat) (vals : list Instruction)
  : list (gset nat) := [{[7]}; ∅; ∅].
Definition Do (vs : ValState.t) (instr : Instruction) : ValState.t := vs.
Definition callHandlers (name : string)
  : option (state.t unit → PathState.t → Instruction →
            list PathState.t → state.t unit * list PathState.t) := None.

Definition walkBlock :=
  walkBlock Blocks Instrs Succs Preds Parent Index String String Pos cgOut
    runtime livenessFor Do callHandlers.
Definition walkFunction :=
  walkFunction Blocks Instrs Succs Preds Parent Index String String Pos
    cgOut runtime livenessFor Do callHandlers.

(** The analysis state after the first visit of the function. *)
Definition s0 : state.t unit :=
  state.mk ∅ StackFrame.empty
    {[0 := mkInfo PathStateMap.NewPathStateMap (livenessFor 0 [])]}
    None () [] ∅ [].

(** A lock set that holds class 0, acquired at the frame [i]. *)
Definition heldAt (i : nat) : LockSet.t :=
  LockSet.acquire (LockSet.NewLockSet 0) 0 (Some i).

(** A path state at block 1 with that lock set. *)
Definition at1 (i : nat) : PathState.t :=
  PathState.mk (Some 1) (heldAt i) ValState.empty ∅.

(** A block cache with the path states [at1 0], ..., [at1 (n - 1)]. *)
Definition cacheOf (n : nat) : PathStateSet.t :=
  fold_left PathStateSet.Add (at1 <$> seq 0 n) PathStateSet.NewPathStateSet.

(** A path state at block 0 in which the condition [t7] has the value
    [v]. *)
Definition at0 (v : option bool) : PathState.t :=
  PathState.mk (Some 0) (LockSet.NewLockSet 0)
    (match v with
     | Some x =>
         ValState.Extend ValState.empty 7
           (ValState.DynConst (ValState.MakeBool x))
     | None => ValState.empty
     end)
    {[7]}.

(** Two path states of one bucket that differ in the value of [t1], and a
    transform that binds [t0]. *)
Definition withT1 (n : Z) : PathState.t :=
  PathState.mk (Some 0) (LockSet.NewLockSet 0)
    (ValState.Extend ValState.empty 1 (ValState.DynConst (ValState.Int n)))
    {[0; 1]}.
Definition bindT0 (ps : PathState.t) : PathState.t :=
  PathState.withVs
    (ValState.Extend (PathState.vs ps) 0
       (ValState.DynConst (ValState.Bool true)))
    ps.
Definition twoStates : PathStateSet.t :=
  PathStateSet.Add
    (PathStateSet.Add PathStateSet.NewPathStateSet (withT1 1)) (withT1 2).

(** The mask of a block in the example: [t0] and [t1] at block 0. *)
Definition maskOf (b : option nat) : gset nat :=
  match b with Some 0 => {[0; 1]} | _ => ∅ end.

End Examples.

(** ** A recursive function that releases and re-acquires a lock *)

Module Recursive.

(** Function 0 is [func f() { unlock(&a); lock(&a); f() }]: one block with
    the calls [t1 = unlock(&a)], [t2 = lock(&a)], [t3 = f()] and the return.
    Functions 1 and 2 are the run-time functions [lock] and [unlock]. *)
Definition Blocks (f : nat) : list nat :=
  match f with 0 => [0] | _ => [] end.
Definition Instrs (b : nat) : list Instruction :=
  match b with
  | 0 => [mkInstr 1 (Call (mkCall None (Some 2)));
          mkInstr 2 (Call (mkCall None (Some 1)));
          mkInstr 3 (Call (mkCall None (Some 0)));
          mkInstr 4 Return]
  | _ => []
  end.
Definition Succs (b : nat) : list nat := [].
Definition Preds (b : nat) : list nat := [].
Definition Parent (b : nat) : nat := 0.
Definition Index (b : nat) : nat := b.
Definition String (f : nat) : string :=
  match f with 0 => "f" | 1 => "runtime.lock" | _ => "runtime.unlock" end.
Definition livenessFor (f : nat) (vals : list Instruction)
  : list (gset nat) := [∅].
Definition Do (vs : ValState.t) (instr : Instruction) : ValState.t := vs.

(** The points-to set of the argument of [lock] and [unlock]. *)
Definition pointsTo (instr : Instruction) : list string := ["A"].

(** The lock-order graph: the edges, as they are added. *)
Definition LockOrder : Type := list (nat * nat * ptr * ptr).

(** Modelled from the spec: the call handler of [lock], declared outside
    [main.go]: it emits an order edge from every class of the lock set to
    every class of the points-to set of the argument, then adds these
    classes to the lock set with the current stack, interned. *)
Definition handleLock (s : state.t LockOrder) (ps : PathState.t)
    (instr : Instruction) (newps : list PathState.t)
  : state.t LockOrder * list PathState.t :=
  match StackFrame.Intern (state.frames s) (state.stack s) with
  | None => (s, newps)
  | Some (fr, stk) =>
      let ls := PathState.lockSet ps in
      let '(h, ids) :=
        internAll (spaceAt (state.spaces s) (LockSet.sp ls)) (pointsTo instr) in
      let edges :=
        '(from, fromStack) ← map_to_list (LockSet.stacks ls);
        (λ to, (from, to, fromStack, stk)) <$> ids in
      let '(h', ls') :=
        LockSet.Plus (state.spaces s) ls (pointsTo instr) stk in
      (state.mk h' fr (state.fns s) (state.stack s)
         (state.lockOrder s ++ edges) (state.roots s) (state.rootSet s)
         (state.warnings s),
       newps ++ [PathState.withLockSet ls' ps])
  end.

(** Modelled from the spec: the call handler of [unlock], declared outside
    [main.go]: it removes the classes of the points-to set of the argument
    from the lock set. *)
Definition handleUnlock (s : state.t LockOrder) (ps : PathState.t)
    (instr : Instruction) (newps : list PathState.t)
  : state.t LockOrder * list PathState.t :=
  let '(h', ls') :=
    LockSet.Minus (state.spaces s) (PathState.lockSet ps) (pointsTo instr) in
  (state.withSpaces h' s, newps ++ [PathState.withLockSet ls' ps]).

Definition callHandlers (name : string)
  : option (state.t LockOrder → PathState.t → Instruction →
            list PathState.t → state.t LockOrder * list PathState.t) :=
  if bool_decide (name = "runtime.lock"%string) then Some handleLock
  else if bool_decide (name = "runtime.unlock"%string) then Some handleUnlock
  else None.

(** The same walk for [func g() { lock(&a); g() }], which keeps the lock
    it holds: the block of function 0 without the call of [unlock]. *)
Definition InstrsHeld (b : nat) : list Instruction :=
  match b with
  | 0 => [mkInstr 2 (Call (mkCall None (Some 1)));
          mkInstr 3 (Call (mkCall None (Some 0)));
          mkInstr 4 Return]
  | _ => []
  end.
Definition walkFunctionHeld :=
  walkFunction Blocks InstrsHeld Succs Preds Parent Index String
    String Examples.Pos Examples.cgOut Examples.runtime livenessFor Do
    callHandlers.

Definition walkFunction :=
  walkFunction Blocks Instrs Succs Preds Parent Index String String
    Examples.Pos Examples.cgOut Examples.runtime livenessFor Do callHandlers.
Definition walkBlock :=
  walkBlock Blocks Instrs Succs Preds Parent Index String String
    Examples.Pos Examples.cgOut Examples.runtime livenessFor Do callHandlers.

(** The analysis state and the entry path state of a root. *)
Definition s0 : state.t LockOrder :=
  state.mk ∅ StackFrame.empty ∅ None [] [] ∅ [].
Definition ps0 : PathState.t :=
  PathState.mk None (LockSet.NewLockSet 0) ValState.empty ∅.

End Recursive.

(** ** A loop with a phi *)

Module Loop.

(** Function 0 has the blocks 0, 1 and 2.  Block 0 defines [t10] and jumps
    to block 1; block 1 is a loop with [t11 = phi [0: t10, 1: t12]] and
    [t12 = t11 + t10], and goes on to itself or to block 2; block 2
    computes [t20] from [t12] and the constant 99. *)
Definition Blocks (f : nat) : list nat :=
  match f with 0 => [0; 1; 2] | _ => [] end.
Definition Preds (b : nat) : list nat :=
  match b with 1 => [0; 1] | 2 => [1] | _ => [] end.
Definition Index (b : nat) : nat := b.
Definition Block (i : nat) : nat :=
  match i with 10 => 0 | 11 | 12 => 1 | _ => 2 end.
Definition Operands (val : Instruction) : list nat :=
  match ident val with
  | 11 => [10; 12]
  | 12 => [11; 10]
  | 20 => [12; 99]
  | _ => []
  end.
Definition asInstruction (v : nat) : option Instruction :=
  match v with
  | 10 => Some (mkInstr 10 Other)
  | 11 => Some (mkInstr 11 (Phi [10; 12]))
  | 12 => Some (mkInstr 12 Other)
  | 20 => Some (mkInstr 20 Other)
  | _ => None
  end.
Definition livenessFor :=
  live.livenessFor Blocks Preds Index Block Operands asInstruction.

End Loop.

(** *** Vocabulary of the walk of the recursive function *)

(** The label ["A"] has, or gets, the id 0 in the string space at
    address 0. *)
Definition spOK (h : Spaces) : Prop :=
  (StringSpace.Intern (spaceAt h 0) "A").2 = 0.

(** The rank of a lock set that is empty or holds class 0: the number of
    calls on the stack at which the class was acquired. *)
Definition hasRank (mem : list StackFrame.t) (L : LockSet.t) (r : nat)
  : Prop :=
  (r = 0 ∧ L = LockSet.NewLockSet 0) ∨
  (∃ q l, L = Examples.heldAt q ∧ StackFrame.seqOf mem (Some q) l ∧
          length l = r).

(** What the walk of an instruction leaves of the analysis state. *)
Definition follows (s s' : state.t Recursive.LockOrder) : Prop :=
  state.fns s' = state.fns s ∧ state.stack s' = state.stack s ∧
  StackFrame.cells (state.frames s)
    `prefix_of` StackFrame.cells (state.frames s') ∧
  StackFrame.wf (state.frames s') ∧ spOK (state.spaces s').

(** The analysis state in which [f] is entered at call depth [k] with the
    lock set [L]: the stack has [k] calls, [L] has rank [k], and every
    entry path state memoized for [f] has a lock set of a smaller rank. *)
Record entered (k : nat) (s : state.t Recursive.LockOrder) (L : LockSet.t)
  : Prop := {
  entered_spaces : spOK (state.spaces s);
  entered_wf : StackFrame.wf (state.frames s);
  entered_valid : StackFrame.valid (state.frames s) (state.stack s);
  entered_depth :
    ∃ σ, StackFrame.seqOf (StackFrame.cells (state.frames s))
           (state.stack s) σ ∧ length σ = k;
  entered_rank : hasRank (StackFrame.cells (state.frames s)) L k;
  entered_memo fi key slice e :
    state.fns s !! 0 = Some fi →
    PathStateMap.m (exitLockSets fi) !! key = Some slice → e ∈ slice →
    ∃ r, r < k ∧
         hasRank (StackFrame.cells (state.frames s))
           (PathState.lockSet (PathStateMap.ps e)) r;
  entered_deps fi :
    state.fns s !! 0 = Some fi → ifDeps fi = [∅]
}.

(** ** Vocabulary of the string-space statements *)

(** A string space as [NewStringSpace] and [Intern] build it: [m] maps a
    string to its index in [s]. *)
Definition spaceOK (sp : StringSpace.t) : Prop :=
  ∀ str id,
    StringSpace.m sp !! str = Some id ↔ StringSpace.s sp !! id = Some str.

(** Every lock of the lock set is an index of its string space. *)
Definition covered (h : Spaces) (set : LockSet.t) : Prop :=
  ∀ k, LockSet.Bit set k = true →
       k < length (StringSpace.s (spaceAt h (LockSet.sp set))).

(** ** Vocabulary of the further walker statements *)

(** The analysis state [s'] has the call stack of [s], and the frames of
    [s] are in [s'] as they were. *)
Definition stackKept {LockOrder : Type} (s s' : state.t LockOrder) : Prop :=
  state.stack s' = state.stack s ∧
  StackFrame.cells (state.frames s)
    `prefix_of` StackFrame.cells (state.frames s').

(** The block cache [c'] has the path states of [c], in their buckets,
    before any other. *)
Definition cacheKept (c c' : PathStateSet.t) : Prop :=
  ∀ key, PathStateSet.bucket c key `prefix_of` PathStateSet.bucket c' key.

(** The list of roots has no function twice, and [rootSet] is the set of
    the functions it lists. *)
Definition rootsOK {LockOrder : Type} (s : state.t LockOrder) : Prop :=
  NoDup (state.roots s) ∧
  ∀ fn, fn ∈ state.rootSet s ↔ fn ∈ state.roots s.

(** * Part II: properties *)

(** ** The lockset algebra *)

Section lockset_facts.
Import LockSet.

Lemma Bit_acquire out id stack k :
  Bit (acquire out id stack) k = bool_decide (id = k) || Bit out k.
Proof.
  unfold Bit, acquire; simpl. rewrite N.setbit_eqb.
  f_equal. case_bool_decide as E.
  - subst. apply N.eqb_refl.
  - apply N.eqb_neq. lia.
Qed.

Lemma Bit_release out id k :
  Bit (release out id) k = Bit out k && negb (bool_decide (id = k)).
Proof.
  unfold Bit, release; simpl. rewrite N.clearbit_eqb.
  f_equal. f_equal. case_bool_decide as E.
  - subst. apply N.eqb_refl.
  - apply N.eqb_neq. lia.
Qed.

Lemma Bit_ext (a b : t) : (∀ k, Bit a k = Bit b k) → bits a = bits b.
Proof.
  intros E. apply N.bits_inj. intros n.
  rewrite <- (N2Nat.id n). apply E.
Qed.

Lemma integral_new sp : integral (NewLockSet sp).
Proof.
  intros k. unfold Bit, NewLockSet. cbn [bits stacks].
  rewrite N.bits_0, lookup_empty. split; [done | by intros []].
Qed.

Lemma integral_acquire out id stack :
  integral out → integral (acquire out id stack).
Proof.
  intros Hout k. rewrite Bit_acquire. simpl.
  destruct (decide (id = k)) as [->|Hne].
  - rewrite bool_decide_eq_true_2 by done. rewrite lookup_insert_eq.
    split; eauto.
  - rewrite bool_decide_eq_false_2 by done. rewrite lookup_insert_ne by done.
    apply Hout.
Qed.

Lemma integral_release out id :
  integral out → integral (release out id).
Proof.
  intros Hout k. rewrite Bit_release. simpl.
  destruct (decide (id = k)) as [->|Hne].
  - rewrite bool_decide_eq_true_2 by done. rewrite lookup_delete_eq.
    rewrite andb_false_r. split; [done | by intros []].
  - rewrite bool_decide_eq_false_2 by done. rewrite lookup_delete_ne by done.
    rewrite andb_true_r. apply Hout.
Qed.

Lemma integral_plusStep stack acc label :
  integral acc.2 → integral (plusStep stack acc label).2.
Proof.
  destruct acc as [h out]; simpl. intros Hout.
  destruct (InternAt h (sp out) label) as [h' id].
  destruct (Bit out id); simpl; auto using integral_acquire.
Qed.

Lemma integral_minusStep acc label :
  integral acc.2 → integral (minusStep acc label).2.
Proof.
  destruct acc as [h out]; simpl. intros Hout.
  destruct (InternAt h (sp out) label) as [h' id].
  destruct (Bit out id); simpl; auto using integral_release.
Qed.

Lemma integral_Plus h set s stack :
  integral set → integral (Plus h set s stack).2.
Proof.
  unfold Plus. change set with ((h, set).2) at 1.
  generalize (h, set). induction s as [|l s IH]; intros acc Hacc; simpl.
  - done.
  - apply IH. by apply integral_plusStep.
Qed.

Lemma integral_Minus h set s :
  integral set → integral (Minus h set s).2.
Proof.
  unfold Minus. change set with ((h, set).2) at 1.
  generalize (h, set). induction s as [|l s IH]; intros acc Hacc; simpl.
  - done.
  - apply IH. by apply integral_minusStep.
Qed.

Lemma integral_PlusLabel h set label stack :
  integral set → integral (PlusLabel h set label stack).2.
Proof. apply (integral_plusStep stack (h, set) label). Qed.

Lemma integral_MinusLabel h set label :
  integral set → integral (MinusLabel h set label).2.
Proof. apply (integral_minusStep (h, set) label). Qed.

(** The loop of [Union], key by key. *)
Lemma unionFold_lookup (a b : gmap nat ptr) k :
  map_fold unionStep a b !! k =
    match default None (a !! k), b !! k with
    | None, Some v => Some v
    | _, _ => a !! k
    end.
Proof.
  revert k. apply (map_fold_weak_ind
    (λ r (m : gmap nat ptr), ∀ k, r !! k =
       match default None (a !! k), m !! k with
       | None, Some v => Some v
       | _, _ => a !! k
       end)).
  - intros k. rewrite lookup_empty. by destruct (default None (a !! k)).
  - intros i x m r Hi IH k. unfold unionStep.
    pose proof (IH i) as Hri. rewrite Hi in Hri.
    assert (r !! i = a !! i) as Ei
      by (rewrite Hri; by destruct (default None (a !! i))).
    rewrite Ei.
    destruct (decide (i = k)) as [->|Hne].
    + rewrite lookup_insert_eq.
      destruct (default None (a !! k)) eqn:Ea.
      * by rewrite Ei.
      * by rewrite lookup_insert_eq.
    + rewrite (lookup_insert_ne m) by done.
      destruct (default None (a !! i)); [apply IH|].
      rewrite lookup_insert_ne by done. apply IH.
Qed.

Lemma Bit_lor (a b : t) k :
  N.testbit (N.lor (bits a) (bits b)) (N.of_nat k) = Bit a k || Bit b k.
Proof. unfold Bit. apply N.lor_spec. Qed.

Lemma integral_Union set o :
  integral set → integral o → integral (Union set o).
Proof.
  intros Hs Ho. unfold Union.
  destruct (N.ldiff (bits o) (bits set) =? 0)%N; [done|].
  intros k. unfold Bit at 1; simpl. rewrite Bit_lor, unionFold_lookup.
  rewrite orb_true_iff, (Hs k), (Ho k).
  destruct (stacks set !! k) as [[p|]|] eqn:Ea; simpl;
    destruct (stacks o !! k) eqn:Eb; simpl; split; eauto;
    intros [[? ?]|[? ?]]; done.
Qed.

(** The receiver's stack is kept by [Union] whenever it is not nil. *)
Lemma Union_keeps_receiver set o id p :
  stacks set !! id = Some (Some p) →
  stacks (Union set o) !! id = Some (Some p).
Proof.
  intros E. unfold Union.
  destruct (N.ldiff (bits o) (bits set) =? 0)%N; [done|]. simpl.
  rewrite unionFold_lookup, E. simpl. by destruct (stacks o !! id).
Qed.

(** A class that only the argument holds comes with the argument's
    stack. *)
Lemma Union_adds_argument set o id v :
  integral set → integral o →
  stacks set !! id = None → stacks o !! id = Some v →
  stacks (Union set o) !! id = Some v.
Proof.
  intros Hs Ho Ea Eb. unfold Union.
  destruct (N.ldiff (bits o) (bits set) =? 0)%N eqn:El; simpl.
  - exfalso. apply N.eqb_eq in El.
    assert (Bit o id = true) as Bo by (apply Ho; eauto).
    assert (Bit set id = false) as Bs.
    { destruct (Bit set id) eqn:B; [|done].
      apply Hs in B. rewrite Ea in B. by destruct B. }
    assert (N.testbit (N.ldiff (bits o) (bits set)) (N.of_nat id) = true) as X.
    { rewrite N.ldiff_spec. unfold Bit in Bo, Bs. by rewrite Bo, Bs. }
    rewrite El, N.bits_0 in X. done.
  - rewrite unionFold_lookup, Ea, Eb. done.
Qed.

End lockset_facts.

(** C6.  Every lock set built by [NewLockSet], [Plus], [PlusLabel], [Minus],
    [MinusLabel] and [Union] has a bit set exactly at the keys of its
    [stacks] map, and each of the six operations preserves this. *)
Theorem lockset_integrity :
  (∀ set, LockSet.reachable set → LockSet.integral set) ∧
  (∀ sp, LockSet.integral (LockSet.NewLockSet sp)) ∧
  (∀ h set s stack,
     LockSet.integral set → LockSet.integral (LockSet.Plus h set s stack).2) ∧
  (∀ h set label stack,
     LockSet.integral set →
     LockSet.integral (LockSet.PlusLabel h set label stack).2) ∧
  (∀ h set s,
     LockSet.integral set → LockSet.integral (LockSet.Minus h set s).2) ∧
  (∀ h set label,
     LockSet.integral set →
     LockSet.integral (LockSet.MinusLabel h set label).2) ∧
  (∀ set o,
     LockSet.integral set → LockSet.integral o →
     LockSet.integral (LockSet.Union set o)).
Proof.
  split.
  - induction 1;
      auto using integral_new, integral_Plus, integral_PlusLabel,
        integral_Minus, integral_MinusLabel, integral_Union.
  - repeat apply conj;
      auto using integral_new, integral_Plus, integral_PlusLabel,
        integral_Minus, integral_MinusLabel, integral_Union.
Qed.

Lemma lockset_integrity_witness :
  LockSet.integral
    (LockSet.Union
       (LockSet.Minus ∅
          (LockSet.Plus ∅ (LockSet.NewLockSet 0) ["A"; "B"]%string (Some 1)).2
          ["A"]%string).2
       (LockSet.PlusLabel ∅ (LockSet.NewLockSet 0) "C" None).2).
Proof.
  apply (proj1 lockset_integrity).
  apply LockSet.reach_union.
  - apply LockSet.reach_minus, LockSet.reach_plus, LockSet.reach_new.
  - apply LockSet.reach_plus_label, LockSet.reach_new.
Defined.

(** ** Interning labels: [Plus] followed by [Minus] *)

Section plus_minus.
Import LockSet.

Lemma spaceAt_InternAt h p l :
  spaceAt (InternAt h p l).1 p = (StringSpace.Intern (spaceAt h p) l).1 ∧
  (InternAt h p l).2 = (StringSpace.Intern (spaceAt h p) l).2.
Proof.
  unfold InternAt. destruct (StringSpace.Intern (spaceAt h p) l) as [sp' id].
  simpl. split; [|done]. unfold spaceAt. by rewrite lookup_insert_eq.
Qed.

Lemma Plus_classes s : ∀ h set stack,
  (Plus h set s stack).2 = acquireAll stack set (classes h set s) ∧
  spaceAt (Plus h set s stack).1 (sp set) =
    (internAll (spaceAt h (sp set)) s).1 ∧
  sp (Plus h set s stack).2 = sp set.
Proof.
  unfold Plus, classes.
  induction s as [|l s IH]; intros h set stack; simpl; [done|].
  destruct (spaceAt_InternAt h (sp set) l) as [E1 E2].
  destruct (InternAt h (sp set) l) as [h' id]. simpl in E1, E2.
  destruct (StringSpace.Intern (spaceAt h (sp set)) l) as [sp1 id1].
  simpl in E1, E2. subst id1.
  destruct (internAll sp1 s) as [sp2 ids] eqn:Eall. simpl.
  destruct (Bit set id) eqn:Eb.
  - specialize (IH h' set stack). rewrite E1, Eall in IH. apply IH.
  - specialize (IH h' (acquire set id stack) stack). simpl in IH.
    rewrite E1, Eall in IH. apply IH.
Qed.

Lemma Minus_classes s : ∀ h set,
  (Minus h set s).2 = releaseAll set (classes h set s).
Proof.
  unfold Minus, classes.
  induction s as [|l s IH]; intros h set; simpl; [done|].
  destruct (spaceAt_InternAt h (sp set) l) as [E1 E2].
  destruct (InternAt h (sp set) l) as [h' id]. simpl in E1, E2.
  destruct (StringSpace.Intern (spaceAt h (sp set)) l) as [sp1 id1].
  simpl in E1, E2. subst id1.
  destruct (internAll sp1 s) as [sp2 ids] eqn:Eall. simpl.
  destruct (Bit set id) eqn:Eb.
  - specialize (IH h' (release set id)). simpl in IH.
    rewrite E1, Eall in IH. apply IH.
  - specialize (IH h' set). rewrite E1, Eall in IH. apply IH.
Qed.

(** Interning never changes the id of a label that has one. *)
Lemma Intern_keeps sp l l' i :
  StringSpace.m sp !! l' = Some i →
  StringSpace.m (StringSpace.Intern sp l).1 !! l' = Some i.
Proof.
  intros E. unfold StringSpace.Intern.
  destruct (StringSpace.m sp !! l) eqn:El; simpl; [done|].
  rewrite lookup_insert_ne; [done|]. intros ->. congruence.
Qed.

Lemma Intern_known sp l :
  StringSpace.m (StringSpace.Intern sp l).1 !! l
    = Some (StringSpace.Intern sp l).2.
Proof.
  unfold StringSpace.Intern.
  destruct (StringSpace.m sp !! l) eqn:El; simpl; [done|].
  by rewrite lookup_insert_eq.
Qed.

Lemma Intern_again sp l i :
  StringSpace.m sp !! l = Some i → StringSpace.Intern sp l = (sp, i).
Proof. intros E. unfold StringSpace.Intern. by rewrite E. Qed.

Lemma internAll_keeps s : ∀ sp l i,
  StringSpace.m sp !! l = Some i →
  StringSpace.m (internAll sp s).1 !! l = Some i.
Proof.
  induction s as [|l0 s IH]; intros sp l i E; simpl; [done|].
  pose proof (Intern_keeps sp l0 l i E) as E1.
  destruct (StringSpace.Intern sp l0) as [sp1 id]. simpl in E1.
  specialize (IH sp1 l i E1).
  destruct (internAll sp1 s) as [sp2 ids]. done.
Qed.

(** Interning the same labels a second time returns the same ids and
    leaves the space as it is. *)
Lemma internAll_again s : ∀ sp sp',
  (∀ l i, StringSpace.m (internAll sp s).1 !! l = Some i →
          StringSpace.m sp' !! l = Some i) →
  internAll sp' s = (sp', (internAll sp s).2).
Proof.
  induction s as [|l s IH]; intros sp sp' Hle; simpl; [done|].
  simpl in Hle.
  pose proof (Intern_known sp l) as Ek.
  destruct (StringSpace.Intern sp l) as [sp1 id]. simpl in Ek.
  pose proof (internAll_keeps s sp1 l id Ek) as Ek2.
  specialize (IH sp1 sp').
  destruct (internAll sp1 s) as [sp2 ids]. simpl in *.
  rewrite (Intern_again sp' l id) by auto.
  rewrite IH by auto. done.
Qed.

Lemma acquireAll_spec stack ids : ∀ set,
  sp (acquireAll stack set ids) = sp set ∧
  (∀ k, Bit (acquireAll stack set ids) k
        = Bit set k || bool_decide (k ∈ ids)) ∧
  (∀ k, k ∉ ids →
        stacks (acquireAll stack set ids) !! k = stacks set !! k).
Proof.
  induction ids as [|id ids IH]; intros set.
  - split; [done|]. split; [|done]. intros k.
    rewrite bool_decide_eq_false_2; [by rewrite orb_false_r|].
    apply not_elem_of_nil.
  - change (acquireAll stack set (id :: ids)) with
      (acquireAll stack (if Bit set id then set else acquire set id stack) ids).
    destruct (IH (if Bit set id then set else acquire set id stack))
      as (E1 & E2 & E3).
    split; [by destruct (Bit set id)|]. split.
    + intros k. rewrite E2.
      destruct (decide (id = k)) as [->|Hne].
      * rewrite (bool_decide_eq_true_2 (k ∈ k :: ids)) by (apply elem_of_cons; auto).
        rewrite orb_true_r.
        destruct (Bit set k) eqn:Eb; [by rewrite Eb|].
        rewrite Bit_acquire, bool_decide_eq_true_2 by done. done.
      * assert (Bit (if Bit set id then set else acquire set id stack) k
                = Bit set k) as ->.
        { destruct (Bit set id); [done|].
          rewrite Bit_acquire, bool_decide_eq_false_2 by done. done. }
        f_equal. apply bool_decide_ext. rewrite elem_of_cons. intuition congruence.
    + intros k Hk. rewrite elem_of_cons in Hk. rewrite E3 by intuition congruence.
      destruct (Bit set id); [done|]. simpl.
      rewrite lookup_insert_ne; [done|]. intuition congruence.
Qed.

Lemma releaseAll_gone ids : ∀ set k,
  stacks set !! k = None → stacks (releaseAll set ids) !! k = None.
Proof.
  unfold releaseAll.
  induction ids as [|id ids IH]; intros set k E; simpl; [done|].
  apply IH. destruct (Bit set id); [|done]. simpl.
  destruct (decide (id = k)) as [->|Hne].
  - apply lookup_delete_eq.
  - by rewrite lookup_delete_ne.
Qed.

Lemma releaseAll_spec ids : ∀ set,
  sp (releaseAll set ids) = sp set ∧
  (∀ k, Bit (releaseAll set ids) k
        = Bit set k && negb (bool_decide (k ∈ ids))) ∧
  (∀ k, k ∉ ids →
        stacks (releaseAll set ids) !! k = stacks set !! k) ∧
  (∀ k, k ∈ ids → Bit set k = true →
        stacks (releaseAll set ids) !! k = None).
Proof.
  induction ids as [|id ids IH]; intros set.
  - split; [done|]. split; [|split; [done|]].
    + intros k. rewrite bool_decide_eq_false_2; [by rewrite andb_true_r|].
      apply not_elem_of_nil.
    + intros k Hk. by apply elem_of_nil in Hk.
  - change (releaseAll set (id :: ids)) with
      (releaseAll (if Bit set id then release set id else set) ids).
    destruct (IH (if Bit set id then release set id else set))
      as (E1 & E2 & E3 & E4).
    split; [by destruct (Bit set id)|]. split; [|split].
    + intros k. rewrite E2.
      destruct (decide (id = k)) as [->|Hne].
      * rewrite (bool_decide_eq_true_2 (k ∈ k :: ids)) by (apply elem_of_cons; auto).
        destruct (Bit set k) eqn:Eb; simpl.
        -- rewrite Bit_release, bool_decide_eq_true_2 by done.
           by rewrite andb_false_r.
        -- by rewrite Eb.
      * assert (Bit (if Bit set id then release set id else set) k = Bit set k) as ->.
        { destruct (Bit set id); [|done].
          rewrite Bit_release, bool_decide_eq_false_2 by done.
          by rewrite andb_true_r. }
        f_equal. f_equal. apply bool_decide_ext. rewrite elem_of_cons. intuition congruence.
    + intros k Hk. rewrite elem_of_cons in Hk. rewrite E3 by intuition congruence.
      destruct (Bit set id); [|done]. simpl.
      rewrite lookup_delete_ne; [done|]. intuition congruence.
    + intros k Hk Hb.
      destruct (decide (id = k)) as [->|Hne].
      * rewrite Hb. apply releaseAll_gone. simpl. apply lookup_delete_eq.
      * apply E4.
        -- rewrite elem_of_cons in Hk. intuition congruence.
        -- destruct (Bit set id); [|done].
           rewrite Bit_release, bool_decide_eq_false_2 by done.
           by rewrite andb_true_r.
Qed.

End plus_minus.

(** C7.  When no lock class of the points-to set [S] is in the lock set [L],
    [L.Plus(S, stk).Minus(S)] is [Equal] to [L]; the string space is the one
    [Plus] leaves behind. *)
Theorem Plus_then_Minus_restores
    (h : Spaces) (L : LockSet.t) (S : list string) (stk : ptr) :
  Forall (λ id, LockSet.Bit L id = false) (classes h L S) →
  LockSet.Equal
    (LockSet.Minus (LockSet.Plus h L S stk).1 (LockSet.Plus h L S stk).2 S).2
    L = true.
Proof.
  intros Hfresh. rewrite Forall_forall in Hfresh.
  destruct (Plus_classes S h L stk) as (E1 & E2 & E3).
  rewrite Minus_classes. unfold classes at 1. rewrite E3, E2.
  rewrite (internAll_again S (spaceAt h (LockSet.sp L))) by auto.
  cbn [snd]. fold (classes h L S). rewrite E1.
  set (ids := classes h L S) in *.
  destruct (acquireAll_spec stk ids L) as (A1 & A2 & A3).
  destruct (releaseAll_spec ids (acquireAll stk L ids)) as (R1 & R2 & R3 & R4).
  unfold LockSet.Equal.
  rewrite R1, A1, Nat.eqb_refl. cbn [negb].
  assert (LockSet.bits (releaseAll (acquireAll stk L ids) ids)
          = LockSet.bits L) as ->.
  { apply Bit_ext. intros k. rewrite R2, A2.
    case_bool_decide as Hk; simpl.
    - rewrite andb_false_r. symmetry. by apply Hfresh.
    - by rewrite orb_false_r, andb_true_r. }
  rewrite N.eqb_refl. cbn [negb].
  apply bool_decide_eq_true_2. intros k v Hkv.
  destruct (decide (k ∈ ids)) as [Hk|Hk].
  - rewrite R4 in Hkv; [done|done|].
    rewrite A2, bool_decide_eq_true_2 by done. apply orb_true_r.
  - rewrite R3, A3 in Hkv by done. unfold LockSet.stackAt. by rewrite Hkv.
Qed.

Lemma Plus_then_Minus_restores_witness :
  let P0 := LockSet.PlusLabel ∅ (LockSet.NewLockSet 0) "A" (Some 0) in
  LockSet.Equal
    (LockSet.Minus (LockSet.Plus P0.1 P0.2 ["B"; "C"]%string (Some 1)).1
       (LockSet.Plus P0.1 P0.2 ["B"; "C"]%string (Some 1)).2
       ["B"; "C"]%string).2
    P0.2 = true.
Proof.
  intros P0.
  apply (Plus_then_Minus_restores P0.1 P0.2 ["B"; "C"]%string (Some 1)).
  vm_compute. repeat constructor.
Defined.

(** C3.  [Union] prefers the stack of its argument over a nil stack of the
    receiver: with ["A"] acquired at the empty stack in [a], and ["A"] and
    ["B"] acquired at frame 7 in [b], the class of ["A"] is in both sets and
    [a.Union(b)] carries it with the stack of [b]. *)
Theorem Union_replaces_nil_receiver_stack :
  let a := LockSet.PlusLabel ∅ (LockSet.NewLockSet 0) "A" None in
  let b1 := LockSet.PlusLabel a.1 (LockSet.NewLockSet 0) "A" (Some 7) in
  let b := LockSet.PlusLabel b1.1 b1.2 "B" (Some 7) in
  LockSet.Bit a.2 0 = true ∧ LockSet.Bit b.2 0 = true ∧
  LockSet.stacks a.2 !! 0 = Some None ∧
  LockSet.stacks b.2 !! 0 = Some (Some 7) ∧
  LockSet.stacks (LockSet.Union a.2 b.2) !! 0 = Some (Some 7).
Proof. vm_compute. repeat split. Qed.

(** ** Interning stack frames *)

Section interning.
Import StackFrame.

Lemma FlattenN_seqOf n : ∀ mem sf l,
  FlattenN n mem sf = Some l → seqOf mem sf l.
Proof.
  induction n as [|n IH]; intros mem [a|] l E; simpl in E;
    try (injection E as <-; constructor); try done.
  destruct (mem !! a) as [c|] eqn:Ec; [|done].
  destruct (FlattenN n mem (parent c)) as [l'|] eqn:El; [|done].
  injection E as <-. econstructor; eauto.
Qed.

Lemma seqOf_FlattenN mem :
  (∀ a c p, mem !! a = Some c → parent c = Some p → p < a) →
  ∀ sf l, seqOf mem sf l →
  ∀ n, (∀ a, sf = Some a → a < n) → FlattenN n mem sf = Some l.
Proof.
  intros Hpar sf l H. induction H as [|a c l Ec Hl IH]; intros n Hn.
  - by destruct n.
  - destruct n as [|n]; [specialize (Hn a eq_refl); lia|].
    simpl. rewrite Ec, IH; [done|].
    intros p Ep. specialize (Hpar a c p Ec Ep). specialize (Hn a eq_refl). lia.
Qed.

Lemma seqOf_fun mem sf l1 :
  seqOf mem sf l1 → ∀ l2, seqOf mem sf l2 → l1 = l2.
Proof.
  induction 1 as [|a c l Ec Hl IH]; intros l2 H2; inversion H2; subst.
  - done.
  - assert (c0 = c) as -> by congruence. f_equal. by apply IH.
Qed.

Lemma seqOf_mono mem mem' sf l :
  mem `prefix_of` mem' → seqOf mem sf l → seqOf mem' sf l.
Proof.
  intros Hp. induction 1 as [|a c l Ec Hl IH]; econstructor; eauto.
  by eapply prefix_lookup_Some.
Qed.

Lemma seqOf_exists mem :
  (∀ a c p, mem !! a = Some c → parent c = Some p → p < a) →
  ∀ n a, a < n → a < length mem → ∃ l, seqOf mem (Some a) l.
Proof.
  intros Hpar. induction n as [|n IH]; intros a Ha Hlen; [lia|].
  destruct (lookup_lt_is_Some_2 mem a Hlen) as [c Ec].
  destruct (parent c) as [p|] eqn:Ep.
  - pose proof (Hpar a c p Ec Ep) as Hlt.
    destruct (IH p) as [l Hl]; [lia|lia|].
    exists (l ++ [call c]). econstructor; eauto. by rewrite Ep.
  - exists ([] ++ [call c]). econstructor; eauto. rewrite Ep. constructor.
Qed.

(** [Flatten] computes the sequence of every valid frame. *)
Lemma Flatten_seqOf fr sf l :
  wf fr → valid fr sf → (Flatten fr sf = Some l ↔ seqOf (cells fr) sf l).
Proof.
  intros Hwf Hv. split.
  - apply FlattenN_seqOf.
  - intros H. eapply seqOf_FlattenN; eauto using wf_parent.
    intros a ->. exact Hv.
Qed.

Lemma Flatten_total fr sf :
  wf fr → valid fr sf → ∃ l, Flatten fr sf = Some l.
Proof.
  intros Hwf Hv. destruct sf as [a|].
  - destruct (seqOf_exists (cells fr) (wf_parent fr Hwf) (S a) a) as [l Hl];
      [lia|exact Hv|].
    exists l. by apply Flatten_seqOf.
  - exists []. unfold Flatten. by destruct (length (cells fr)).
Qed.

Lemma canonical_cell fr q :
  wf fr → canonical fr q →
  ∃ c, cells fr !! q = Some c ∧ internedStackFrames fr !! key c = Some q ∧
       ∀ p, parent c = Some p → canonical fr p.
Proof.
  intros Hwf [[kp kc] Hk]. exists (mk kp kc).
  split; [apply (wf_entry fr Hwf _ _ Hk)|]. split; [done|].
  intros p Hp. by apply (wf_canon fr Hwf _ _ p Hk).
Qed.

Lemma seqOf_Some_inv mem a l :
  seqOf mem (Some a) l →
  ∃ c l', mem !! a = Some c ∧ seqOf mem (parent c) l' ∧ l = l' ++ [call c].
Proof. inversion 1; subst; eauto. Qed.

Lemma seqOf_None_inv mem l : seqOf mem None l → l = [].
Proof. by inversion 1. Qed.

(** Two canonical frames with the same sequence of calls are the same
    frame. *)
Lemma canonical_unique fr :
  wf fr →
  ∀ l q1 q2, canonical fr q1 → canonical fr q2 →
  seqOf (cells fr) (Some q1) l → seqOf (cells fr) (Some q2) l → q1 = q2.
Proof.
  intros Hwf l. induction l as [|x l IH] using rev_ind;
    intros q1 q2 C1 C2 S1 S2.
  - apply seqOf_Some_inv in S1 as (c & l' & _ & _ & E). by destruct l'.
  - destruct (canonical_cell fr q1 Hwf C1) as (c1 & Ec1 & Ek1 & Hp1).
    destruct (canonical_cell fr q2 Hwf C2) as (c2 & Ec2 & Ek2 & Hp2).
    apply seqOf_Some_inv in S1 as (c1' & l1 & Ec1' & Hl1 & E1).
    apply seqOf_Some_inv in S2 as (c2' & l2 & Ec2' & Hl2 & E2).
    assert (c1' = c1) as -> by congruence.
    assert (c2' = c2) as -> by congruence.
    apply app_inj_tail in E1 as [-> ->].
    apply app_inj_tail in E2 as [-> Ecall].
    assert (parent c1 = parent c2) as Epar.
    { destruct (parent c1) as [p1|] eqn:Ep1, (parent c2) as [p2|] eqn:Ep2.
      - f_equal. apply IH; auto.
      - apply seqOf_None_inv in Hl2 as ->.
        apply seqOf_Some_inv in Hl1 as (c & l' & _ & _ & E). by destruct l'.
      - apply seqOf_None_inv in Hl1 as ->.
        apply seqOf_Some_inv in Hl2 as (c & l' & _ & _ & E). by destruct l'.
      - done. }
    assert (key c1 = key c2) as Ekey by (unfold key; congruence).
    rewrite Ekey in Ek1. congruence.
Qed.

Lemma wf_empty : wf empty.
Proof. split; intros *; simpl; by rewrite ?lookup_nil, ?lookup_empty. Qed.

Lemma canonical_valid fr q : wf fr → canonical fr q → q < length (cells fr).
Proof.
  intros Hwf [k Hk]. eapply lookup_lt_Some. apply (wf_entry fr Hwf _ _ Hk).
Qed.

Lemma wf_Extend fr sf c :
  wf fr → valid fr sf → wf (Extend fr sf c).1.
Proof.
  intros Hwf Hv. split; simpl.
  - intros a c0 p Ea Ep.
    destruct (decide (a < length (cells fr))) as [Hlt|Hge].
    + rewrite lookup_app_l in Ea by done. eapply wf_parent; eauto.
    + rewrite lookup_app_r in Ea by lia.
      destruct (a - length (cells fr)) as [|?] eqn:Ed; [|done].
      injection Ea as <-. simpl in Ep. subst sf. simpl in Hv. lia.
  - intros k q Hk. apply lookup_app_l_Some. eapply wf_entry; eauto.
  - intros k q p Hk Hp. destruct (wf_canon fr Hwf k q p Hk Hp) as [k' Hk'].
    by exists k'.
Qed.

End interning.

Section interning_spec.
Import StackFrame.

Lemma seqOf_canonical_cell fr q c l :
  wf fr → internedStackFrames fr !! key c = Some q →
  seqOf (cells fr) (parent c) l →
  seqOf (cells fr) (Some q) (l ++ [call c]).
Proof.
  intros Hwf Ek Hl. pose proof (wf_entry fr Hwf _ _ Ek) as Eq. simpl in Eq.
  apply (seq_frame _ q (mk (parent c) (call c)) l); done.
Qed.

(** What a call of [Intern] returns and leaves behind. *)
Lemma InternN_spec n : ∀ fr sf,
  wf fr → valid fr sf → (∀ a, sf = Some a → a < n) →
  ∃ fr' q, InternN n fr sf = Some (fr', q) ∧ wf fr' ∧
    cells fr `prefix_of` cells fr' ∧
    internedStackFrames fr ⊆ internedStackFrames fr' ∧
    match q with None => sf = None | Some q' => canonical fr' q' end ∧
    ∀ l, seqOf (cells fr) sf l → seqOf (cells fr') q l.
Proof.
  induction n as [|n IH]; intros fr sf Hwf Hv Hn.
  { destruct sf as [a|]; [specialize (Hn a eq_refl); lia|].
    exists fr, None. simpl. repeat apply conj; done. }
  destruct sf as [a|]; [|exists fr, None; simpl; repeat apply conj; done].
  simpl. destruct (lookup_lt_is_Some_2 (cells fr) a Hv) as [c Ec]. rewrite Ec.
  destruct (internedStackFrames fr !! key c) as [q|] eqn:Ek.
  { exists fr, (Some q). repeat apply conj; try done.
    - by exists (key c).
    - intros l Hl. apply seqOf_Some_inv in Hl as (c' & l' & Ec' & Hl' & ->).
      assert (c' = c) as -> by congruence.
      by apply seqOf_canonical_cell. }
  destruct (IH fr (parent c)) as (fr1 & p & E1 & Hwf1 & Hpre1 & Hsub1 & Hp & Hseq1).
  { done. }
  { destruct (parent c) as [p|] eqn:Ep; simpl; [|done].
    pose proof (wf_parent fr Hwf a c p Ec Ep). simpl in Hv. lia. }
  { intros p Ep. pose proof (wf_parent fr Hwf a c p Ec Ep).
    specialize (Hn a eq_refl). lia. }
  rewrite E1. cbn [Extend internedStackFrames cells].
  assert (valid fr1 p) as Hv1.
  { destruct p as [p|]; simpl; [|done]. by apply canonical_valid. }
  pose proof (wf_Extend fr1 p (call c) Hwf1 Hv1) as Hwf2. simpl in Hwf2.
  assert (cells fr `prefix_of` cells fr1 ++ [mk p (call c)]) as Hpre2.
  { etrans; [exact Hpre1|]. by apply prefix_app_r. }
  destruct (internedStackFrames fr1 !! (p, call c)) as [q|] eqn:Ek1.
  { eexists _, (Some q). split; [done|]. split; [exact Hwf2|].
    split; [exact Hpre2|]. split; [exact Hsub1|]. split.
    - by exists (p, call c).
    - intros l Hl. apply seqOf_Some_inv in Hl as (c' & l' & Ec' & Hl' & ->).
      assert (c' = c) as -> by congruence.
      apply (seqOf_mono (cells fr1)); [by apply prefix_app_r|].
      apply (seqOf_canonical_cell fr1 q (mk p (call c)) l'); auto. }
  set (q := length (cells fr1)).
  set (tbl := <[(p, call c) := q]> (internedStackFrames fr1)).
  assert (∀ x, canonical fr1 x →
               canonical (mkFrames (cells fr1 ++ [mk p (call c)]) tbl) x)
    as Hlift.
  { intros x [k Hk]. exists k. simpl. unfold tbl.
    rewrite lookup_insert_ne; [done|]. intros <-. congruence. }
  eexists _, (Some q). split; [done|]. split; [|split; [exact Hpre2|]].
  { split; simpl.
    - apply (wf_parent _ Hwf2).
    - intros k x Hk. unfold tbl in Hk.
      destruct (decide ((p, call c) = k)) as [<-|Hne].
      + rewrite lookup_insert_eq in Hk. injection Hk as <-. simpl.
        rewrite lookup_app_r by (unfold q; lia).
        unfold q. by rewrite Nat.sub_diag.
      + rewrite lookup_insert_ne in Hk by done.
        apply lookup_app_l_Some. by apply (wf_entry fr1 Hwf1).
    - intros k x p0 Hk Hp0. apply Hlift. unfold tbl in Hk.
      destruct (decide ((p, call c) = k)) as [<-|Hne].
      + simpl in Hp0. subst p. exact Hp.
      + rewrite lookup_insert_ne in Hk by done.
        by apply (wf_canon fr1 Hwf1 k x p0). }
  split.
  { simpl. unfold tbl. etrans; [exact Hsub1|]. by apply insert_subseteq. }
  split.
  { exists (p, call c). simpl. unfold tbl. by rewrite lookup_insert_eq. }
  intros l Hl. apply seqOf_Some_inv in Hl as (c' & l' & Ec' & Hl' & ->).
  assert (c' = c) as -> by congruence. simpl.
  apply (seq_frame _ q (mk p (call c)) l').
  - rewrite lookup_app_r by (unfold q; lia). unfold q. by rewrite Nat.sub_diag.
  - simpl. apply (seqOf_mono (cells fr1)); [by apply prefix_app_r|]. auto.
Qed.

Lemma Intern_spec fr sf :
  wf fr → valid fr sf →
  ∃ fr' q, Intern fr sf = Some (fr', q) ∧ wf fr' ∧
    cells fr `prefix_of` cells fr' ∧
    internedStackFrames fr ⊆ internedStackFrames fr' ∧
    match q with None => sf = None | Some q' => canonical fr' q' end ∧
    ∀ l, seqOf (cells fr) sf l → seqOf (cells fr') q l.
Proof.
  intros Hwf Hv. apply InternN_spec; auto. intros a ->. exact Hv.
Qed.

End interning_spec.

(** C8.  In a frame memory built by [Extend] and [Intern], interning two
    frames one after the other returns the same pointer exactly when the two
    frames have the same [Flatten] sequence of call sites; in particular
    frames with equal sequences intern to one canonical pointer. *)
Theorem Intern_same_pointer_iff_same_calls
    (fr : StackFrame.Frames) (a b : ptr) :
  StackFrame.wf fr → StackFrame.valid fr a → StackFrame.valid fr b →
  ∃ fr1 pa fr2 pb,
    StackFrame.Intern fr a = Some (fr1, pa) ∧
    StackFrame.Intern fr1 b = Some (fr2, pb) ∧
    (pa = pb ↔ StackFrame.Flatten fr a = StackFrame.Flatten fr b).
Proof.
  intros Hwf Ha Hb.
  destruct (Intern_spec fr a Hwf Ha)
    as (fr1 & pa & E1 & Hwf1 & Hpre1 & Hsub1 & Hpa & Hseq1).
  assert (StackFrame.valid fr1 b) as Hb1.
  { destruct b as [b|]; simpl in *; [|done].
    apply prefix_length in Hpre1. lia. }
  destruct (Intern_spec fr1 b Hwf1 Hb1)
    as (fr2 & pb & E2 & Hwf2 & Hpre2 & Hsub2 & Hpb & Hseq2).
  exists fr1, pa, fr2, pb. split; [done|]. split; [done|].
  destruct (Flatten_total fr a Hwf Ha) as [la Ela].
  destruct (Flatten_total fr b Hwf Hb) as [lb Elb].
  rewrite Ela, Elb.
  apply Flatten_seqOf in Ela; [|done..]. apply Flatten_seqOf in Elb; [|done..].
  assert (StackFrame.seqOf (StackFrame.cells fr2) pa la) as Sa
    by eauto using seqOf_mono.
  assert (StackFrame.seqOf (StackFrame.cells fr2) pb lb) as Sb
    by eauto using seqOf_mono.
  split.
  - intros ->. f_equal. eapply seqOf_fun; eauto.
  - intros [= ->]. destruct pa as [qa|], pb as [qb|].
    + f_equal. apply (canonical_unique fr2 Hwf2 lb); auto.
      destruct Hpa as [k Hk]. exists k. eapply lookup_weaken; eauto.
    + apply seqOf_None_inv in Sb as ->.
      apply seqOf_Some_inv in Sa as (c & l' & _ & _ & E). by destruct l'.
    + apply seqOf_None_inv in Sa as ->.
      apply seqOf_Some_inv in Sb as (c & l' & _ & _ & E). by destruct l'.
    + done.
Qed.

Lemma Intern_same_pointer_iff_same_calls_witness :
  let fr :=
    (StackFrame.Extend
       (StackFrame.Extend
          (StackFrame.Extend
             (StackFrame.Extend StackFrame.empty None 1).1 (Some 0) 2).1
          None 1).1
       (Some 2) 2).1 in
  ∃ fr1 pa fr2 pb,
    StackFrame.Intern fr (Some 1) = Some (fr1, pa) ∧
    StackFrame.Intern fr1 (Some 3) = Some (fr2, pb) ∧
    (pa = pb ↔
     StackFrame.Flatten fr (Some 1) = StackFrame.Flatten fr (Some 3)).
Proof.
  intros fr.
  apply (Intern_same_pointer_iff_same_calls fr (Some 1) (Some 3)).
  - unfold fr. repeat (apply wf_Extend; [|simpl; lia || exact I]).
    apply wf_empty.
  - simpl. lia.
  - simpl. lia.
Defined.

(** ** [MapInPlace] *)

(** C1.  [MapInPlace] leaves a path state untransformed: on the set of the
    two path states [withT1 1] and [withT1 2], which share a bucket, with a
    transform that changes both, the result holds the image of the first
    and the second as it was; the image of the second is not in the
    result. *)
Theorem MapInPlace_leaves_swapped_state :
  PathStateSet.bucket Examples.twoStates (Some 0, 0%N)
    = [Examples.withT1 1; Examples.withT1 2] ∧
  PathState.Equal (Examples.withT1 2) (Examples.bindT0 (Examples.withT1 2))
    = false ∧
  PathStateSet.m (PathStateSet.MapInPlacePure Examples.bindT0 Examples.twoStates)
    = {[ (Some 0, 0%N) :=
           [Examples.withT1 2; Examples.bindT0 (Examples.withT1 1)] ]}.
Proof. vm_compute. repeat split. Qed.

(** ** Loops that thread a state *)

Section loops.

Lemma bind_Done {A} (r : Res A) : (x ← r; Done x) = r.
Proof. by destruct r. Qed.

Lemma bind_Done_inv {A B} (r : Res A) (k : A → Res B) b :
  r ≫= k = Done b → ∃ a, r = Done a ∧ k a = Done b.
Proof. destruct r; [eauto|done..]. Qed.

Lemma forEachM_inv {A B} (P : B → Prop) (body : B → A → Res B) l :
  (∀ b x b', P b → body b x = Done b' → P b') →
  ∀ b b', P b → forEachM body l b = Done b' → P b'.
Proof.
  intros Hbody. induction l as [|x l IH]; intros b b' Hb E; simpl in E.
  - by injection E as <-.
  - apply bind_Done_inv in E as (b1 & E1 & E2).
    exact (IH b1 b' (Hbody b x b1 Hb E1) E2).
Qed.

Lemma ForEach_inv {St} (P : St → Prop) (f : St → PathState.t → Res St)
    set σ σ' :
  (∀ σ ps σ', P σ → f σ ps = Done σ' → P σ') →
  P σ → PathStateSet.ForEach f σ set = Done σ' → P σ'.
Proof.
  intros Hf Hσ. unfold PathStateSet.ForEach. revert σ'.
  apply (map_fold_weak_ind
           (λ r (_ : gmap (option nat * N) (list PathState.t)),
              ∀ σ', r = Done σ' → P σ')).
  - by intros σ' [= <-].
  - intros key slice m r _ IH σ' E.
    apply bind_Done_inv in E as (σ1 & -> & E2).
    exact (forEachM_inv P f slice Hf σ1 σ' (IH σ1 eq_refl) E2).
Qed.

Lemma FlatMap_inv {St} (P : St → Prop)
    (f : St → PathState.t → Res (St * list PathState.t)) set σ σ' out :
  (∀ σ ps σ' l, P σ → f σ ps = Done (σ', l) → P σ') →
  P σ → PathStateSet.FlatMap f σ set = Done (σ', out) → P σ'.
Proof.
  intros Hf Hσ E.
  enough (∀ a, PathStateSet.FlatMap f σ set = Done a → P a.1) as H
    by exact (H (σ', out) E).
  clear E. unfold PathStateSet.FlatMap.
  apply (map_fold_weak_ind
           (λ r (_ : gmap (option nat * N) (list PathState.t)),
              ∀ a : St * PathStateSet.t, r = Done a → P a.1)).
  - by intros a [= <-].
  - intros key slice m r _ IH a E.
    apply bind_Done_inv in E as (acc & -> & E). revert E.
    apply (forEachM_inv (λ a : St * PathStateSet.t, P a.1));
      [|by apply IH].
    intros [σ1 out1] ps [σ2 out2] H1 E1. simpl in *.
    apply bind_Done_inv in E1 as ([σ3 nps] & E3 & E1).
    injection E1 as <- <-. by eapply Hf.
Qed.

End loops.

(** ** The branch of an [If] *)

Section branches.
Context {LockOrder : Type}.
Variable Instrs : nat → list Instruction.
Variable Succs Preds : nat → list nat.
Variable walkBlock :
  PathStateSet.t → PathState.t → LockSetSet.t → state.t LockOrder →
  Res (PathStateSet.t * LockSetSet.t * state.t LockOrder).

Lemma succState_block b ifCond ps i b2 :
  PathState.block (succState Instrs Preds b ifCond ps i b2) = Some b2.
Proof. unfold succState. by destruct ifCond. Qed.

Lemma visitSuccs_one b ifCond ps ps2 cache exit s :
  succStates Instrs Succs Preds b ifCond ps = Done [ps2] →
  visitSuccs Instrs Succs Preds walkBlock b ifCond (cache, exit, s) ps
    = walkBlock cache ps2 exit s.
Proof.
  intros E. unfold visitSuccs. rewrite E. simpl.
  by destruct (walkBlock cache ps2 exit s) as [[[? ?] ?]| |].
Qed.

End branches.

(** C9.  When the condition of the [If] that ends a block has a known
    boolean value in the path state, [walkBlock] enters one successor only:
    the first for true, the second for false. *)
Theorem known_condition_takes_one_edge
    {LockOrder : Type} (Instrs : nat → list Instruction)
    (Succs Preds : nat → list nat)
    (walkBlock :
       PathStateSet.t → PathState.t → LockSetSet.t → state.t LockOrder →
       Res (PathStateSet.t * LockSetSet.t * state.t LockOrder))
    (b cond t e : nat) (x : bool) (ps : PathState.t)
    (cache : PathStateSet.t) (exit : LockSetSet.t) (s : state.t LockOrder) :
  Succs b = [t; e] →
  ValState.Get (PathState.vs ps) cond
    = Some (ValState.DynConst (ValState.MakeBool x)) →
  ∃ ps2,
    succStates Instrs Succs Preds b (Some cond) ps = Done [ps2] ∧
    PathState.block ps2 = Some (if x then t else e) ∧
    visitSuccs Instrs Succs Preds walkBlock b (Some cond) (cache, exit, s) ps
      = walkBlock cache ps2 exit s.
Proof.
  intros Hsuccs Hget.
  exists (succState Instrs Preds b (Some cond) ps 0 (if x then t else e)).
  assert (succStates Instrs Succs Preds b (Some cond) ps
          = Done [succState Instrs Preds b (Some cond) ps 0
                    (if x then t else e)]) as E.
  { unfold succStates, takenSuccs. rewrite Hget, Hsuccs. by destruct x. }
  split; [exact E|]. split; [apply succState_block|].
  by apply visitSuccs_one.
Qed.

Lemma known_condition_takes_one_edge_witness :
  ∃ ps2,
    succStates Examples.Instrs Examples.Succs Examples.Preds 0 (Some 7)
      (Examples.at0 (Some false)) = Done [ps2] ∧
    PathState.block ps2 = Some 2 ∧
    visitSuccs Examples.Instrs Examples.Succs Examples.Preds
      (Examples.walkBlock 2) 0 (Some 7)
      (PathStateSet.NewPathStateSet, LockSetSet.NewLockSetSet, Examples.s0)
      (Examples.at0 (Some false))
    = Examples.walkBlock 2 PathStateSet.NewPathStateSet ps2
        LockSetSet.NewLockSetSet Examples.s0.
Proof.
  apply (known_condition_takes_one_edge Examples.Instrs Examples.Succs
           Examples.Preds (Examples.walkBlock 2) 0 7 1 2 false
           (Examples.at0 (Some false))).
  - reflexivity.
  - reflexivity.
Defined.

(** C2.  On the false edge of a condition whose value is known,
    [walkBlock] binds the condition to true: with [t7] known to be false at
    the end of block 0, the only path state it builds enters block 2, the
    second successor, and has [t7] bound to true; the walk from block 0
    leaves that state, and no state of block 1, in the block cache. *)
Theorem false_edge_binds_condition_to_true :
  (∃ ps2,
     succStates Examples.Instrs Examples.Succs Examples.Preds 0 (Some 7)
       (Examples.at0 (Some false)) = Done [ps2] ∧
     PathState.block ps2 = Some 2 ∧
     ValState.Get (PathState.vs ps2) 7
       = Some (ValState.DynConst (ValState.MakeBool true))) ∧
  (∃ cache exit s ps2,
     Examples.walkBlock 3 PathStateSet.NewPathStateSet
       (Examples.at0 (Some false)) LockSetSet.NewLockSetSet Examples.s0
       = Done (cache, exit, s) ∧
     PathStateSet.bucket cache (Some 2, 0%N) = [ps2] ∧
     ValState.Get (PathState.vs ps2) 7
       = Some (ValState.DynConst (ValState.MakeBool true)) ∧
     PathStateSet.bucket cache (Some 1, 0%N) = []).
Proof.
  split.
  - eexists. vm_compute. repeat split.
  - do 4 eexists. vm_compute. repeat split.
Qed.

(** ** The explosion guard *)

Section guard.
Context {LockOrder : Type}.
Variable Blocks : nat → list nat.
Variable Instrs : nat → list Instruction.
Variable Succs Preds : nat → list nat.
Variable Parent Index : nat → nat.
Variable String Name : nat → string.
Variable Pos : nat → nat.
Variable cgOut : nat → option (list (nat * nat)).
Variable runtime : runtimeFns.
Variable livenessFor : nat → list Instruction → list (gset nat).
Variable Do : ValState.t → Instruction → ValState.t.
Variable callHandlers :
  string →
  option (state.t LockOrder → PathState.t → Instruction →
          list PathState.t → state.t LockOrder * list PathState.t).

Let walkB :=
  walkBlock Blocks Instrs Succs Preds Parent Index String Name Pos cgOut
    runtime livenessFor Do callHandlers.
Let walkF :=
  walkFunction Blocks Instrs Succs Preds Parent Index String Name Pos cgOut
    runtime livenessFor Do callHandlers.

Lemma walkBlock_S n cache ps exit s :
  walkB (S n) cache ps exit s =
    walkBlockBody Instrs Succs Preds Parent Index String Name Pos cgOut
      runtime Do callHandlers (walkF n) (walkB n) cache ps exit s.
Proof. reflexivity. Qed.

Lemma walkFunction_S n f ps s :
  walkF (S n) f ps s =
    walkFunctionBody Blocks Instrs Pos livenessFor (walkB n) f ps s.
Proof. reflexivity. Qed.

Lemma bucket_Add set ps key :
  PathStateSet.bucket (PathStateSet.Add set ps) key =
    if existsb (λ e, PathState.Equal e ps)
         (PathStateSet.bucket set (PathState.HashKey ps))
    then PathStateSet.bucket set key
    else if decide (PathState.HashKey ps = key)
         then PathStateSet.bucket set key ++ [ps]
         else PathStateSet.bucket set key.
Proof.
  unfold PathStateSet.Add.
  destruct (existsb _ _); [done|].
  unfold PathStateSet.bucket at 1. simpl.
  destruct (decide (PathState.HashKey ps = key)) as [<-|Hne].
  - by rewrite lookup_insert_eq.
  - by rewrite lookup_insert_ne.
Qed.

Lemma bounded_empty k : bounded k PathStateSet.NewPathStateSet.
Proof.
  intros key. unfold PathStateSet.bucket. simpl. rewrite lookup_empty.
  simpl. lia.
Qed.

Lemma bounded_Add set ps :
  bounded 11 set →
  length (PathStateSet.bucket set (PathState.HashKey ps)) ≤ 10 →
  bounded 11 (PathStateSet.Add set ps).
Proof.
  intros Hb Hlen key. rewrite bucket_Add.
  destruct (existsb _ _); [apply Hb|].
  destruct (decide _) as [<-|]; [|apply Hb].
  rewrite length_app. simpl. lia.
Qed.

Lemma walkBlockBody_bounded
    (wf : nat → PathState.t → state.t LockOrder →
          Res (LockSetSet.t * state.t LockOrder))
    (wb : PathStateSet.t → PathState.t → LockSetSet.t → state.t LockOrder →
          Res (PathStateSet.t * LockSetSet.t * state.t LockOrder)) :
  (∀ cache ps exit s cache' exit' s',
     bounded 11 cache → wb cache ps exit s = Done (cache', exit', s') →
     bounded 11 cache') →
  ∀ cache ps exit s cache' exit' s',
    bounded 11 cache →
    walkBlockBody Instrs Succs Preds Parent Index String Name Pos cgOut
      runtime Do callHandlers wf wb cache ps exit s
      = Done (cache', exit', s') →
    bounded 11 cache'.
Proof.
  intros Hwb cache ps exit s cache' exit' s' Hb E.
  unfold walkBlockBody in E.
  destruct (PathState.block ps) as [b|]; [|done].
  destruct (state.fns s !! Parent b) as [fInfo|]; [|done].
  destruct (ifDeps fInfo !! Index b) as [mask|]; [|done].
  unfold PathStateSet.Contains in E.
  destruct (existsb _ _) eqn:Ecached; [by injection E as <- _ _|].
  destruct (10 <? _) eqn:Esim; [by injection E as <- _ _|].
  apply Nat.ltb_ge in Esim.
  unfold walkInstrs in E.
  apply bind_Done_inv in E as ([[[pathStates ifCond] exit1] s1] & _ & E).
  revert E.
  apply (ForEach_inv
           (λ acc : PathStateSet.t * LockSetSet.t * state.t LockOrder,
              bounded 11 acc.1.1)
           (visitSuccs Instrs Succs Preds wb b ifCond)
           pathStates _ (cache', exit', s')).
  - intros [[c1 e1] t1] ps1 [[c2 e2] t2] H1 E1. simpl in *.
    unfold visitSuccs in E1.
    apply bind_Done_inv in E1 as (pss & _ & E1). revert E1.
    apply (forEachM_inv
             (λ acc : PathStateSet.t * LockSetSet.t * state.t LockOrder,
                bounded 11 acc.1.1)); [|exact H1].
    intros [[c3 e3] t3] ps3 [[c4 e4] t4] H3 E3. simpl in *. eauto.
  - simpl. by apply bounded_Add.
Qed.

Lemma walkBlock_bounded n : ∀ cache ps exit s cache' exit' s',
  bounded 11 cache → walkB n cache ps exit s = Done (cache', exit', s') →
  bounded 11 cache'.
Proof.
  induction n as [|n IH]; intros cache ps exit s cache' exit' s' Hb E.
  - done.
  - rewrite walkBlock_S in E.
    eapply walkBlockBody_bounded; [exact IH|exact Hb|exact E].
Qed.

Lemma walkBlock_trims n cache ps exit s b fInfo mask k :
  PathState.block ps = Some b →
  state.fns s !! Parent b = Some fInfo →
  ifDeps fInfo !! Index b = Some mask →
  PathStateSet.Contains cache (PathState.withMask mask ps) = (false, k) →
  10 < k →
  walkB (S n) cache ps exit s
    = Done (cache, exit, state.warnl s (TooManyStates b (Index b))).
Proof.
  intros Eb Ef Em Ec Hk. rewrite walkBlock_S. unfold walkBlockBody.
  rewrite Eb, Ef, Em, Ec.
  apply Nat.ltb_lt in Hk. by rewrite Hk.
Qed.

End guard.

(** C4, as the code has it.  When the entry path state is not in the block
    cache and its bucket already holds more than 10 path states, [walkBlock]
    warns "too many states, trimming path" and returns with the cache and
    the exit lock sets as they were, without a visit of any successor;
    a bucket that holds 10 still takes the state, so no bucket of the block
    cache ever holds more than 11 path states. *)
Theorem explosion_guard_bounds_buckets_by_eleven
    {LockOrder : Type} (Blocks : nat → list nat)
    (Instrs : nat → list Instruction) (Succs Preds : nat → list nat)
    (Parent Index : nat → nat) (String Name : nat → string)
    (Pos : nat → nat) (cgOut : nat → option (list (nat * nat)))
    (runtime : runtimeFns)
    (livenessFor : nat → list Instruction → list (gset nat))
    (Do : ValState.t → Instruction → ValState.t)
    (callHandlers :
       string →
       option (state.t LockOrder → PathState.t → Instruction →
               list PathState.t → state.t LockOrder * list PathState.t)) :
  (∀ n cache ps exit s b fInfo mask k,
     PathState.block ps = Some b →
     state.fns s !! Parent b = Some fInfo →
     ifDeps fInfo !! Index b = Some mask →
     PathStateSet.Contains cache (PathState.withMask mask ps) = (false, k) →
     10 < k →
     walkBlock Blocks Instrs Succs Preds Parent Index String Name Pos cgOut
       runtime livenessFor Do callHandlers (S n) cache ps exit s
     = Done (cache, exit, state.warnl s (TooManyStates b (Index b)))) ∧
  (∀ n cache ps exit s cache' exit' s',
     bounded 11 cache →
     walkBlock Blocks Instrs Succs Preds Parent Index String Name Pos cgOut
       runtime livenessFor Do callHandlers n cache ps exit s
     = Done (cache', exit', s') →
     bounded 11 cache').
Proof.
  split.
  - intros. by eapply walkBlock_trims.
  - intros. by eapply walkBlock_bounded.
Qed.

Lemma explosion_guard_bounds_buckets_by_eleven_witness :
  Examples.walkBlock 1 (Examples.cacheOf 11) (Examples.at1 11)
    LockSetSet.NewLockSetSet Examples.s0
  = Done (Examples.cacheOf 11, LockSetSet.NewLockSetSet,
          state.warnl Examples.s0 (TooManyStates 1 1)) ∧
  match Examples.walkBlock 2 PathStateSet.NewPathStateSet (Examples.at1 0)
          LockSetSet.NewLockSetSet Examples.s0 with
  | Done (cache', _, _) => bounded 11 cache'
  | _ => True
  end.
Proof.
  split.
  - apply (proj1 (explosion_guard_bounds_buckets_by_eleven
                    Examples.Blocks Examples.Instrs Examples.Succs
                    Examples.Preds Examples.Parent Examples.Index
                    Examples.String Examples.String Examples.Pos
                    Examples.cgOut Examples.runtime Examples.livenessFor
                    Examples.Do Examples.callHandlers)
             0 (Examples.cacheOf 11) (Examples.at1 11)
             LockSetSet.NewLockSetSet Examples.s0 1
             (mkInfo PathStateMap.NewPathStateMap (Examples.livenessFor 0 []))
             ∅ 11).
    + reflexivity.
    + reflexivity.
    + reflexivity.
    + vm_compute. reflexivity.
    + lia.
  - destruct (Examples.walkBlock 2 PathStateSet.NewPathStateSet
                (Examples.at1 0) LockSetSet.NewLockSetSet Examples.s0)
      as [[[cache' exit'] s']| |] eqn:E; [|exact I..].
    apply (proj2 (explosion_guard_bounds_buckets_by_eleven
                    Examples.Blocks Examples.Instrs Examples.Succs
                    Examples.Preds Examples.Parent Examples.Index
                    Examples.String Examples.String Examples.Pos
                    Examples.cgOut Examples.runtime Examples.livenessFor
                    Examples.Do Examples.callHandlers)
             2 PathStateSet.NewPathStateSet (Examples.at1 0)
             LockSetSet.NewLockSetSet Examples.s0 cache' exit' s').
    + apply bounded_empty.
    + exact E.
Defined.

(** C4, as stated, fails: with 10 path states in the bucket of the entry
    path state, which is not among them, [walkBlock] does not warn and adds
    the state; the bucket then holds 11. *)
Lemma bucket_of_ten_takes_an_eleventh :
  PathStateSet.Contains (Examples.cacheOf 10) (Examples.at1 10) = (false, 10) ∧
  ∃ cache' exit' s',
    Examples.walkBlock 2 (Examples.cacheOf 10) (Examples.at1 10)
      LockSetSet.NewLockSetSet Examples.s0 = Done (cache', exit', s') ∧
    length (PathStateSet.bucket cache' (Some 1, 1%N)) = 11 ∧
    state.warnings s' = [].
Proof.
  split; [vm_compute; reflexivity|].
  do 3 eexists. vm_compute. repeat split.
Qed.

(** ** Equality of path states *)

Section equality.

Lemma LockSet_Equal_true a b :
  LockSet.Equal a b = true ↔
  LockSet.sp a = LockSet.sp b ∧ LockSet.bits a = LockSet.bits b ∧
  ∀ k v, LockSet.stacks a !! k = Some v → LockSet.stackAt b k = v.
Proof.
  unfold LockSet.Equal.
  destruct (LockSet.sp a =? LockSet.sp b) eqn:Esp; simpl.
  - apply Nat.eqb_eq in Esp.
    destruct (LockSet.bits a =? LockSet.bits b)%N eqn:Eb; simpl.
    + apply N.eqb_eq in Eb. rewrite bool_decide_eq_true.
      unfold map_Forall. intuition.
    + apply N.eqb_neq in Eb. split; [done|]. intuition.
  - apply Nat.eqb_neq in Esp. split; [done|]. intuition.
Qed.

Lemma LockSet_Equal_refl a : LockSet.Equal a a = true.
Proof.
  apply LockSet_Equal_true. repeat apply conj; try done.
  intros k v E. unfold LockSet.stackAt. by rewrite E.
Qed.

Lemma Bit_of_bits a b k :
  LockSet.bits a = LockSet.bits b → LockSet.Bit a k = LockSet.Bit b k.
Proof. unfold LockSet.Bit. by intros ->. Qed.

Lemma LockSet_Equal_flip a b :
  LockSet.integral a → LockSet.integral b →
  LockSet.Equal a b = true → LockSet.Equal b a = true.
Proof.
  intros Ha Hb E. apply LockSet_Equal_true in E as (Esp & Ebits & Est).
  apply LockSet_Equal_true. repeat apply conj; try done.
  intros k v Ek.
  assert (is_Some (LockSet.stacks a !! k)) as [v' Ek'].
  { apply Ha. rewrite (Bit_of_bits a b k Ebits). apply Hb. eauto. }
  specialize (Est k v' Ek'). unfold LockSet.stackAt in *.
  rewrite Ek in Est. rewrite Ek'. simpl in *. done.
Qed.

Lemma LockSet_Equal_sym a b :
  LockSet.integral a → LockSet.integral b →
  LockSet.Equal a b = LockSet.Equal b a.
Proof.
  intros Ha Hb.
  destruct (LockSet.Equal a b) eqn:E1, (LockSet.Equal b a) eqn:E2; try done.
  - by rewrite (LockSet_Equal_flip a b Ha Hb E1) in E2.
  - by rewrite (LockSet_Equal_flip b a Hb Ha E2) in E1.
Qed.

Lemma EqualAt_sym v1 v2 mask :
  ValState.EqualAt v1 v2 mask = ValState.EqualAt v2 v1 mask.
Proof.
  unfold ValState.EqualAt. f_equal; apply bool_decide_ext.
  - unfold set_Forall. split; intros H x Hx; symmetry; by apply H.
  - split; by intros ->.
Qed.

Lemma EqualAt_refl v mask : ValState.EqualAt v v mask = true.
Proof.
  unfold ValState.EqualAt. apply andb_true_iff.
  split; apply bool_decide_eq_true_2; [|done]. by intros x Hx.
Qed.

Lemma PathState_Equal_refl ps : PathState.Equal ps ps = true.
Proof.
  unfold PathState.Equal.
  by rewrite bool_decide_eq_true_2, LockSet_Equal_refl, EqualAt_refl.
Qed.

(** [Equal] is symmetric on regular path states, as the comment in
    [PathState.Equal] says. *)
Lemma PathState_Equal_sym D a b :
  regular D a → regular D b → PathState.Equal a b = PathState.Equal b a.
Proof.
  intros [Ha Ma] [Hb Mb]. unfold PathState.Equal.
  destruct (decide (PathState.block a = PathState.block b)) as [E|E].
  - rewrite !bool_decide_eq_true_2 by done. simpl.
    rewrite (LockSet_Equal_sym _ _ Ha Hb), EqualAt_sym.
    by rewrite Ma, Mb, E.
  - rewrite !bool_decide_eq_false_2 by done. done.
Qed.

Lemma PathState_Equal_HashKey a b :
  PathState.Equal a b = true → PathState.HashKey a = PathState.HashKey b.
Proof.
  unfold PathState.Equal, PathState.HashKey, LockSet.HashKey.
  rewrite !andb_true_iff, bool_decide_eq_true. intros [[Eb El] _].
  apply LockSet_Equal_true in El as (_ & Ebits & _). congruence.
Qed.

(** Two lock sets [Equal] to a third one are [Equal]. *)
Lemma LockSet_Equal_join a b c :
  LockSet.integral a → LockSet.integral b →
  LockSet.Equal a c = true → LockSet.Equal b c = true →
  LockSet.Equal a b = true.
Proof.
  intros Ha Hb E1 E2.
  apply LockSet_Equal_true in E1 as (S1 & B1 & T1).
  apply LockSet_Equal_true in E2 as (S2 & B2 & T2).
  apply LockSet_Equal_true. repeat apply conj; try congruence.
  intros k v Ek.
  assert (is_Some (LockSet.stacks b !! k)) as [v' Ek'].
  { apply Hb. rewrite (Bit_of_bits b a k) by congruence. apply Ha. eauto. }
  specialize (T1 k v Ek). specialize (T2 k v' Ek').
  unfold LockSet.stackAt. rewrite Ek'. simpl. congruence.
Qed.

Lemma PathState_Equal_join a b c :
  regular (λ _, ∅) a → regular (λ _, ∅) b →
  PathState.Equal a c = true → PathState.Equal b c = true →
  PathState.Equal a b = true.
Proof.
  intros [Ha Ma] [Hb Mb]. unfold PathState.Equal.
  rewrite !andb_true_iff, !bool_decide_eq_true.
  intros [[B1 L1] V1] [[B2 L2] V2].
  repeat apply conj.
  - congruence.
  - by eapply LockSet_Equal_join.
  - rewrite Ma in *. rewrite Mb in V2. unfold ValState.EqualAt in *.
    apply andb_true_iff in V1 as [_ H1]. apply andb_true_iff in V2 as [_ H2].
    apply bool_decide_eq_true in H1. apply bool_decide_eq_true in H2.
    apply andb_true_iff. split; apply bool_decide_eq_true_2.
    + intros x Hx. by apply elem_of_empty in Hx.
    + congruence.
Qed.

End equality.

(** ** Set semantics of [PathStateSet] *)

Section set_semantics.
Variable D : option nat → gset nat.

Lemma proper_mapOK set : proper D set ↔ mapOK D (PathStateSet.m set).
Proof.
  split.
  - intros [Hd Hr] key slice E. split.
    + intros ps Hps. split; [by eapply distinct_key|].
      apply Hr. by exists key, slice.
    + intros i j a b. by eapply distinct_pair.
  - intros H. split; [split|].
    + intros key slice ps E Hps. by apply (H key slice E).
    + intros key slice i j a b E. by apply (H key slice E).
    + intros ps (key & slice & E & Hps). by apply (H key slice E).
Qed.

Lemma bucketOK_nil key : bucketOK D key [].
Proof.
  split.
  - intros ps Hps. by apply elem_of_nil in Hps.
  - intros i j a b E. by rewrite lookup_nil in E.
Qed.

Lemma existsb_false_lookup {A} (p : A → bool) l i x :
  existsb p l = false → l !! i = Some x → p x = false.
Proof.
  intros E Hx. destruct (p x) eqn:Ep; [|done].
  assert (existsb p l = true) as X; [|congruence].
  apply existsb_exists. exists x. split; [|done].
  apply list_elem_of_In. by eapply list_elem_of_lookup_2.
Qed.

Lemma bucketOK_snoc key slice ps :
  bucketOK D key slice → PathState.HashKey ps = key → regular D ps →
  existsb (λ e, PathState.Equal e ps) slice = false →
  bucketOK D key (slice ++ [ps]).
Proof.
  intros [Hel Hpair] Hkey Hreg Hex. split.
  - intros x Hx. apply elem_of_app in Hx as [Hx|Hx]; [by apply Hel|].
    apply list_elem_of_singleton in Hx as ->. done.
  - intros i j a b Ea Eb Hij.
    apply lookup_snoc_Some in Ea as [[Hi Ea]|[Hi <-]];
      apply lookup_snoc_Some in Eb as [[Hj Eb]|[Hj <-]].
    + eauto.
    + exact (existsb_false_lookup (λ e, PathState.Equal e ps) slice i a Hex Ea).
    + rewrite (PathState_Equal_sym D); [|done|].
      * exact (existsb_false_lookup (λ e, PathState.Equal e ps) slice j b Hex Eb).
      * apply Hel. by eapply list_elem_of_lookup_2.
    + lia.
Qed.

(** The removal of [slice[i]] in [MapInPlace]: the last element takes its
    place. *)
Lemma swap_remove_lookup (slice : list PathState.t) i ps j a :
  slice !! i = Some ps →
  take (length slice - 1) (<[i := default ps (last slice)]> slice) !! j
    = Some a →
  j < length slice - 1 ∧
  slice !! (if decide (j = i) then length slice - 1 else j) = Some a.
Proof.
  intros Ei E. apply lookup_take_Some in E as [E Hj]. split; [done|].
  pose proof (lookup_lt_Some _ _ _ Ei) as Hi.
  destruct (decide (j = i)) as [->|Hne].
  - rewrite list_lookup_insert_eq in E by done. injection E as <-.
    rewrite last_lookup. replace (pred (length slice)) with (length slice - 1) by lia.
    destruct (slice !! (length slice - 1)) eqn:El; [done|].
    apply lookup_ge_None in El. lia.
  - by rewrite list_lookup_insert_ne in E.
Qed.

Lemma bucketOK_swap_remove key slice i ps :
  bucketOK D key slice → slice !! i = Some ps →
  bucketOK D key
    (take (length slice - 1) (<[i := default ps (last slice)]> slice)).
Proof.
  intros [Hel Hpair] Ei. split.
  - intros x Hx. apply list_elem_of_lookup in Hx as [j Hj].
    apply (swap_remove_lookup slice i ps j x Ei) in Hj as [_ Hj].
    apply Hel. by eapply list_elem_of_lookup_2.
  - intros j1 j2 a b Ea Eb Hne.
    apply (swap_remove_lookup slice i ps j1 a Ei) in Ea as [H1 Ea].
    apply (swap_remove_lookup slice i ps j2 b Ei) in Eb as [H2 Eb].
    eapply Hpair; [exact Ea|exact Eb|].
    repeat case_decide; lia.
Qed.

Lemma mapOK_insert m key slice :
  mapOK D m → bucketOK D key slice → mapOK D (<[key := slice]> m).
Proof.
  intros Hm Hs k sl E. destruct (decide (key = k)) as [<-|Hne].
  - rewrite lookup_insert_eq in E. by injection E as <-.
  - rewrite lookup_insert_ne in E by done. by apply Hm.
Qed.

Lemma mapOK_delete m key : mapOK D m → mapOK D (delete key m).
Proof.
  intros Hm k sl E. apply lookup_delete_Some in E as [_ E]. by apply Hm.
Qed.

Lemma mapOK_bucket m key :
  mapOK D m → bucketOK D key (default [] (m !! key)).
Proof.
  intros Hm. destruct (m !! key) as [sl|] eqn:E; simpl.
  - by apply Hm.
  - apply bucketOK_nil.
Qed.

Lemma proper_empty : proper D PathStateSet.NewPathStateSet.
Proof.
  apply proper_mapOK. intros key slice E.
  change (PathStateSet.m PathStateSet.NewPathStateSet)
    with (∅ : gmap (option nat * N) (list PathState.t)) in E.
  by rewrite lookup_empty in E.
Qed.

Lemma proper_Add set ps :
  proper D set → regular D ps → proper D (PathStateSet.Add set ps).
Proof.
  intros Hset Hps. unfold PathStateSet.Add.
  destruct (existsb _ _) eqn:Ex; [done|].
  apply proper_mapOK. simpl. apply proper_mapOK in Hset.
  apply mapOK_insert; [done|].
  apply bucketOK_snoc; auto. by apply mapOK_bucket.
Qed.

Lemma proper_Add_all l : ∀ set,
  proper D set → Forall (regular D) l →
  proper D (fold_left PathStateSet.Add l set).
Proof.
  induction l as [|ps l IH]; intros set Hset Hl; simpl; [done|].
  inversion Hl; subst. apply IH; [|done]. by apply proper_Add.
Qed.

(** [Add] of a path state [Equal] to a stored one changes nothing. *)
Lemma Add_Equal_stored set ps e :
  distinct set → PathStateSet.stored set e → PathState.Equal e ps = true →
  PathStateSet.Add set ps = set.
Proof.
  intros Hd (key & slice & E & He) Heq. unfold PathStateSet.Add.
  assert (PathState.HashKey ps = key) as Hk.
  { rewrite <- (PathState_Equal_HashKey e ps Heq). by eapply distinct_key. }
  unfold PathStateSet.bucket. rewrite Hk, E. simpl.
  assert (existsb (λ e0, PathState.Equal e0 ps) slice = true) as ->; [|done].
  apply existsb_exists. exists e. split; [|done]. by apply list_elem_of_In.
Qed.

End set_semantics.

Section set_transforms.
Variable D : option nat → gset nat.
Context {St : Type}.

Lemma sweep_proper (f : St → PathState.t → St * PathState.t) key n :
  (∀ σ ps, regular D ps → regular D (f σ ps).2) →
  ∀ slice i σ m toAdd σ' m' toAdd',
    mapOK D m → bucketOK D key slice → Forall (regular D) toAdd →
    PathStateSet.sweep f n key (σ, m, toAdd) slice i = (σ', m', toAdd') →
    mapOK D m' ∧ Forall (regular D) toAdd' ∧
    ∀ k, k ≠ key → m' !! k = m !! k.
Proof.
  intros Hf. induction n as [|n IH];
    intros slice i σ m toAdd σ' m' toAdd' Hm Hs Ht E; simpl in E.
  { injection E as <- <- <-. done. }
  destruct (slice !! i) as [ps|] eqn:Ei; [|injection E as <- <- <-; done].
  pose proof (Hf σ ps) as Hreg.
  destruct (f σ ps) as [σ1 ps2]. simpl in Hreg.
  destruct (PathState.Equal ps ps2).
  { eapply IH; eauto. }
  assert (regular D ps2) as Hps2.
  { apply Hreg. apply Hs. by eapply list_elem_of_lookup_2. }
  pose proof (bucketOK_swap_remove D key slice i ps Hs Ei) as Hs'.
  remember (take (length slice - 1)
                 (<[i := default ps (last slice)]> slice)) as sl eqn:Esl.
  clear Esl.
  assert (Forall (regular D) (toAdd ++ [ps2])) as Ht'.
  { apply Forall_app. split; [done|]. by constructor. }
  destruct sl as [|x sl].
  - destruct (IH _ _ _ _ _ _ _ _ (mapOK_delete D m key Hm) Hs' Ht' E)
      as (H1 & H2 & H3).
    repeat apply conj; try done.
    intros k Hk. rewrite H3 by done. by rewrite lookup_delete_ne.
  - destruct (IH _ _ _ _ _ _ _ _ (mapOK_insert D m key _ Hm Hs') Hs' Ht' E)
      as (H1 & H2 & H3).
    repeat apply conj; try done.
    intros k Hk. rewrite H3 by done. by rewrite lookup_insert_ne.
Qed.

Lemma proper_MapInPlace (f : St → PathState.t → St * PathState.t) σ set :
  (∀ σ ps, regular D ps → regular D (f σ ps).2) →
  proper D set → proper D (PathStateSet.MapInPlace f σ set).2.
Proof.
  intros Hf Hset. apply proper_mapOK in Hset.
  unfold PathStateSet.MapInPlace.
  set (m0 := PathStateSet.m set) in *.
  assert (∀ mp, mp ⊆ m0 →
            let r := map_fold
                       (λ hashKey slice acc,
                          PathStateSet.sweep f (length slice) hashKey acc
                            slice 0)
                       (σ, m0, []) mp in
            mapOK D r.1.2 ∧ Forall (regular D) r.2 ∧
            ∀ k, mp !! k = None → r.1.2 !! k = m0 !! k) as H.
  { intros mp.
    apply (map_fold_weak_ind
             (λ (r : St * gmap (option nat * N) (list PathState.t)
                     * list PathState.t) mp,
                mp ⊆ m0 →
                mapOK D r.1.2 ∧ Forall (regular D) r.2 ∧
                ∀ k, mp !! k = None → r.1.2 !! k = m0 !! k)).
    - intros _. simpl. repeat apply conj; done.
    - intros i x m [[σ1 m1] t1] Hi IH Hsub.
      assert (m ⊆ m0) as Hsub'.
      { etrans; [|exact Hsub]. by apply insert_subseteq. }
      destruct (IH Hsub') as (H1 & H2 & H3). simpl in *.
      assert (m0 !! i = Some x) as Hx.
      { eapply lookup_weaken; [|exact Hsub]. apply lookup_insert_eq. }
      destruct (PathStateSet.sweep f (length x) i (σ1, m1, t1) x 0)
        as [[σ2 m2] t2] eqn:E.
      destruct (sweep_proper f i (length x) Hf _ _ _ _ _ _ _ _
                  H1 (Hset i x Hx) H2 E) as (G1 & G2 & G3).
      simpl. repeat apply conj; try done.
      intros k Hk. apply lookup_insert_None in Hk as [Hk Hne].
      rewrite G3 by done. by apply H3. }
  specialize (H m0 (reflexivity _)). simpl in H.
  destruct (map_fold _ _ m0) as [[σ' m'] toAdd]. simpl in *.
  destruct H as (H1 & H2 & _).
  apply proper_Add_all; [|done]. by apply proper_mapOK.
Qed.

Lemma proper_FlatMap (f : St → PathState.t → Res (St * list PathState.t))
    σ set σ' out :
  (∀ σ ps σ' l, f σ ps = Done (σ', l) → Forall (regular D) l) →
  PathStateSet.FlatMap f σ set = Done (σ', out) → proper D out.
Proof.
  intros Hf E.
  enough (∀ a, PathStateSet.FlatMap f σ set = Done a → proper D a.2) as H
    by exact (H (σ', out) E).
  clear E. unfold PathStateSet.FlatMap.
  apply (map_fold_weak_ind
           (λ r (_ : gmap (option nat * N) (list PathState.t)),
              ∀ a : St * PathStateSet.t, r = Done a → proper D a.2)).
  - intros a [= <-]. apply proper_empty.
  - intros key slice m r _ IH a E.
    apply bind_Done_inv in E as (acc & -> & E). revert E.
    apply (forEachM_inv (λ a : St * PathStateSet.t, proper D a.2));
      [|by apply IH].
    intros [σ1 out1] ps [σ2 out2] H1 E1. simpl in *.
    apply bind_Done_inv in E1 as ([σ3 nps] & E3 & E1).
    injection E1 as <- <-. apply proper_Add_all; [done|]. by eapply Hf.
Qed.

End set_transforms.

Section set_counts.
Variable D : option nat → gset nat.

Lemma proper_no_two_Equal set k1 s1 i a k2 s2 j b :
  proper D set →
  PathStateSet.m set !! k1 = Some s1 → s1 !! i = Some a →
  PathStateSet.m set !! k2 = Some s2 → s2 !! j = Some b →
  (k1, i) ≠ (k2, j) → PathState.Equal a b = false.
Proof.
  intros [Hd _] E1 Ea E2 Eb Hne.
  destruct (decide (k1 = k2)) as [<-|Hk].
  - assert (s2 = s1) as -> by congruence.
    apply (distinct_pair set Hd k1 s1 i j a b E1 Ea Eb). congruence.
  - destruct (PathState.Equal a b) eqn:E; [|done].
    apply PathState_Equal_HashKey in E.
    rewrite (distinct_key set Hd k1 s1 a E1) in E
      by (by eapply list_elem_of_lookup_2).
    rewrite (distinct_key set Hd k2 s2 b E2) in E
      by (by eapply list_elem_of_lookup_2).
    done.
Qed.

Lemma Contains_count set ps :
  proper D set →
  (PathStateSet.Contains set ps).2
    = length (PathStateSet.bucket set (PathState.HashKey ps)) ∧
  (∀ x, x ∈ PathStateSet.bucket set (PathState.HashKey ps) ↔
        PathStateSet.stored set x ∧
        PathState.HashKey x = PathState.HashKey ps) ∧
  (∀ i j a b,
     PathStateSet.bucket set (PathState.HashKey ps) !! i = Some a →
     PathStateSet.bucket set (PathState.HashKey ps) !! j = Some b →
     i ≠ j → PathState.Equal a b = false).
Proof.
  intros [Hd Hr]. split; [done|]. unfold PathStateSet.bucket.
  destruct (PathStateSet.m set !! PathState.HashKey ps) as [slice|] eqn:E;
    simpl.
  - split.
    + intros x. split.
      * intros Hx. split; [by exists (PathState.HashKey ps), slice|].
        by eapply distinct_key.
      * intros [(key & sl & Ek & Hx) Hk].
        rewrite <- Hk, (distinct_key set Hd key sl x Ek Hx) in E.
        congruence.
    + intros i j a b. by eapply distinct_pair.
  - split.
    + intros x. split; [by intros ?%elem_of_nil|].
      intros [(key & sl & Ek & Hx) Hk].
      rewrite <- Hk, (distinct_key set Hd key sl x Ek Hx) in E. congruence.
    + intros i j a b Ea. by rewrite lookup_nil in Ea.
Qed.

End set_counts.

(** C10.  On path states whose mask is the one of their block and whose
    lock set is integral, [PathStateSet] has set semantics under
    [PathState.Equal]: [Add] of a state [Equal] to a stored one changes
    nothing; the empty set holds no two [Equal] states and [Add],
    [MapInPlace] and [FlatMap] keep it so; and the count that [Contains]
    returns is the length of the bucket of the hash key, which lists the
    stored states of that hash key, no two of them [Equal]. *)
Theorem PathStateSet_keeps_set_semantics (D : option nat → gset nat) :
  proper D PathStateSet.NewPathStateSet ∧
  (∀ set ps e,
     proper D set → PathStateSet.stored set e →
     PathState.Equal e ps = true → PathStateSet.Add set ps = set) ∧
  (∀ set ps,
     proper D set → regular D ps → proper D (PathStateSet.Add set ps)) ∧
  (∀ (St : Type) (f : St → PathState.t → St * PathState.t) σ set,
     (∀ σ ps, regular D ps → regular D (f σ ps).2) →
     proper D set → proper D (PathStateSet.MapInPlace f σ set).2) ∧
  (∀ (St : Type) (f : St → PathState.t → Res (St * list PathState.t))
     σ set σ' out,
     (∀ σ ps σ' l, f σ ps = Done (σ', l) → Forall (regular D) l) →
     PathStateSet.FlatMap f σ set = Done (σ', out) → proper D out) ∧
  (∀ set k1 s1 i a k2 s2 j b,
     proper D set →
     PathStateSet.m set !! k1 = Some s1 → s1 !! i = Some a →
     PathStateSet.m set !! k2 = Some s2 → s2 !! j = Some b →
     (k1, i) ≠ (k2, j) → PathState.Equal a b = false) ∧
  (∀ set ps,
     proper D set →
     (PathStateSet.Contains set ps).2
       = length (PathStateSet.bucket set (PathState.HashKey ps)) ∧
     (∀ x, x ∈ PathStateSet.bucket set (PathState.HashKey ps) ↔
           PathStateSet.stored set x ∧
           PathState.HashKey x = PathState.HashKey ps) ∧
     (∀ i j a b,
        PathStateSet.bucket set (PathState.HashKey ps) !! i = Some a →
        PathStateSet.bucket set (PathState.HashKey ps) !! j = Some b →
        i ≠ j → PathState.Equal a b = false)).
Proof.
  split; [apply proper_empty|].
  split; [intros set ps e [Hd _]; by apply Add_Equal_stored|].
  split; [apply proper_Add|].
  split; [intros St f σ set; apply proper_MapInPlace|].
  split; [intros St f σ set σ' out; apply proper_FlatMap|].
  split; [intros set k1 s1 i a k2 s2 j b; apply proper_no_two_Equal|].
  intros set ps. apply Contains_count.
Qed.

Lemma PathStateSet_keeps_set_semantics_witness :
  proper Examples.maskOf
    (PathStateSet.MapInPlace (λ (_ : unit) ps, (tt, Examples.bindT0 ps)) tt
       Examples.twoStates).2.
Proof.
  destruct (PathStateSet_keeps_set_semantics Examples.maskOf)
    as (H1 & _ & H3 & H4 & _).
  apply H4.
  - intros _ ps [Hi Hm]. split; [exact Hi|exact Hm].
  - unfold Examples.twoStates.
    apply H3; [apply H3; [exact H1|]|];
      (split; [apply integral_new|reflexivity]).
Defined.

(** ** Memoization in [walkFunction] *)

Section memo_map.

Lemma find_app {A} (p : A → bool) l1 l2 :
  List.find p (l1 ++ l2) =
    match List.find p l1 with Some x => Some x | None => List.find p l2 end.
Proof.
  induction l1 as [|x l1 IH]; simpl; [done|]. by destruct (p x).
Qed.

Lemma setFirst_None key v slice :
  List.find (λ e, PathState.Equal (PathStateMap.ps e) key) slice = None →
  PathStateMap.setFirst key v slice = None.
Proof.
  induction slice as [|e slice IH]; simpl; [done|].
  destruct (PathState.Equal (PathStateMap.ps e) key); [done|].
  intros E. by rewrite IH.
Qed.

Lemma Get_None_find psm key :
  PathStateMap.Get psm key = None →
  List.find (λ e, PathState.Equal (PathStateMap.ps e) key)
    (default [] (PathStateMap.m psm !! PathState.HashKey key)) = None.
Proof.
  unfold PathStateMap.Get. by destruct (List.find _ _).
Qed.

(** A key that has no entry gets one at the end of its bucket. *)
Lemma Set_fresh psm key v :
  PathStateMap.Get psm key = None →
  PathStateMap.Set_ psm key v =
    PathStateMap.mk
      (<[PathState.HashKey key :=
           default [] (PathStateMap.m psm !! PathState.HashKey key)
           ++ [PathStateMap.mkEntry key v]]> (PathStateMap.m psm)).
Proof.
  intros E. unfold PathStateMap.Set_.
  by rewrite (setFirst_None key v _ (Get_None_find psm key E)).
Qed.

(** After [Set] of a fresh key, [Get] of an [Equal] key that had no entry
    either returns the value that was set. *)
Lemma Get_Set_fresh psm key v key2 :
  PathStateMap.Get psm key = None →
  PathStateMap.Get psm key2 = None →
  PathState.Equal key key2 = true →
  PathStateMap.Get (PathStateMap.Set_ psm key v) key2 = Some v.
Proof.
  intros E1 E2 Heq. rewrite Set_fresh by done.
  unfold PathStateMap.Get. simpl.
  rewrite <- (PathState_Equal_HashKey key key2 Heq), lookup_insert_eq. simpl.
  rewrite find_app.
  apply Get_None_find in E2.
  rewrite <- (PathState_Equal_HashKey key key2 Heq) in E2. rewrite E2.
  simpl. by rewrite Heq.
Qed.

Lemma setFirst_app_None key v l1 l2 :
  List.find (λ e, PathState.Equal (PathStateMap.ps e) key) l1 = None →
  PathStateMap.setFirst key v (l1 ++ l2)
    = (l1 ++.) <$> PathStateMap.setFirst key v l2.
Proof.
  induction l1 as [|e l1 IH]; simpl.
  - intros _. by destruct (PathStateMap.setFirst key v l2).
  - destruct (PathState.Equal (PathStateMap.ps e) key); [done|].
    intros E. rewrite IH by done.
    by destruct (PathStateMap.setFirst key v l2).
Qed.

Lemma psmKeeps_refl psm : psmKeeps psm psm.
Proof. by intros k. Qed.

Lemma psmKeeps_trans a b c : psmKeeps a b → psmKeeps b c → psmKeeps a c.
Proof. intros H1 H2 k. etrans; [apply H1|apply H2]. Qed.

(** [Set] of a key that had no entry in [psm0] keeps [psm0]. *)
Lemma psmKeeps_Set psm0 psm key v :
  psmKeeps psm0 psm → PathStateMap.Get psm0 key = None →
  psmKeeps psm0 (PathStateMap.Set_ psm key v).
Proof.
  intros Hk Eg k. specialize (Hk k).
  unfold PathStateMap.Set_.
  destruct (decide (PathState.HashKey key = k)) as [<-|Hne].
  - destruct Hk as [ext Hext]. rewrite Hext.
    rewrite (setFirst_app_None key v _ ext (Get_None_find psm0 key Eg)).
    destruct (PathStateMap.setFirst key v ext) as [ext'|]; simpl;
      rewrite lookup_insert_eq; simpl.
    + by apply prefix_app_r.
    + rewrite <- app_assoc. by apply prefix_app_r.
  - destruct (PathStateMap.setFirst key v _); simpl;
      by rewrite lookup_insert_ne.
Qed.

Lemma psmKeeps_Get psm psm' key v :
  psmKeeps psm psm' → PathStateMap.Get psm key = Some v →
  PathStateMap.Get psm' key = Some v.
Proof.
  intros Hk. unfold PathStateMap.Get.
  destruct (Hk (PathState.HashKey key)) as [ext ->].
  rewrite find_app. by destruct (List.find _ _).
Qed.

(** A key [Equal] to one without an entry has no entry either, in a cache
    of regular entry path states. *)
Lemma Get_None_Equal psm key key2 :
  (∀ k slice e, PathStateMap.m psm !! k = Some slice → e ∈ slice →
                regular (λ _, ∅) (PathStateMap.ps e)) →
  regular (λ _, ∅) key →
  PathState.Equal key key2 = true →
  PathStateMap.Get psm key = None → PathStateMap.Get psm key2 = None.
Proof.
  intros Hreg Hkey Heq E. apply Get_None_find in E.
  unfold PathStateMap.Get.
  rewrite <- (PathState_Equal_HashKey key key2 Heq).
  destruct (PathStateMap.m psm !! PathState.HashKey key) as [slice|] eqn:Em;
    [|done].
  simpl in *.
  destruct (List.find (λ e, PathState.Equal (PathStateMap.ps e) key2) slice)
    as [e|] eqn:Ef; [|done].
  exfalso. apply find_some in Ef as [Hin He].
  eapply find_none in E; [|exact Hin]. simpl in E.
  rewrite (PathState_Equal_join _ key key2) in E; try done.
  eapply Hreg; [exact Em|]. by apply list_elem_of_In.
Qed.

End memo_map.

Section memo.
Context {LockOrder : Type}.
Variable Blocks : nat → list nat.
Variable Instrs : nat → list Instruction.
Variable Succs Preds : nat → list nat.
Variable Parent Index : nat → nat.
Variable String Name : nat → string.
Variable Pos : nat → nat.
Variable cgOut : nat → option (list (nat * nat)).
Variable runtime : runtimeFns.
Variable livenessFor : nat → list Instruction → list (gset nat).
Variable Do : ValState.t → Instruction → ValState.t.
Variable callHandlers :
  string →
  option (state.t LockOrder → PathState.t → Instruction →
          list PathState.t → state.t LockOrder * list PathState.t).

Let walkB :=
  walkBlock Blocks Instrs Succs Preds Parent Index String Name Pos cgOut
    runtime livenessFor Do callHandlers.
Let walkF :=
  walkFunction Blocks Instrs Succs Preds Parent Index String Name Pos cgOut
    runtime livenessFor Do callHandlers.
Let visit := firstVisit (LockOrder := LockOrder) Blocks Instrs livenessFor.

Lemma firstVisit_known f (s : state.t LockOrder) fInfo :
  state.fns s !! f = Some fInfo → visit f s = s.
Proof. intros E. unfold visit, firstVisit. by rewrite E. Qed.

Lemma firstVisit_fns f (s : state.t LockOrder) :
  is_Some (state.fns (visit f s) !! f).
Proof.
  unfold visit, firstVisit. destruct (state.fns s !! f) eqn:E; [by rewrite E|].
  destruct (Blocks f); simpl; rewrite lookup_insert_eq; eauto.
Qed.

Lemma fns_setExit f ps v (s : state.t LockOrder) fInfo :
  state.fns s !! f = Some fInfo →
  state.fns (state.setExit f ps v s) !! f
    = Some (mkInfo (PathStateMap.Set_ (exitLockSets fInfo) ps v)
                   (ifDeps fInfo)).
Proof.
  intros E. unfold state.setExit. simpl. by rewrite lookup_alter_eq, E.
Qed.

Lemma walkFunction_hit n f ps s entry rest fInfo memo :
  Blocks f = entry :: rest →
  state.fns s !! f = Some fInfo →
  PathStateMap.Get (exitLockSets fInfo) ps = Some memo →
  walkF (S n) f ps s = Done (memo, s).
Proof.
  intros Eb Ef Eg. unfold walkF. cbn [walkFunction]. unfold walkFunctionBody.
  fold visit. rewrite (firstVisit_known f s fInfo Ef), Eb, Ef, Eg. done.
Qed.

Lemma walkFunction_miss n f ps s entry rest fInfo :
  Blocks f = entry :: rest →
  state.fns (visit f s) !! f = Some fInfo →
  PathStateMap.Get (exitLockSets fInfo) ps = None →
  walkF (S n) f ps s =
    ('(_, exit, s') ←
       walkB n PathStateSet.NewPathStateSet
         (PathState.mk (Some entry) (PathState.lockSet ps) (PathState.vs ps) ∅)
         LockSetSet.NewLockSetSet
         (state.setExit f ps (LockSetSet.mk ∅) (visit f s));
     Done (exit, state.setExit f ps exit s')).
Proof.
  intros Eb Ef Eg. unfold walkF. cbn [walkFunction]. unfold walkFunctionBody.
  fold visit. rewrite Eb, Ef, Eg. done.
Qed.

(** *** The walkers keep the memoized results *)

Lemma memoKeeps_refl (s : state.t LockOrder) : memoKeeps s s.
Proof. intros f fi E. exists fi. split; [done|apply psmKeeps_refl]. Qed.

Lemma memoKeeps_trans (a b c : state.t LockOrder) :
  memoKeeps a b → memoKeeps b c → memoKeeps a c.
Proof.
  intros H1 H2 f fi E. destruct (H1 f fi E) as (fi1 & E1 & K1).
  destruct (H2 f fi1 E1) as (fi2 & E2 & K2).
  exists fi2. split; [done|]. by eapply psmKeeps_trans.
Qed.

Lemma memoKeeps_fns (a b c : state.t LockOrder) :
  state.fns c = state.fns b → memoKeeps a b → memoKeeps a c.
Proof. intros E H f fi Ef. rewrite E. by apply H. Qed.

Lemma memoKeeps_firstVisit f (s : state.t LockOrder) :
  memoKeeps s (visit f s).
Proof.
  unfold visit, firstVisit.
  destruct (state.fns s !! f) eqn:E; [apply memoKeeps_refl|].
  intros g fi Eg. exists fi. split; [|apply psmKeeps_refl].
  destruct (Blocks f); simpl; rewrite lookup_insert_ne; congruence.
Qed.

(** [Set] of an entry path state that had no result in [s0] keeps the
    results of [s0]. *)
Lemma memoKeeps_setExit f ps v (s0 s : state.t LockOrder) fInfo :
  memoKeeps s0 s →
  state.fns s0 !! f = Some fInfo →
  PathStateMap.Get (exitLockSets fInfo) ps = None →
  memoKeeps s0 (state.setExit f ps v s).
Proof.
  intros Hk Ef Eg g fi Egf. destruct (Hk g fi Egf) as (fi' & E' & K).
  destruct (decide (f = g)) as [->|Hne].
  - rewrite (fns_setExit g ps v s fi' E'). eexists. split; [done|]. simpl.
    apply psmKeeps_Set; [done|]. congruence.
  - exists fi'. split; [|done]. unfold state.setExit. simpl.
    by rewrite lookup_alter_ne.
Qed.

Section keeps.
Variable s0 : state.t LockOrder.
Variable wf :
  nat → PathState.t → state.t LockOrder →
  Res (LockSetSet.t * state.t LockOrder).
Variable wb :
  PathStateSet.t → PathState.t → LockSetSet.t → state.t LockOrder →
  Res (PathStateSet.t * LockSetSet.t * state.t LockOrder).
Hypothesis handlers_keep : ∀ name h s ps instr l,
  callHandlers name = Some h → memoKeeps s (h s ps instr l).1.
Hypothesis wf_keeps : ∀ f ps s r s',
  wf f ps s = Done (r, s') → memoKeeps s s'.
Hypothesis wb_keeps : ∀ cache ps exit s cache' exit' s',
  wb cache ps exit s = Done (cache', exit', s') → memoKeeps s s'.

Lemma doCallBody_keeps instr fs s ps s' l :
  memoKeeps s0 s →
  doCallBody String callHandlers wf instr fs s ps = Done (s', l) →
  memoKeeps s0 s'.
Proof using handlers_keep wf_keeps.
  intros Hs E. unfold doCallBody in E.
  apply bind_Done_inv in E as ([[s1 ps1] l1] & E & E'). injection E' as <- <-.
  revert E.
  apply (forEachM_inv
           (λ acc : state.t LockOrder * PathState.t * list PathState.t,
              memoKeeps s0 acc.1.1)); [|exact Hs].
  intros [[s2 ps2] l2] fn [[s3 ps3] l3] H2 E2. simpl in *.
  destruct (callHandlers (String fn)) as [h|] eqn:Eh.
  - pose proof (handlers_keep _ h s2 ps2 instr l2 Eh) as Hh.
    destruct (h s2 ps2 instr l2) as [s4 l4]. injection E2 as <- _ _.
    by eapply memoKeeps_trans.
  - apply bind_Done_inv in E2 as ([lss s4] & E4 & E2).
    apply wf_keeps in E4.
    destruct (map_fold _ _ _) as [ps5 l5]. injection E2 as <- _ _.
    by eapply memoKeeps_trans.
Qed.

Lemma doCall_keeps instr fs pathStates s pathStates' s' :
  memoKeeps s0 s →
  doCall String callHandlers wf instr fs pathStates s
    = Done (pathStates', s') →
  memoKeeps s0 s'.
Proof using handlers_keep wf_keeps.
  intros Hs E. unfold doCall in E.
  apply bind_Done_inv in E as ([s1 pss1] & E1 & E).
  assert (memoKeeps s0 s1) as H1.
  { revert E1. apply (FlatMap_inv (memoKeeps s0)).
    - intros σ ps σ' l Hσ Eb. by eapply doCallBody_keeps.
    - eapply memoKeeps_fns; [|exact Hs]. done. }
  destruct (state.stack s1) as [a|]; [|done].
  destruct (StackFrame.cells (state.frames s1) !! a) as [c|]; [|done].
  injection E as _ <-. eapply memoKeeps_fns; [|exact H1]. done.
Qed.

Lemma callees_fns (s : state.t LockOrder) f instr c :
  state.fns (callees cgOut runtime s f instr c).1 = state.fns s.
Proof.
  unfold callees. destruct (Builtin c) as [[name str]|].
  - repeat case_bool_decide; try done. by destruct str.
  - destruct (StaticCallee c); [done|]. by destruct (cgOut f).
Qed.

Lemma addRoots_fns outs : ∀ s : state.t LockOrder,
  state.fns (fold_left state.addRoot outs s) = state.fns s.
Proof.
  induction outs as [|o outs IH]; intros s; simpl; [done|].
  rewrite IH. unfold state.addRoot. by case_bool_decide.
Qed.

Lemma instrStep_keeps f acc instr acc' :
  memoKeeps s0 acc.2 →
  instrStep String Name Pos cgOut runtime Do callHandlers wf f acc instr
    = Done acc' →
  memoKeeps s0 acc'.2.
Proof using handlers_keep wf_keeps.
  destruct acc as [[[pathStates ifCond] exit] s].
  destruct acc' as [[[pathStates' ifCond'] exit'] s'].
  simpl. intros Hs E. unfold instrStep in E.
  assert (∀ fs pss,
            ('(pathStates, s) ← doCall String callHandlers wf instr fs pss s;
             Done (pathStates, ifCond, exit, s))
            = Done (pathStates', ifCond', exit', s') →
            memoKeeps s0 s') as Hcall.
  { intros fs pss Ec. apply bind_Done_inv in Ec as ([p1 s1] & E1 & Ec).
    injection Ec as _ _ _ <-. by eapply doCall_keeps. }
  destruct (kind instr) as
    [cond|c|isMap CommaOk| | | | | | |c| |edges|];
    try (by eapply Hcall); try (by injection E as _ _ _ <-).
  - pose proof (callees_fns s f instr c) as Ec.
    destruct (callees cgOut runtime s f instr c) as [s1 outs]. simpl in Ec.
    assert (memoKeeps s0 s1) as H1 by (by eapply memoKeeps_fns).
    destruct outs as [|o outs].
    + by injection E as _ _ _ <-.
    + apply bind_Done_inv in E as ([p2 s2] & E2 & E).
      injection E as _ _ _ <-. by eapply doCall_keeps.
  - destruct (negb isMap); [by injection E as _ _ _ <-|].
    destruct CommaOk; by eapply Hcall.
  - pose proof (callees_fns s f instr c) as Ec.
    destruct (callees cgOut runtime s f instr c) as [s1 outs]. simpl in Ec.
    injection E as _ _ _ <-.
    eapply memoKeeps_fns; [|exact Hs]. by rewrite addRoots_fns.
  - destruct (if bool_decide _ then _ else _) as [h pss].
    apply bind_Done_inv in E as (exit1 & _ & E).
    injection E as _ _ _ <-. eapply memoKeeps_fns; [|exact Hs]. done.
Qed.

Lemma walkBlockBody_keeps cache ps exit s cache' exit' s' :
  memoKeeps s0 s →
  walkBlockBody Instrs Succs Preds Parent Index String Name Pos cgOut
    runtime Do callHandlers wf wb cache ps exit s
    = Done (cache', exit', s') →
  memoKeeps s0 s'.
Proof using handlers_keep wf_keeps wb_keeps.
  intros Hs E. unfold walkBlockBody in E.
  destruct (PathState.block ps) as [b|]; [|done].
  destruct (state.fns s !! Parent b) as [fInfo|]; [|done].
  destruct (ifDeps fInfo !! Index b) as [mask|]; [|done].
  destruct (PathStateSet.Contains _ _) as [cached similar].
  destruct cached; [by injection E as _ _ <-|].
  destruct (10 <? similar).
  { injection E as _ _ <-. eapply memoKeeps_fns; [|exact Hs]. done. }
  unfold walkInstrs in E.
  apply bind_Done_inv in E as ([[[pathStates ifCond] exit1] s1] & E1 & E).
  assert (memoKeeps s0 s1) as H1.
  { revert E1.
    apply (forEachM_inv
             (λ acc : PathStateSet.t * option nat * LockSetSet.t
                      * state.t LockOrder, memoKeeps s0 acc.2)
             _ _ (instrStep_keeps (Parent b)) _
             (pathStates, ifCond, exit1, s1)).
    exact Hs. }
  revert E.
  apply (ForEach_inv
           (λ acc : PathStateSet.t * LockSetSet.t * state.t LockOrder,
              memoKeeps s0 acc.2)
           _ _ _ (cache', exit', s')); [|exact H1].
  intros [[c1 e1] t1] ps1 [[c2 e2] t2] Ht E2. simpl in *.
  unfold visitSuccs in E2.
  apply bind_Done_inv in E2 as (pss & _ & E2). revert E2.
  apply (forEachM_inv
           (λ acc : PathStateSet.t * LockSetSet.t * state.t LockOrder,
              memoKeeps s0 acc.2)); [|exact Ht].
  intros [[c3 e3] t3] ps3 [[c4 e4] t4] H3 E3. simpl in *.
  apply wb_keeps in E3. by eapply memoKeeps_trans.
Qed.

Lemma walkFunctionBody_keeps f ps s r s' :
  walkFunctionBody Blocks Instrs Pos livenessFor wb f ps s = Done (r, s') →
  memoKeeps s s'.
Proof using wb_keeps.
  intros E. unfold walkFunctionBody in E. fold visit in E.
  pose proof (memoKeeps_firstVisit f s) as Hv.
  destruct (Blocks f) as [|entry rest]; [by injection E as _ <-|].
  destruct (state.fns (visit f s) !! f) as [fInfo|] eqn:Ef; [|done].
  destruct (PathStateMap.Get (exitLockSets fInfo) ps) as [memo|] eqn:Eg;
    [by injection E as _ <-|].
  apply bind_Done_inv in E as ([[c e] s2] & E2 & E). injection E as _ <-.
  apply wb_keeps in E2.
  eapply memoKeeps_trans; [exact Hv|].
  eapply memoKeeps_setExit; [|exact Ef|exact Eg].
  eapply memoKeeps_trans; [|exact E2].
  eapply memoKeeps_setExit; [apply memoKeeps_refl|exact Ef|exact Eg].
Qed.

End keeps.

Lemma walkers_keep :
  (∀ name h s ps instr l,
     callHandlers name = Some h → memoKeeps s (h s ps instr l).1) →
  ∀ n,
    (∀ f ps s r s', walkF n f ps s = Done (r, s') → memoKeeps s s') ∧
    (∀ cache ps exit s cache' exit' s',
       walkB n cache ps exit s = Done (cache', exit', s') → memoKeeps s s').
Proof.
  intros Hh. induction n as [|n [IHf IHb]]; [by split|]. split.
  - intros f ps s r s' E. unfold walkF in E. cbn [walkFunction] in E.
    by eapply walkFunctionBody_keeps.
  - intros cache ps exit s cache' exit' s' E.
    unfold walkB in E. cbn [walkBlock] in E.
    eapply (walkBlockBody_keeps s (walkF n) (walkB n) Hh IHf IHb);
      [apply memoKeeps_refl|exact E].
Qed.

(** C5, as the code has it.  [walkFunction] memoizes by entry path state.
    A call for a function with a body whose entry path state has a stored
    result returns that result and leaves the analysis state as it is,
    whatever the number of steps left: the body is not walked.  A call
    without a stored result stores the empty [LockSetSet] before it walks
    the entry block, stores the exit lock sets after the walk, and returns
    them.  In the state in which the body is walked, and in every state that
    keeps its memoized results, a call for the same function with an [Equal]
    entry path state returns at once, with the empty set when that state had
    no stored result before, as is the case for regular entry path states;
    and the walkers only lead to states that keep the memoized results, as
    long as the call handlers do.  So the recursion stops where an entry
    path state recurs. *)
Theorem walkFunction_memoizes n f ps (s : state.t LockOrder) entry rest :
  Blocks f = entry :: rest →
  (∀ fInfo memo,
     state.fns s !! f = Some fInfo →
     PathStateMap.Get (exitLockSets fInfo) ps = Some memo →
     walkF (S n) f ps s = Done (memo, s)) ∧
  (∀ fInfo,
     state.fns (visit f s) !! f = Some fInfo →
     PathStateMap.Get (exitLockSets fInfo) ps = None →
     let s1 := state.setExit f ps (LockSetSet.mk ∅) (visit f s) in
     walkF (S n) f ps s =
       ('(_, exit, s') ←
          walkB n PathStateSet.NewPathStateSet
            (PathState.mk (Some entry) (PathState.lockSet ps)
                          (PathState.vs ps) ∅)
            LockSetSet.NewLockSetSet s1;
        Done (exit, state.setExit f ps exit s')) ∧
     (∀ s2 m ps2,
        memoKeeps s1 s2 → PathState.Equal ps ps2 = true →
        ∃ r, walkF (S m) f ps2 s2 = Done (r, s2) ∧
             (PathStateMap.Get (exitLockSets fInfo) ps2 = None →
              r = LockSetSet.mk ∅)) ∧
     (∀ ps2,
        (∀ k slice e,
           PathStateMap.m (exitLockSets fInfo) !! k = Some slice →
           e ∈ slice → regular (λ _, ∅) (PathStateMap.ps e)) →
        regular (λ _, ∅) ps → PathState.Equal ps ps2 = true →
        PathStateMap.Get (exitLockSets fInfo) ps2 = None)) ∧
  ((∀ name h t q instr l,
      callHandlers name = Some h → memoKeeps t (h t q instr l).1) →
   ∀ k,
     (∀ g q t r t', walkF k g q t = Done (r, t') → memoKeeps t t') ∧
     (∀ cache q exit t cache' exit' t',
        walkB k cache q exit t = Done (cache', exit', t') →
        memoKeeps t t')).
Proof.
  intros Eb. split; [|split].
  - intros fInfo memo Ef Eg. by eapply walkFunction_hit.
  - intros fInfo Ef Eg s1. split; [|split].
    + by eapply walkFunction_miss.
    + intros s2 m ps2 Hk Heq.
      destruct (Hk f _ (fns_setExit f ps (LockSetSet.mk ∅) _ fInfo Ef))
        as (fi2 & Ef2 & K). simpl in K.
      destruct (PathStateMap.Get (exitLockSets fInfo) ps2) as [v|] eqn:Eg2.
      * exists v. split; [|done].
        eapply walkFunction_hit; [exact Eb|exact Ef2|].
        eapply psmKeeps_Get; [exact K|].
        eapply psmKeeps_Get; [|exact Eg2].
        apply psmKeeps_Set; [apply psmKeeps_refl|exact Eg].
      * exists (LockSetSet.mk ∅). split; [|done].
        eapply walkFunction_hit; [exact Eb|exact Ef2|].
        eapply psmKeeps_Get; [exact K|]. by apply Get_Set_fresh.
    + intros ps2 Hreg Hps Heq. by eapply Get_None_Equal.
  - apply walkers_keep.
Qed.

End memo.

Lemma walkFunction_memoizes_witness :
  let ps := PathState.mk None (LockSet.NewLockSet 0) ValState.empty ∅ in
  let s1 := state.setExit 0 ps (LockSetSet.mk ∅) Examples.s0 in
  ∃ r, Examples.walkFunction 1 0 ps s1 = Done (r, s1) ∧
       (PathStateMap.Get PathStateMap.NewPathStateMap ps = None →
        r = LockSetSet.mk ∅).
Proof.
  intros ps s1.
  destruct (walkFunction_memoizes Examples.Blocks Examples.Instrs
              Examples.Succs Examples.Preds Examples.Parent Examples.Index
              Examples.String Examples.String Examples.Pos Examples.cgOut
              Examples.runtime Examples.livenessFor Examples.Do
              Examples.callHandlers 0 0 ps Examples.s0 0 [1; 2] eq_refl)
    as (_ & H & _).
  destruct (H (mkInfo PathStateMap.NewPathStateMap
                 (Examples.livenessFor 0 [])) eq_refl eq_refl)
    as (_ & H2 & _).
  apply (H2 s1 0 ps); [|reflexivity].
  intros f fi E. exists fi. split; [exact E|]. intros k. reflexivity.
Defined.

(** ** Recursion that changes the entry path state *)

Section single_sets.

Lemma Add_New ps :
  PathStateSet.Add PathStateSet.NewPathStateSet ps
    = PathStateSet.mk {[PathState.HashKey ps := [ps]]}.
Proof.
  unfold PathStateSet.Add, PathStateSet.bucket, PathStateSet.NewPathStateSet.
  cbn [PathStateSet.m]. rewrite lookup_empty. cbn [default existsb app].
  by rewrite insert_empty.
Qed.

Lemma MapInPlacePure_fixed f ps :
  f ps = ps →
  PathStateSet.MapInPlacePure f
    (PathStateSet.Add PathStateSet.NewPathStateSet ps)
  = PathStateSet.Add PathStateSet.NewPathStateSet ps.
Proof.
  intros E. rewrite Add_New.
  unfold PathStateSet.MapInPlacePure, PathStateSet.MapInPlace.
  cbn [PathStateSet.m]. rewrite map_fold_singleton.
  cbn [length PathStateSet.sweep lookup list_lookup].
  rewrite E, PathState_Equal_refl. done.
Qed.

Lemma FlatMap_single {St} (f : St → PathState.t → Res (St * list PathState.t))
    σ ps :
  PathStateSet.FlatMap f σ (PathStateSet.Add PathStateSet.NewPathStateSet ps)
  = ('(σ2, nps) ← f σ ps;
     Done (σ2, fold_left PathStateSet.Add nps PathStateSet.NewPathStateSet)).
Proof.
  rewrite Add_New. unfold PathStateSet.FlatMap.
  cbn [PathStateSet.m]. rewrite map_fold_singleton.
  cbn [mbind Res_bind forEachM].
  by destruct (f σ ps) as [[σ2 nps]| |].
Qed.

End single_sets.

Section class_A.

Lemma spOK_InternAt h :
  spOK h → ∃ h', InternAt h 0 "A" = (h', 0) ∧ spOK h'.
Proof.
  unfold spOK, InternAt. intros E.
  pose proof (Intern_known (spaceAt h 0) "A") as Ek.
  destruct (StringSpace.Intern (spaceAt h 0) "A") as [sp' id].
  simpl in E, Ek. subst id. eexists. split; [done|].
  unfold spaceAt at 1. rewrite lookup_insert_eq. cbn [default id].
  by rewrite (Intern_again sp' "A" 0 Ek).
Qed.

Lemma heldAt_Bit q : LockSet.Bit (Examples.heldAt q) 0 = true.
Proof. reflexivity. Qed.

Lemma release_heldAt q :
  LockSet.release (Examples.heldAt q) 0 = LockSet.NewLockSet 0.
Proof. reflexivity. Qed.

Lemma Minus_A h L :
  spOK h → (L = LockSet.NewLockSet 0 ∨ ∃ q, L = Examples.heldAt q) →
  ∃ h', LockSet.Minus h L ["A"%string] = (h', LockSet.NewLockSet 0) ∧ spOK h'.
Proof.
  intros Hh HL. unfold LockSet.Minus. cbn [fold_left LockSet.minusStep].
  assert (LockSet.sp L = 0) as -> by (destruct HL as [->|[q ->]]; done).
  destruct (spOK_InternAt h Hh) as (h' & -> & Hh').
  exists h'. split; [|done].
  destruct HL as [->|[q ->]]; [done|].
  by rewrite heldAt_Bit, release_heldAt.
Qed.

Lemma Plus_A h stk :
  spOK h →
  ∃ h', LockSet.Plus h (LockSet.NewLockSet 0) ["A"%string] stk
          = (h', LockSet.acquire (LockSet.NewLockSet 0) 0 stk) ∧
        spOK h'.
Proof.
  intros Hh. unfold LockSet.Plus. cbn [fold_left LockSet.plusStep].
  change (LockSet.sp (LockSet.NewLockSet 0)) with 0.
  destruct (spOK_InternAt h Hh) as (h' & -> & Hh').
  exists h'. done.
Qed.

End class_A.

Section divergence.

Local Abbreviation LO := Recursive.LockOrder.
Let step :=
  instrStep (LockOrder := LO) Recursive.String Recursive.String Examples.Pos
    Examples.cgOut Examples.runtime Recursive.Do Recursive.callHandlers.
Let call :=
  doCall (LockOrder := LO) Recursive.String Recursive.callHandlers.
Let single (ps : PathState.t) : PathStateSet.t :=
  PathStateSet.Add PathStateSet.NewPathStateSet ps.

(** A call of a function that has a handler, from the one path state of the
    block. *)
Lemma doCall_handler wf0 instr fn h ps (s s1 : state.t LO) ps1 :
  Recursive.callHandlers (Recursive.String fn) = Some h →
  h (state.withFrames
       (StackFrame.Extend (state.frames s) (state.stack s) (ident instr)).1
       (Some (length (StackFrame.cells (state.frames s)))) s)
    ps instr [] = (s1, [ps1]) →
  state.stack s1 = Some (length (StackFrame.cells (state.frames s))) →
  StackFrame.cells (state.frames s)
    ++ [StackFrame.mk (state.stack s) (ident instr)]
    `prefix_of` StackFrame.cells (state.frames s1) →
  call wf0 instr [fn] (single ps) s
    = Done (single ps1, state.withStack (state.stack s) s1).
Proof.
  intros Hh Eh Estk Hpre. unfold call, doCall, single.
  cbn [StackFrame.Extend]. rewrite FlatMap_single.
  unfold doCallBody. cbn [forEachM mbind Res_bind].
  rewrite Hh. cbn [StackFrame.Extend fst] in Eh. rewrite Eh.
  cbn [mbind Res_bind fold_left]. rewrite Estk.
  assert (StackFrame.cells (state.frames s1)
            !! length (StackFrame.cells (state.frames s))
          = Some (StackFrame.mk (state.stack s) (ident instr))) as ->.
  { eapply prefix_lookup_Some; [|exact Hpre].
    rewrite lookup_app_r by lia. by rewrite Nat.sub_diag. }
  done.
Qed.

Lemma step_unlock wf0 L v exit (s : state.t LO) :
  spOK (state.spaces s) → StackFrame.wf (state.frames s) →
  StackFrame.valid (state.frames s) (state.stack s) →
  (L = LockSet.NewLockSet 0 ∨ ∃ q, L = Examples.heldAt q) →
  ∃ s',
    step wf0 0 (single (PathState.mk (Some 0) L v ∅), None, exit, s)
      (mkInstr 1 (Call (mkCall None (Some 2))))
    = Done (single (PathState.mk (Some 0) (LockSet.NewLockSet 0) v ∅),
            None, exit, s') ∧
    follows s s'.
Proof.
  intros Hsp Hwf Hv HL.
  destruct (Minus_A (state.spaces s) L Hsp HL) as (h' & EM & Hh').
  eexists. split.
  - unfold step, instrStep, single.
    rewrite MapInPlacePure_fixed by done.
    cbn [kind callees Builtin StaticCallee].
    fold single. fold call.
    erewrite (doCall_handler wf0 _ 2 Recursive.handleUnlock); [done|done| | |].
    + unfold Recursive.handleUnlock, Recursive.pointsTo.
      cbn [state.spaces state.withFrames PathState.lockSet].
      rewrite EM. reflexivity.
    + reflexivity.
    + reflexivity.
  - split; [done|]. split; [done|]. split; [by apply prefix_app_r|].
    split; [|done]. by apply (wf_Extend (state.frames s)).
Qed.

Lemma step_lock wf0 v exit (s : state.t LO) σ :
  spOK (state.spaces s) → StackFrame.wf (state.frames s) →
  StackFrame.valid (state.frames s) (state.stack s) →
  StackFrame.seqOf (StackFrame.cells (state.frames s)) (state.stack s) σ →
  ∃ s' q,
    step wf0 0
      (single (PathState.mk (Some 0) (LockSet.NewLockSet 0) v ∅),
       None, exit, s)
      (mkInstr 2 (Call (mkCall None (Some 1))))
    = Done (single (PathState.mk (Some 0) (Examples.heldAt q) v ∅),
            None, exit, s') ∧
    follows s s' ∧
    StackFrame.seqOf (StackFrame.cells (state.frames s')) (Some q) (σ ++ [2]).
Proof.
  intros Hsp Hwf Hv Hσ.
  set (c := length (StackFrame.cells (state.frames s))).
  set (frX := (StackFrame.Extend (state.frames s) (state.stack s) 2).1).
  assert (StackFrame.wf frX) as HwfX by (by apply wf_Extend).
  assert (StackFrame.valid frX (Some c)) as HvX.
  { unfold frX, c. simpl. rewrite length_app. simpl. lia. }
  assert (StackFrame.seqOf (StackFrame.cells frX) (Some c) (σ ++ [2])) as HσX.
  { apply (StackFrame.seq_frame _ c (StackFrame.mk (state.stack s) 2) σ).
    - unfold frX, c. simpl. rewrite lookup_app_r by lia.
      by rewrite Nat.sub_diag.
    - simpl. eapply seqOf_mono; [|exact Hσ]. unfold frX. simpl.
      by apply prefix_app_r. }
  destruct (Intern_spec frX (Some c) HwfX HvX)
    as (fr' & q0 & EI & Hwf' & Hpre & _ & Hq & Hseq).
  destruct q0 as [q|]; [|done].
  destruct (Plus_A (state.spaces s) (Some q) Hsp) as (h' & EP & Hh').
  destruct (internAll (spaceAt (state.spaces s) 0) ["A"%string])
    as [h0 ids] eqn:Eall.
  eexists _, q. split; [|split].
  - unfold step, instrStep, single.
    rewrite MapInPlacePure_fixed by done.
    cbn [kind callees Builtin StaticCallee].
    fold single. fold call.
    erewrite (doCall_handler wf0 _ 1 Recursive.handleLock); [done|done| | |].
    + unfold Recursive.handleLock, Recursive.pointsTo.
      cbn [state.spaces state.frames state.stack state.withFrames
           PathState.lockSet ident].
      fold frX. fold c. rewrite EI.
      change (LockSet.sp (LockSet.NewLockSet 0)) with 0.
      rewrite Eall, EP. reflexivity.
    + reflexivity.
    + exact Hpre.
  - split; [done|]. split; [done|]. split; [|by split].
    etrans; [|exact Hpre]. unfold frX. simpl. by apply prefix_app_r.
  - by apply Hseq.
Qed.

Lemma step_call_f
    (wf0 : nat → PathState.t → state.t LO → Res (LockSetSet.t * state.t LO))
    L v exit (s : state.t LO) :
  wf0 0 (PathState.mk None L (ValState.LimitToHeap v) ∅)
    (state.withFrames
       (StackFrame.Extend (state.frames s) (state.stack s) 3).1
       (Some (length (StackFrame.cells (state.frames s)))) s)
  = OutOfFuel →
  step wf0 0 (single (PathState.mk (Some 0) L v ∅), None, exit, s)
    (mkInstr 3 (Call (mkCall None (Some 0))))
  = OutOfFuel.
Proof.
  intros E. unfold step, instrStep, single.
  rewrite MapInPlacePure_fixed by done.
  cbn [kind callees Builtin StaticCallee].
  unfold doCall. cbn [StackFrame.Extend ident]. rewrite FlatMap_single.
  unfold doCallBody. cbn [forEachM mbind Res_bind].
  change (Recursive.callHandlers (Recursive.String 0)) with
    (@None (state.t LO → PathState.t → Instruction → list PathState.t →
            state.t LO * list PathState.t)).
  cbn [PathState.lockSet PathState.vs]. cbn [StackFrame.Extend fst] in E.
  by rewrite E.
Qed.

Lemma hasRank_mono mem mem' L r :
  mem `prefix_of` mem' → hasRank mem L r → hasRank mem' L r.
Proof.
  intros Hp [H|(q & l & -> & Hl & Hr)]; [by left|].
  right. exists q, l. split; [done|]. split; [|done]. by eapply seqOf_mono.
Qed.

Lemma heldAt_stack q : LockSet.stacks (Examples.heldAt q) !! 0 = Some (Some q).
Proof. reflexivity. Qed.

(** Lock sets of different ranks are not [Equal]. *)
Lemma hasRank_differ mem L1 r1 L2 r2 :
  hasRank mem L1 r1 → hasRank mem L2 r2 → r1 ≠ r2 →
  LockSet.Equal L1 L2 = false.
Proof.
  intros [[-> ->]|(q1 & l1 & -> & Hl1 & Hr1)]
         [[-> ->]|(q2 & l2 & -> & Hl2 & Hr2)] Hne; try done.
  destruct (LockSet.Equal _ _) eqn:E; [|done].
  apply LockSet_Equal_true in E as (_ & _ & E).
  specialize (E 0 (Some q1) (heldAt_stack q1)).
  unfold LockSet.stackAt in E. rewrite heldAt_stack in E. simpl in E.
  injection E as ->. pose proof (seqOf_fun _ _ _ Hl1 _ Hl2). congruence.
Qed.

Lemma find_none_all {A} (p : A → bool) l :
  (∀ x, x ∈ l → p x = false) → List.find p l = None.
Proof.
  induction l as [|x l IH]; intros H; simpl; [done|].
  rewrite (H x) by (apply elem_of_cons; auto).
  apply IH. intros y Hy. apply H. apply elem_of_cons. auto.
Qed.

(** An entry path state whose rank is new has no memoized result. *)
Lemma Get_new_rank k (s : state.t LO) L v fi :
  entered k s L → state.fns s !! 0 = Some fi →
  PathStateMap.Get (exitLockSets fi) (PathState.mk None L v ∅) = None.
Proof.
  intros He Ef. unfold PathStateMap.Get.
  rewrite find_none_all; [done|]. intros e Hin.
  destruct (PathStateMap.m (exitLockSets fi) !! _) as [slice|] eqn:Em;
    simpl in Hin; [|by apply elem_of_nil in Hin].
  destruct (entered_memo k s L He fi _ slice e Ef Em Hin) as (r & Hr & Hrank).
  unfold PathState.Equal. cbn [PathState.lockSet].
  rewrite (hasRank_differ _ _ r _ k Hrank (entered_rank k s L He)) by lia.
  by rewrite andb_false_r.
Qed.

Lemma visit_entered k (s : state.t LO) L :
  entered k s L →
  let sv := firstVisit Recursive.Blocks Recursive.Instrs
              Recursive.livenessFor 0 s in
  entered k sv L ∧ is_Some (state.fns sv !! 0).
Proof.
  intros He sv. unfold sv, firstVisit.
  destruct (state.fns s !! 0) as [fi|] eqn:Ef; [by rewrite Ef|].
  cbn [Recursive.Blocks]. split; [|simpl; rewrite lookup_insert_eq; eauto].
  destruct He as [H1 H2 H3 H4 H5 H6 H7].
  split; simpl; try done.
  - intros fi key slice e E. rewrite lookup_insert_eq in E.
    injection E as <-. simpl. by rewrite lookup_empty.
  - intros fi E. rewrite lookup_insert_eq in E. by injection E as <-.
Qed.

Lemma valid_mono fr fr' sf :
  StackFrame.cells fr `prefix_of` StackFrame.cells fr' →
  StackFrame.valid fr sf → StackFrame.valid fr' sf.
Proof.
  intros Hp. destruct sf as [a|]; simpl; [|done].
  apply prefix_length in Hp. lia.
Qed.

(** The state in which the recursive call enters [f] again. *)
Lemma entered_next k (sv s3 : state.t LO) L v fiv q σ :
  entered k sv L → state.fns sv !! 0 = Some fiv →
  StackFrame.seqOf (StackFrame.cells (state.frames sv)) (state.stack sv) σ →
  length σ = k →
  state.fns s3
    = state.fns (state.setExit 0 (PathState.mk None L v ∅)
                   (LockSetSet.mk ∅) sv) →
  state.stack s3 = state.stack sv →
  StackFrame.cells (state.frames sv)
    `prefix_of` StackFrame.cells (state.frames s3) →
  StackFrame.wf (state.frames s3) → spOK (state.spaces s3) →
  StackFrame.seqOf (StackFrame.cells (state.frames s3)) (Some q) (σ ++ [2]) →
  entered (S k)
    (state.withFrames
       (StackFrame.Extend (state.frames s3) (state.stack s3) 3).1
       (Some (length (StackFrame.cells (state.frames s3)))) s3)
    (Examples.heldAt q).
Proof.
  intros He Ef Hσ Hlen Efns Estk Hpre Hwf3 Hsp3 Hq.
  assert (StackFrame.valid (state.frames s3) (state.stack s3)) as Hv3.
  { rewrite Estk. eapply valid_mono; [exact Hpre|]. by eapply entered_valid. }
  assert (StackFrame.cells (state.frames s3)
            `prefix_of` StackFrame.cells (state.frames s3)
                        ++ [StackFrame.mk (state.stack s3) 3]) as Hpre4
    by (by apply prefix_app_r).
  split; cbn [state.withFrames state.spaces state.frames state.stack
              state.fns StackFrame.Extend fst StackFrame.cells].
  - done.
  - by apply (wf_Extend (state.frames s3)).
  - simpl. rewrite length_app. simpl. lia.
  - exists (σ ++ [3]). split; [|rewrite length_app; simpl; lia].
    apply (StackFrame.seq_frame _ _ (StackFrame.mk (state.stack s3) 3) σ).
    + rewrite lookup_app_r by lia. by rewrite Nat.sub_diag.
    + simpl. rewrite Estk. eapply seqOf_mono; [|exact Hσ].
      etrans; [exact Hpre|by apply prefix_app_r].
  - right. exists q, (σ ++ [2]). split; [done|].
    split; [by eapply seqOf_mono|]. rewrite length_app. simpl. lia.
  - intros fi key slice e Efi Em Hin. rewrite Efns in Efi.
    rewrite (fns_setExit 0 _ _ sv fiv Ef) in Efi. injection Efi as <-.
    cbn [exitLockSets] in Em.
    rewrite (Set_fresh _ _ _ (Get_new_rank k sv L v fiv He Ef)) in Em.
    cbn [PathStateMap.m] in Em.
    assert (StackFrame.cells (state.frames sv)
              `prefix_of` StackFrame.cells (state.frames s3)
                          ++ [StackFrame.mk (state.stack s3) 3]) as Hp
      by (etrans; [exact Hpre|exact Hpre4]).
    destruct (decide (PathState.HashKey (PathState.mk None L v ∅) = key))
      as [<-|Hne].
    + rewrite lookup_insert_eq in Em. injection Em as <-.
      apply elem_of_app in Hin as [Hin|Hin].
      * destruct (PathStateMap.m (exitLockSets fiv) !! _) as [old|] eqn:Eo;
          simpl in Hin; [|by apply elem_of_nil in Hin].
        destruct (entered_memo k sv L He fiv _ old e Ef Eo Hin)
          as (r & Hr & Hrank).
        exists r. split; [lia|]. by eapply hasRank_mono.
      * apply list_elem_of_singleton in Hin as ->. exists k. split; [lia|].
        eapply hasRank_mono; [exact Hp|]. by eapply entered_rank.
    + rewrite lookup_insert_ne in Em by done.
      destruct (entered_memo k sv L He fiv key slice e Ef Em Hin)
        as (r & Hr & Hrank).
      exists r. split; [lia|]. by eapply hasRank_mono.
  - intros fi Efi. rewrite Efns in Efi.
    rewrite (fns_setExit 0 _ _ sv fiv Ef) in Efi. injection Efi as <-.
    simpl. by eapply entered_deps.
Qed.

(** Entered at any depth, the walk of [f] reaches the recursive call with a
    lock set of a new rank, and so on: no number of steps is enough. *)
Lemma walk_never_returns n : ∀ k (s : state.t LO) L v,
  entered k s L →
  Recursive.walkFunction n 0 (PathState.mk None L v ∅) s = OutOfFuel.
Proof.
  induction n as [n IH] using lt_wf_ind. intros k s L v He.
  destruct n as [|n1]; [done|].
  unfold Recursive.walkFunction. rewrite walkFunction_S.
  unfold walkFunctionBody. cbn [Recursive.Blocks].
  destruct (visit_entered k s L He) as [Hev [fiv Ef]].
  remember (firstVisit Recursive.Blocks Recursive.Instrs
              Recursive.livenessFor 0 s) as sv eqn:Esv.
  clear Esv. rewrite Ef.
  rewrite (Get_new_rank k sv L v fiv Hev Ef).
  set (ps := PathState.mk None L v ∅).
  set (s1 := state.setExit 0 ps (LockSetSet.mk ∅) sv).
  cbn [PathState.lockSet PathState.vs ps].
  destruct n1 as [|n2]; [done|].
  rewrite walkBlock_S. unfold walkBlockBody.
  cbn [PathState.block Recursive.Parent Recursive.Index].
  unfold s1 at 1. rewrite (fns_setExit 0 ps _ sv fiv Ef).
  cbn [ifDeps]. rewrite (entered_deps k sv L Hev fiv Ef).
  unfold PathStateSet.Contains, PathStateSet.bucket.
  simpl ([∅] !! _).
  cbn [PathState.withMask PathState.block PathState.lockSet PathState.vs].
  cbn [PathStateSet.m PathStateSet.NewPathStateSet].
  rewrite lookup_empty. cbn [default existsb length Nat.ltb Nat.leb].
  unfold walkInstrs, PathState.withMask.
  change (Recursive.Parent 0) with 0.
  cbn [Recursive.Instrs forEachM PathState.block PathState.lockSet
       PathState.vs].
  fold step.
  destruct (entered_depth k sv L Hev) as (σ & Hσ & Hlen).
  assert (L = LockSet.NewLockSet 0 ∨ ∃ q, L = Examples.heldAt q) as HL.
  { destruct (entered_rank k sv L Hev) as [[_ ->]|(q & l & -> & _)]; eauto. }
  destruct (step_unlock
              (walkFunction Recursive.Blocks Recursive.Instrs Recursive.Succs
                 Recursive.Preds Recursive.Parent Recursive.Index
                 Recursive.String Recursive.String Examples.Pos
                 Examples.cgOut Examples.runtime Recursive.livenessFor
                 Recursive.Do Recursive.callHandlers n2)
              L v LockSetSet.NewLockSetSet s1
              (entered_spaces k sv L Hev) (entered_wf k sv L Hev)
              (entered_valid k sv L Hev) HL)
    as (s2 & E1 & F1 & F2 & F3 & F4 & F5).
  unfold single in E1. rewrite E1. cbn [mbind Res_bind].
  assert (StackFrame.seqOf (StackFrame.cells (state.frames s2))
            (state.stack s2) σ) as Hσ2.
  { rewrite F2. eapply seqOf_mono; [exact F3|exact Hσ]. }
  assert (StackFrame.valid (state.frames s2) (state.stack s2)) as Hv2.
  { rewrite F2. eapply valid_mono; [exact F3|].
    exact (entered_valid k sv L Hev). }
  destruct (step_lock
              (walkFunction Recursive.Blocks Recursive.Instrs Recursive.Succs
                 Recursive.Preds Recursive.Parent Recursive.Index
                 Recursive.String Recursive.String Examples.Pos
                 Examples.cgOut Examples.runtime Recursive.livenessFor
                 Recursive.Do Recursive.callHandlers n2)
              v LockSetSet.NewLockSetSet s2 σ F5 F4 Hv2 Hσ2)
    as (s3 & q & E2 & (G1 & G2 & G3 & G4 & G5) & Hq).
  unfold single in E2. rewrite E2. cbn [mbind Res_bind].
  unfold step in *. rewrite step_call_f; [done|].
  apply (IH n2 ltac:(lia) (S k)).
  eapply (entered_next k sv s3 L v fiv q σ); try done.
  - by rewrite G1, F1.
  - by rewrite G2, F2.
  - etrans; [exact F3|exact G3].
Qed.

End divergence.

(** C5, as stated, fails: the memoization does not stop every recursion.
    The walk of [func g() { lock(&a); g() }] returns: the recursive call
    enters with the path state stored at the first call of it. The function
    [func f() { unlock(&a); lock(&a); f() }] holds the lock at each
    recursive call, acquired at a stack one call deeper than the time
    before, so no entry path state is [Equal] to an earlier one; from the
    initial state of a root, no number of steps lets [walkFunction] return. *)
Lemma recursion_with_new_stacks_never_returns :
  (∃ r, Recursive.walkFunctionHeld 5 0 Recursive.ps0 Recursive.s0 = Done r) ∧
  (∀ n, Recursive.walkFunction n 0 Recursive.ps0 Recursive.s0 = OutOfFuel).
Proof.
  split; [eexists; vm_compute; reflexivity|].
  intros n. apply (walk_never_returns n 0). split; simpl.
  - reflexivity.
  - apply wf_empty.
  - exact I.
  - exists []. split; [constructor|done].
  - by left.
  - intros fi key slice e E. by rewrite lookup_empty in E.
  - intros fi E. by rewrite lookup_empty in E.
Qed.

(** * Part III: the rest of the code *)

(** ** [StringSpace.Intern] *)

Section string_space.
Import StringSpace.

Lemma spaceOK_new : spaceOK NewStringSpace.
Proof. intros str id. simpl. by rewrite lookup_empty, lookup_nil. Qed.

Lemma spaceOK_Intern sp str : spaceOK sp → spaceOK (Intern sp str).1.
Proof.
  intros H. unfold Intern. destruct (m sp !! str) as [id|] eqn:E; [done|].
  intros str' id'. simpl.
  destruct (decide (str = str')) as [<-|Hne].
  - rewrite lookup_insert_eq. split.
    + intros [= <-]. rewrite lookup_app_r by done. by rewrite Nat.sub_diag.
    + intros E'. f_equal.
      apply lookup_snoc_Some in E' as [[Hlt E']|[? ?]]; [|done].
      apply H in E'. congruence.
  - rewrite lookup_insert_ne by done. rewrite (H str' id'). split.
    + intros E'. by apply lookup_app_l_Some.
    + intros E'. apply lookup_snoc_Some in E' as [[? ?]|[? ?]];
        [done|congruence].
Qed.

End string_space.

(** X1.  In a string space built by [NewStringSpace] and [Intern],
    [Intern(x) == Intern(y)] iff [x == y]: the call for [x] and a later
    call for [y] return the same id exactly when [x] and [y] are the same
    string.  The id that [Intern] returns is the index of the string in
    [s], and the space stays one that [Intern] builds. *)
Theorem Intern_same_id_iff_same_string (sp : StringSpace.t) (x y : string) :
  spaceOK sp →
  let r1 := StringSpace.Intern sp x in
  let r2 := StringSpace.Intern r1.1 y in
  (r1.2 = r2.2 ↔ x = y) ∧
  StringSpace.s r1.1 !! r1.2 = Some x ∧
  StringSpace.s r2.1 !! r1.2 = Some x ∧
  spaceOK r2.1.
Proof.
  intros Hsp r1 r2.
  pose proof (spaceOK_Intern sp x Hsp) as H1. fold r1 in H1.
  pose proof (spaceOK_Intern r1.1 y H1) as H2. fold r2 in H2.
  pose proof (Intern_known sp x) as Kx. fold r1 in Kx.
  pose proof (Intern_known r1.1 y) as Ky. fold r2 in Ky.
  pose proof (Intern_keeps r1.1 y x r1.2 Kx) as Kx2. fold r2 in Kx2.
  split; [|split; [by apply H1|split; [by apply H2|done]]].
  split.
  - intros E. apply H2 in Kx2. apply H2 in Ky. congruence.
  - intros <-. unfold r2. by rewrite (Intern_again r1.1 x r1.2 Kx).
Qed.

Lemma Intern_same_id_iff_same_string_witness :
  (0 = 1 ↔ "runtime.sched.lock"%string = "runtime.mheap_.lock"%string) ∧
  [ "runtime.sched.lock"%string ] !! 0 = Some "runtime.sched.lock"%string ∧
  [ "runtime.sched.lock"%string; "runtime.mheap_.lock"%string ] !! 0
    = Some "runtime.sched.lock"%string ∧
  spaceOK
    (StringSpace.Intern
       (StringSpace.Intern StringSpace.NewStringSpace "runtime.sched.lock").1
       "runtime.mheap_.lock").1.
Proof.
  exact (Intern_same_id_iff_same_string StringSpace.NewStringSpace
           "runtime.sched.lock" "runtime.mheap_.lock" spaceOK_new).
Defined.

(** X2.  Ids are stable: once [Intern] has returned an id for a string,
    a call for that string after a call for any other string returns the
    same id and leaves the space as it is. *)
Theorem Intern_is_stable (sp : StringSpace.t) (a b : string) :
  let sp2 := (StringSpace.Intern (StringSpace.Intern sp a).1 b).1 in
  StringSpace.Intern sp2 a = (sp2, (StringSpace.Intern sp a).2).
Proof.
  intros sp2. apply Intern_again. unfold sp2.
  apply Intern_keeps, Intern_known.
Qed.

(** ** [LockSet.Plus], [LockSet.Minus] and [LockSet.Union] *)

Section lockset_ops.
Import LockSet.

Lemma acquireAll_held stack ids : ∀ set k,
  Bit set k = true →
  stacks (acquireAll stack set ids) !! k = stacks set !! k.
Proof.
  induction ids as [|id ids IH]; intros set k Hk; [done|].
  change (acquireAll stack set (id :: ids)) with
    (acquireAll stack (if Bit set id then set else acquire set id stack) ids).
  destruct (Bit set id) eqn:Eb; [by apply IH|].
  rewrite IH.
  - simpl. rewrite lookup_insert_ne; [done|]. intros ->. congruence.
  - rewrite Bit_acquire, Hk. apply orb_true_r.
Qed.

Lemma acquireAll_new stack ids : ∀ set k,
  k ∈ ids → Bit set k = false →
  stacks (acquireAll stack set ids) !! k = Some stack.
Proof.
  induction ids as [|id ids IH]; intros set k Hin Hk.
  { by apply elem_of_nil in Hin. }
  change (acquireAll stack set (id :: ids)) with
    (acquireAll stack (if Bit set id then set else acquire set id stack) ids).
  destruct (decide (id = k)) as [->|Hne].
  - rewrite Hk. rewrite acquireAll_held.
    + simpl. apply lookup_insert_eq.
    + rewrite Bit_acquire, bool_decide_eq_true_2 by done. done.
  - apply elem_of_cons in Hin as [->|Hin]; [done|].
    apply IH; [done|]. destruct (Bit set id); [done|].
    rewrite Bit_acquire, bool_decide_eq_false_2 by done. done.
Qed.

Lemma acquireAll_all_held stack ids : ∀ set,
  Forall (λ k, Bit set k = true) ids → acquireAll stack set ids = set.
Proof.
  induction ids as [|id ids IH]; intros set H; [done|].
  inversion H as [|? ? Hid Hids]; subst.
  change (acquireAll stack set (id :: ids)) with
    (acquireAll stack (if Bit set id then set else acquire set id stack) ids).
  rewrite Hid. by apply IH.
Qed.

Lemma releaseAll_none_held ids : ∀ set,
  Forall (λ k, Bit set k = false) ids → releaseAll set ids = set.
Proof.
  induction ids as [|id ids IH]; intros set H; [done|].
  inversion H as [|? ? Hid Hids]; subst.
  change (releaseAll set (id :: ids)) with
    (releaseAll (if Bit set id then release set id else set) ids).
  rewrite Hid. by apply IH.
Qed.

Lemma ldiff_zero_Bit (a b : t) :
  N.ldiff (bits b) (bits a) = 0%N ↔ ∀ k, Bit b k = true → Bit a k = true.
Proof.
  unfold Bit. split.
  - intros E k Hb.
    assert (N.testbit (N.ldiff (bits b) (bits a)) (N.of_nat k) = false) as X
      by (by rewrite E, N.bits_0).
    rewrite N.ldiff_spec, Hb in X. by destruct (N.testbit (bits a) _).
  - intros H. apply N.bits_inj. intros n. rewrite N.bits_0, N.ldiff_spec.
    specialize (H (N.to_nat n)). rewrite N2Nat.id in H.
    destruct (N.testbit (bits b) n); [by rewrite H|done].
Qed.

End lockset_ops.

(** X3.  [Plus] adds the lock classes of the points-to set that the lock
    set lacks, with the given stack, and nothing else: a lock that is held
    keeps the stack at which it was acquired, also when it is in the
    points-to set, and when every class is held already the result is the
    receiver. *)
Theorem Plus_adds_only_missing_locks
    (h : Spaces) (set : LockSet.t) (s : list string) (stack : ptr) :
  let out := (LockSet.Plus h set s stack).2 in
  let ids := classes h set s in
  (∀ k, LockSet.Bit out k = LockSet.Bit set k || bool_decide (k ∈ ids)) ∧
  (∀ k, LockSet.Bit set k = true →
        LockSet.stacks out !! k = LockSet.stacks set !! k) ∧
  (∀ k, k ∈ ids → LockSet.Bit set k = false →
        LockSet.stacks out !! k = Some stack) ∧
  (∀ k, k ∉ ids → LockSet.stacks out !! k = LockSet.stacks set !! k) ∧
  (Forall (λ k, LockSet.Bit set k = true) ids → out = set).
Proof.
  intros out ids. unfold out.
  destruct (Plus_classes s h set stack) as (-> & _ & _). fold ids.
  destruct (acquireAll_spec stack ids set) as (_ & A2 & A3).
  split; [exact A2|]. split; [intros k; apply acquireAll_held|].
  split; [intros k; apply acquireAll_new|].
  split; [exact A3|apply acquireAll_all_held].
Qed.

(** X4.  [Minus] removes the lock classes of the points-to set and leaves
    every other lock with its stack; when the lock set holds none of the
    classes the result is the receiver. *)
Theorem Minus_removes_exactly_the_given_locks
    (h : Spaces) (set : LockSet.t) (s : list string) :
  let out := (LockSet.Minus h set s).2 in
  let ids := classes h set s in
  (∀ k, LockSet.Bit out k
        = LockSet.Bit set k && negb (bool_decide (k ∈ ids))) ∧
  (∀ k, k ∉ ids → LockSet.stacks out !! k = LockSet.stacks set !! k) ∧
  (∀ k, k ∈ ids → LockSet.Bit set k = true →
        LockSet.stacks out !! k = None) ∧
  (Forall (λ k, LockSet.Bit set k = false) ids → out = set).
Proof.
  intros out ids. unfold out. rewrite Minus_classes. fold ids.
  destruct (releaseAll_spec ids set) as (_ & R2 & R3 & R4).
  split; [exact R2|]. split; [exact R3|]. split; [exact R4|].
  apply releaseAll_none_held.
Qed.

(** X5.  [Union] holds a lock exactly when the receiver or the argument
    holds it, over the string space of the receiver; when the argument
    holds no lock that the receiver lacks, the result is the receiver; and
    a lock that only the argument holds comes with the stack of the
    argument, while a stack of the receiver that is not nil is kept. *)
Theorem Union_holds_the_locks_of_both (set o : LockSet.t) :
  (∀ k, LockSet.Bit (LockSet.Union set o) k
        = LockSet.Bit set k || LockSet.Bit o k) ∧
  LockSet.sp (LockSet.Union set o) = LockSet.sp set ∧
  ((∀ k, LockSet.Bit o k = true → LockSet.Bit set k = true) →
   LockSet.Union set o = set) ∧
  (∀ k p, LockSet.stacks set !! k = Some (Some p) →
          LockSet.stacks (LockSet.Union set o) !! k = Some (Some p)) ∧
  (LockSet.integral set → LockSet.integral o →
   ∀ k v, LockSet.stacks set !! k = None →
          LockSet.stacks o !! k = Some v →
          LockSet.stacks (LockSet.Union set o) !! k = Some v).
Proof.
  split; [|split; [|split; [|split]]].
  - intros k. unfold LockSet.Union.
    destruct (N.ldiff (LockSet.bits o) (LockSet.bits set) =? 0)%N eqn:E.
    + apply N.eqb_eq in E.
      pose proof (proj1 (ldiff_zero_Bit set o) E k) as H.
      destruct (LockSet.Bit o k); [by rewrite H|by rewrite orb_false_r].
    + unfold LockSet.Bit at 1. simpl. apply Bit_lor.
  - unfold LockSet.Union. by destruct (_ =? _)%N.
  - intros H. apply ldiff_zero_Bit in H. unfold LockSet.Union.
    by rewrite H.
  - intros k p. apply Union_keeps_receiver.
  - intros Hs Ho k v. by apply Union_adds_argument.
Qed.

Lemma Union_holds_the_locks_of_both_witness :
  LockSet.Union
    (LockSet.Plus ∅ (LockSet.NewLockSet 0) ["A"; "B"]%string (Some 1)).2
    (LockSet.PlusLabel ∅ (LockSet.NewLockSet 0) "A" (Some 2)).2
  = (LockSet.Plus ∅ (LockSet.NewLockSet 0) ["A"; "B"]%string (Some 1)).2.
Proof.
  apply (proj1 (proj2 (proj2 (Union_holds_the_locks_of_both
           (LockSet.Plus ∅ (LockSet.NewLockSet 0) ["A"; "B"]%string (Some 1)).2
           (LockSet.PlusLabel ∅ (LockSet.NewLockSet 0) "A" (Some 2)).2)))).
  intros [|k] H; [reflexivity|]. vm_compute in H. discriminate H.
Defined.

(** ** [LockSet.Equal] and [LockSet.Key] *)

Section lockset_keys.
Import LockSet.

Lemma testbit_size k : ∀ n : N,
  N.testbit n (N.of_nat k) = true → k < N.size_nat n.
Proof.
  induction k as [|k IH]; intros n H.
  - destruct n as [|[p|p|]]; simpl in *; try done; lia.
  - rewrite Nat2N.inj_succ, N.testbit_succ_r_div2 in H by lia.
    apply IH in H. destruct n as [|[p|p|]]; simpl in *; lia.
Qed.

Lemma Bit_size set k : Bit set k = true → k < N.size_nat (bits set).
Proof. apply testbit_size. Qed.

Lemma callsN_seqOf mem :
  (∀ a c p, mem !! a = Some c → StackFrame.parent c = Some p → p < a) →
  ∀ sf l, StackFrame.seqOf mem sf l →
  ∀ n, (∀ a, sf = Some a → a < n) → StackFrame.callsN n mem sf = rev l.
Proof.
  intros Hpar sf l H. induction H as [|a c l Ec Hl IH]; intros n Hn.
  - by destruct n.
  - destruct n as [|n]; [specialize (Hn a eq_refl); lia|].
    simpl. rewrite Ec, IH, rev_unit; [done|].
    intros p Ep. specialize (Hpar a c p Ec Ep). specialize (Hn a eq_refl). lia.
Qed.

(** The calls of a valid frame, the innermost first, are its sequence
    reversed. *)
Lemma calls_seqOf fr sf l :
  StackFrame.wf fr → StackFrame.valid fr sf →
  StackFrame.seqOf (StackFrame.cells fr) sf l →
  StackFrame.calls fr sf = rev l.
Proof.
  intros Hwf Hv H. unfold StackFrame.calls.
  eapply callsN_seqOf; eauto using StackFrame.wf_parent.
  intros a ->. exact Hv.
Qed.

(** Two stacks that are nil or canonical and have the same calls are the
    same pointer. *)
Lemma canonical_calls_inj fr (v v' : ptr) :
  StackFrame.wf fr →
  (∀ q, v = Some q → StackFrame.canonical fr q) →
  (∀ q, v' = Some q → StackFrame.canonical fr q) →
  StackFrame.calls fr v = StackFrame.calls fr v' → v = v'.
Proof.
  intros Hwf Hv Hv' E.
  assert (∀ w : ptr, (∀ q, w = Some q → StackFrame.canonical fr q) →
                     StackFrame.valid fr w) as Hvalid.
  { intros [q|] Hq; simpl; [|done]. apply canonical_valid; auto. }
  destruct (Flatten_total fr v Hwf (Hvalid v Hv)) as [l El].
  destruct (Flatten_total fr v' Hwf (Hvalid v' Hv')) as [l' El'].
  apply Flatten_seqOf in El; [|auto..]. apply Flatten_seqOf in El'; [|auto..].
  rewrite (calls_seqOf fr v l), (calls_seqOf fr v' l') in E by auto.
  apply (f_equal (@rev nat)) in E. rewrite !rev_involutive in E. subst l'.
  destruct v as [q|], v' as [q'|].
  - f_equal. apply (canonical_unique fr Hwf l); auto.
  - apply seqOf_None_inv in El' as ->.
    apply seqOf_Some_inv in El as (c & l' & _ & _ & E). by destruct l'.
  - apply seqOf_None_inv in El as ->.
    apply seqOf_Some_inv in El' as (c & l' & _ & _ & E). by destruct l'.
  - done.
Qed.

Lemma integral_stackAt set k :
  integral set → Bit set k = true → stacks set !! k = Some (stackAt set k).
Proof.
  intros Hi Hk. apply Hi in Hk as [v E]. unfold stackAt. by rewrite E.
Qed.

End lockset_keys.

(** X6.  On lock sets whose bits and stacks agree, [Equal] holds exactly
    for lock sets over the same string space with the same locks, each
    acquired at the same stack pointer; equal lock sets have the same
    [HashKey]. *)
Theorem LockSet_Equal_iff_same_locks_and_stacks (a b : LockSet.t) :
  LockSet.integral a → LockSet.integral b →
  (LockSet.Equal a b = true ↔ a = b) ∧
  (LockSet.Equal a b = true → LockSet.HashKey a = LockSet.HashKey b).
Proof.
  intros Ha Hb. split; [split|].
  - intros E. apply LockSet_Equal_true in E as (Esp & Ebits & Est).
    destruct a as [spa ba sa], b as [spb bb sb]. simpl in *. subst.
    f_equal. apply map_eq. intros k.
    destruct (sa !! k) as [v|] eqn:Ea.
    + specialize (Est k v Ea). unfold LockSet.stackAt in Est. simpl in Est.
      assert (is_Some (sb !! k)) as [v' Eb].
      { apply (Hb k). apply (Ha k). simpl. eauto. }
      rewrite Eb in Est. simpl in Est. by rewrite Eb, Est.
    + destruct (sb !! k) as [v'|] eqn:Eb; [|done].
      assert (is_Some (sa !! k)) as [v Ea'].
      { apply (Ha k). apply (Hb k). simpl. eauto. }
      simpl in Ea'. congruence.
  - intros <-. apply LockSet_Equal_refl.
  - intros E. apply LockSet_Equal_true in E as (_ & Ebits & _). exact Ebits.
Qed.

Lemma LockSet_Equal_iff_same_locks_and_stacks_witness :
  let a := (LockSet.Plus ∅ (LockSet.NewLockSet 0) ["A"; "B"]%string (Some 1)).2 in
  let b := (LockSet.Plus ∅ (LockSet.NewLockSet 0) ["A"; "B"]%string (Some 2)).2 in
  (LockSet.Equal a b = true ↔ a = b) ∧
  (LockSet.Equal a b = true → LockSet.HashKey a = LockSet.HashKey b).
Proof.
  intros a b.
  apply (LockSet_Equal_iff_same_locks_and_stacks a b);
    apply integral_Plus, integral_new.
Defined.

(** X7.  [Key] tells lock sets apart as [Equal] does.  Two [Equal] lock
    sets have the same [Key].  For lock sets over one string space whose
    stacks are interned, and call positions that tell the calls apart, the
    same [Key] makes the lock sets [Equal]. *)
Theorem LockSet_Key_agrees_with_Equal
    (Pos : nat → nat) (fr : StackFrame.Frames) (a b : LockSet.t) :
  LockSet.integral a → LockSet.integral b →
  (LockSet.Equal a b = true → LockSet.Key Pos fr a = LockSet.Key Pos fr b) ∧
  (Inj (=) (=) Pos → StackFrame.wf fr → LockSet.sp a = LockSet.sp b →
   (∀ k q, LockSet.stacks a !! k = Some (Some q) → StackFrame.canonical fr q) →
   (∀ k q, LockSet.stacks b !! k = Some (Some q) → StackFrame.canonical fr q) →
   LockSet.Key Pos fr a = LockSet.Key Pos fr b → LockSet.Equal a b = true).
Proof.
  intros Ha Hb. split.
  - intros E.
    by apply (LockSet_Equal_iff_same_locks_and_stacks a b Ha Hb) in E as ->.
  - intros HPos Hwf Esp Ca Cb E.
    apply LockSet_Equal_true. split; [done|].
    unfold LockSet.Key in E. injection E as Ebits E.
    split; [done|]. intros k v Ek.
    assert (LockSet.Bit a k = true) as Bk by (apply Ha; eauto).
    assert (LockSet.Bit b k = true) as Bk'
      by (by rewrite <- (Bit_of_bits a b k Ebits)).
    pose proof (integral_stackAt b k Hb Bk') as Ek'.
    assert (filter (λ i, Is_true (LockSet.Bit b i))
                   (seq 0 (N.size_nat (LockSet.bits b)))
            = filter (λ i, Is_true (LockSet.Bit a i))
                     (seq 0 (N.size_nat (LockSet.bits a)))) as EL.
    { rewrite <- Ebits. apply list_filter_iff. intros i.
      by rewrite (Bit_of_bits a b i Ebits). }
    rewrite EL in E. apply Forall_fmap_ext in E.
    rewrite Forall_forall in E. specialize (E k).
    assert (Pos <$> StackFrame.calls fr (LockSet.stackAt a k)
            = Pos <$> StackFrame.calls fr (LockSet.stackAt b k)) as Ec.
    { apply E. apply list_elem_of_filter. split; [by rewrite Bk|].
      apply elem_of_seq. pose proof (Bit_size a k Bk). lia. }
    apply (inj (fmap Pos)) in Ec.
    assert (LockSet.stackAt a k = v) as Eav
      by (unfold LockSet.stackAt; by rewrite Ek).
    rewrite Eav in Ec. symmetry.
    apply (canonical_calls_inj fr v (LockSet.stackAt b k) Hwf); [| |done].
    + intros q ->. by eapply Ca.
    + intros q Eq. eapply Cb. by rewrite Ek', Eq.
Qed.

Lemma LockSet_Key_agrees_with_Equal_witness :
  let fr :=
    StackFrame.mkFrames [StackFrame.mk None 1; StackFrame.mk None 1]
                        {[ (None, 1) := 1 ]} in
  let a := LockSet.acquire (LockSet.NewLockSet 0) 0 (Some 1) in
  (LockSet.Equal a a = true →
   LockSet.Key (λ i, i) fr a = LockSet.Key (λ i, i) fr a) ∧
  (LockSet.Key (λ i, i) fr a = LockSet.Key (λ i, i) fr a →
   LockSet.Equal a a = true).
Proof.
  intros fr a.
  assert (LockSet.integral a) as Ha
    by apply integral_acquire, integral_new.
  destruct (LockSet_Key_agrees_with_Equal (λ i, i) fr a a Ha Ha) as [H1 H2].
  assert (∀ k q, LockSet.stacks a !! k = Some (Some q) →
                 StackFrame.canonical fr q) as Hc.
  { intros k q E. simpl in E.
    apply lookup_insert_Some in E as [[_ [= <-]]|[_ E]].
    - exists (None, 1). apply lookup_singleton_eq.
    - by rewrite lookup_empty in E. }
  split; [exact H1|]. apply H2.
  - intros x y E. exact E.
  - split.
    + intros i c p Ei Ep.
      destruct i as [|[|i]]; simpl in Ei; inversion Ei; subst; discriminate.
    + intros k q Hk. simpl in Hk.
      apply lookup_singleton_Some in Hk as [<- <-]. reflexivity.
    + intros k q p Hk Hp. simpl in Hk.
      apply lookup_singleton_Some in Hk as [<- <-]. discriminate.
  - reflexivity.
  - exact Hc.
  - exact Hc.
Defined.

(** ** [StackFrame]: [Extend], [Flatten], [Intern] and [TrimCommonPrefix] *)

Section frames.
Import StackFrame.

Lemma Extend_seqOf fr sf c l :
  wf fr → valid fr sf → seqOf (cells fr) sf l →
  let r := Extend fr sf c in
  wf r.1 ∧ valid r.1 r.2 ∧ seqOf (cells r.1) r.2 (l ++ [c]) ∧
  cells fr `prefix_of` cells r.1 ∧
  internedStackFrames r.1 = internedStackFrames fr.
Proof.
  intros Hwf Hv Hl r. split; [by apply wf_Extend|].
  split; [simpl; rewrite length_app; simpl; lia|].
  split; [|split; [by apply prefix_app_r|done]].
  simpl. apply (seq_frame _ (length (cells fr)) (mk sf c) l).
  - rewrite lookup_app_r by lia. by rewrite Nat.sub_diag.
  - simpl. eapply seqOf_mono; [|exact Hl]. by apply prefix_app_r.
Qed.

Lemma valid_prefix fr fr' sf :
  cells fr `prefix_of` cells fr' → valid fr sf → valid fr' sf.
Proof.
  intros Hp. destruct sf as [a|]; simpl; [|done].
  apply prefix_length in Hp. lia.
Qed.

(** A frame that was there before has the sequence it had. *)
Lemma Flatten_prefix fr fr' sf :
  wf fr → wf fr' → cells fr `prefix_of` cells fr' → valid fr sf →
  Flatten fr' sf = Flatten fr sf.
Proof.
  intros Hwf Hwf' Hp Hv.
  destruct (Flatten_total fr sf Hwf Hv) as [l El]. rewrite El.
  apply Flatten_seqOf in El; [|done..].
  apply Flatten_seqOf; [done|by eapply valid_prefix|].
  by eapply seqOf_mono.
Qed.

Lemma reconstitute_from l : ∀ fr p acc,
  wf fr → valid fr p → seqOf (cells fr) p acc →
  let r := fold_left (λ '(fr, nsf) call, Extend fr nsf call) l (fr, p) in
  wf r.1 ∧ valid r.1 r.2 ∧ seqOf (cells r.1) r.2 (acc ++ l) ∧
  cells fr `prefix_of` cells r.1 ∧
  internedStackFrames r.1 = internedStackFrames fr.
Proof.
  induction l as [|c l IH]; intros fr p acc Hwf Hv Hacc.
  - simpl. rewrite app_nil_r. done.
  - destruct (Extend_seqOf fr p c acc Hwf Hv Hacc) as (W & V & Sq & P & T).
    cbn [fold_left]. destruct (Extend fr p c) as [fr1 p1] eqn:E.
    simpl in W, V, Sq, P, T.
    destruct (IH fr1 p1 (acc ++ [c]) W V Sq) as (W2 & V2 & S2 & P2 & T2).
    split; [done|]. split; [done|]. split; [by rewrite <- app_assoc in S2|].
    split; [by etrans|congruence].
Qed.

Lemma commonFrom_spec n : ∀ (f1 f2 : list nat) c,
  length f1 ≤ n + c → take c f1 = take c f2 → c ≤ length f1 →
  c ≤ length f2 →
  let r := commonFrom n f1 f2 c in
  c ≤ r ∧ r ≤ length f1 ∧ r ≤ length f2 ∧ take r f1 = take r f2 ∧
  ∀ x y, f1 !! r = Some x → f2 !! r = Some y → x ≠ y.
Proof.
  induction n as [|n IH]; intros f1 f2 c Hn Ht H1 H2; simpl.
  - repeat apply conj; try done. intros x y E1. apply lookup_lt_Some in E1. lia.
  - destruct (f1 !! c) as [x|] eqn:E1, (f2 !! c) as [y|] eqn:E2;
      try (repeat apply conj; try done; intros ? ? ? ?; congruence).
    case_bool_decide as Exy.
    + subst y. pose proof (lookup_lt_Some _ _ _ E1).
      pose proof (lookup_lt_Some _ _ _ E2).
      destruct (IH f1 f2 (S c)) as (G1 & G2 & G3 & G4 & G5); try lia.
      { rewrite (take_S_r f1 c x E1), (take_S_r f2 c x E2). by rewrite Ht. }
      repeat apply conj; try done. lia.
    + repeat apply conj; try done. intros ? ? ? ?. congruence.
Qed.

End frames.

(** X8.  [Extend] pushes one call: the new frame flattens to the calls of
    [sf] followed by [call], the frames that were there flatten as before,
    and the table of interned frames is not touched. *)
Theorem Extend_pushes_one_call
    (fr : StackFrame.Frames) (sf : ptr) (call : nat) :
  StackFrame.wf fr → StackFrame.valid fr sf →
  let r := StackFrame.Extend fr sf call in
  StackFrame.wf r.1 ∧
  (∃ l, StackFrame.Flatten fr sf = Some l ∧
        StackFrame.Flatten r.1 r.2 = Some (l ++ [call])) ∧
  (∀ p, StackFrame.valid fr p →
        StackFrame.Flatten r.1 p = StackFrame.Flatten fr p) ∧
  r.2 ≠ sf ∧
  StackFrame.internedStackFrames r.1 = StackFrame.internedStackFrames fr.
Proof.
  intros Hwf Hv r.
  destruct (Flatten_total fr sf Hwf Hv) as [l El].
  pose proof El as Hl. apply Flatten_seqOf in Hl; [|done..].
  destruct (Extend_seqOf fr sf call l Hwf Hv Hl) as (W & V & Sq & P & T).
  fold r in W, V, Sq, P, T.
  split; [done|]. split; [|split; [|split; [|done]]].
  - exists l. split; [done|]. by apply Flatten_seqOf.
  - intros p Hp. by apply Flatten_prefix.
  - unfold r. simpl. destruct sf as [a|]; [|done].
    simpl in Hv. intros [= E]. lia.
Qed.

Lemma Extend_pushes_one_call_witness :
  let fr := (StackFrame.Extend StackFrame.empty None 7).1 in
  let r := StackFrame.Extend fr (Some 0) 9 in
  StackFrame.wf r.1 ∧
  (∃ l, StackFrame.Flatten fr (Some 0) = Some l ∧
        StackFrame.Flatten r.1 r.2 = Some (l ++ [9])) ∧
  (∀ p, StackFrame.valid fr p →
        StackFrame.Flatten r.1 p = StackFrame.Flatten fr p) ∧
  r.2 ≠ Some 0 ∧
  StackFrame.internedStackFrames r.1 = StackFrame.internedStackFrames fr.
Proof.
  intros fr.
  apply (Extend_pushes_one_call fr (Some 0) 9).
  - apply wf_Extend; [apply wf_empty|exact I].
  - simpl. lia.
Defined.

(** X9.  [Intern] is idempotent and keeps the calls: the pointer it
    returns flattens to the calls of its argument, a second [Intern] of
    that pointer returns it again and allocates nothing, and the frames
    that were there flatten as before. *)
Theorem Intern_is_idempotent (fr : StackFrame.Frames) (sf : ptr) :
  StackFrame.wf fr → StackFrame.valid fr sf →
  ∃ fr' q,
    StackFrame.Intern fr sf = Some (fr', q) ∧
    StackFrame.Intern fr' q = Some (fr', q) ∧
    StackFrame.Flatten fr' q = StackFrame.Flatten fr sf ∧
    (∀ p, StackFrame.valid fr p →
          StackFrame.Flatten fr' p = StackFrame.Flatten fr p) ∧
    (sf = None ↔ q = None).
Proof.
  intros Hwf Hv.
  destruct (Intern_spec fr sf Hwf Hv)
    as (fr' & q & E & Hwf' & Hpre & Hsub & Hq & Hseq).
  exists fr', q. split; [done|].
  destruct (Flatten_total fr sf Hwf Hv) as [l El].
  pose proof El as Hl. apply Flatten_seqOf in Hl; [|done..].
  assert (StackFrame.valid fr' q) as Hvq.
  { destruct q as [q|]; simpl; [|done]. by apply canonical_valid. }
  split; [|split; [|split]].
  - destruct q as [q|]; [|unfold StackFrame.Intern;
                           by destruct (length _)].
    destruct (canonical_cell fr' q Hwf' Hq) as (c & Ec & Ek & _).
    unfold StackFrame.Intern.
    destruct (length (StackFrame.cells fr')) as [|n] eqn:En.
    { apply lookup_lt_Some in Ec. lia. }
    simpl. by rewrite Ec, Ek.
  - rewrite El. apply Flatten_seqOf; [done..|]. by apply Hseq.
  - intros p Hp. by apply Flatten_prefix.
  - split.
    + intros ->. apply seqOf_None_inv in Hl as ->.
      specialize (Hseq [] (StackFrame.seq_nil _)).
      destruct q as [q|]; [|done].
      apply seqOf_Some_inv in Hseq as (c & l' & _ & _ & E'). by destruct l'.
    + intros ->. exact Hq.
Qed.

Lemma Intern_is_idempotent_witness :
  let fr :=
    (StackFrame.Extend (StackFrame.Extend StackFrame.empty None 7).1
       (Some 0) 9).1 in
  ∃ fr' q,
    StackFrame.Intern fr (Some 1) = Some (fr', q) ∧
    StackFrame.Intern fr' q = Some (fr', q) ∧
    StackFrame.Flatten fr' q = StackFrame.Flatten fr (Some 1) ∧
    (∀ p, StackFrame.valid fr p →
          StackFrame.Flatten fr' p = StackFrame.Flatten fr p) ∧
    (Some 1 = None ↔ q = None).
Proof.
  intros fr.
  apply (Intern_is_idempotent fr (Some 1)).
  - unfold fr. repeat (apply wf_Extend; [|simpl; lia || exact I]).
    apply wf_empty.
  - simpl. lia.
Defined.

(** X10.  [TrimCommonPrefix] eliminates the outermost calls that the two
    stacks have in common and returns stacks of their remaining calls:
    the two stacks flatten to a common beginning followed by the calls of
    the two results, whose first calls differ when both have one.  When
    the stacks have no first call in common, the two pointers are returned
    as they are and no frame is allocated.  The table of interned frames
    is not touched, and the frames that were there are not changed. *)
Theorem TrimCommonPrefix_returns_the_distinct_suffixes
    (fr : StackFrame.Frames) (sf other : ptr) :
  StackFrame.wf fr → StackFrame.valid fr sf → StackFrame.valid fr other →
  ∃ fr' a b pre la lb,
    StackFrame.TrimCommonPrefix fr sf other = Some (fr', a, b) ∧
    StackFrame.Flatten fr sf = Some (pre ++ la) ∧
    StackFrame.Flatten fr other = Some (pre ++ lb) ∧
    StackFrame.Flatten fr' a = Some la ∧
    StackFrame.Flatten fr' b = Some lb ∧
    (∀ x y, head la = Some x → head lb = Some y → x ≠ y) ∧
    (pre = [] → (fr', a, b) = (fr, sf, other)) ∧
    StackFrame.wf fr' ∧
    StackFrame.cells fr `prefix_of` StackFrame.cells fr' ∧
    StackFrame.internedStackFrames fr' = StackFrame.internedStackFrames fr.
Proof.
  intros Hwf Hv Hvo.
  destruct (Flatten_total fr sf Hwf Hv) as [f1 E1].
  destruct (Flatten_total fr other Hwf Hvo) as [f2 E2].
  unfold StackFrame.TrimCommonPrefix. rewrite E1, E2. cbn [mbind option_bind].
  destruct (commonFrom_spec (length f1) f1 f2 0)
    as (_ & G2 & G3 & G4 & G5); [lia|done|lia|lia|].
  set (common := StackFrame.commonFrom (length f1) f1 f2 0) in *.
  assert (∀ x y, head (drop common f1) = Some x →
                 head (drop common f2) = Some y → x ≠ y) as Hhead.
  { intros x y. rewrite !head_lookup, !lookup_drop, !Nat.add_0_r. apply G5. }
  destruct (common =? 0) eqn:Ec.
  - apply Nat.eqb_eq in Ec. rewrite Ec in *.
    exists fr, sf, other, [], f1, f2. simpl in *.
    repeat apply conj; try done.
  - apply Nat.eqb_neq in Ec.
    destruct (reconstitute_from (drop common f1) fr None []
                Hwf I (StackFrame.seq_nil _)) as (W1 & V1 & S1 & P1 & T1).
    fold (StackFrame.reconstitute fr (drop common f1)) in *.
    destruct (StackFrame.reconstitute fr (drop common f1)) as [fr1 nsf1].
    simpl in W1, V1, S1, P1, T1.
    destruct (reconstitute_from (drop common f2) fr1 None []
                W1 I (StackFrame.seq_nil _)) as (W2 & V2 & S2 & P2 & T2).
    fold (StackFrame.reconstitute fr1 (drop common f2)) in *.
    destruct (StackFrame.reconstitute fr1 (drop common f2)) as [fr2 nsf2].
    simpl in W2, V2, S2, P2, T2.
    exists fr2, nsf1, nsf2, (take common f1), (drop common f1),
      (drop common f2).
    split; [done|]. split; [by rewrite take_drop|].
    split; [by rewrite G4, take_drop|].
    split; [|split; [|split; [done|split]]].
    + apply Flatten_seqOf; [done|by eapply valid_prefix|].
      by eapply seqOf_mono.
    + by apply Flatten_seqOf.
    + intros Et. apply (f_equal length) in Et.
      rewrite length_take in Et. simpl in Et. lia.
    + split; [done|]. split; [by etrans|congruence].
Qed.

Lemma TrimCommonPrefix_returns_the_distinct_suffixes_witness :
  let fr :=
    (StackFrame.Extend
       (StackFrame.Extend
          (StackFrame.Extend StackFrame.empty None 7).1 (Some 0) 8).1
       (Some 0) 9).1 in
  ∃ fr' a b pre la lb,
    StackFrame.TrimCommonPrefix fr (Some 1) (Some 2) = Some (fr', a, b) ∧
    StackFrame.Flatten fr (Some 1) = Some (pre ++ la) ∧
    StackFrame.Flatten fr (Some 2) = Some (pre ++ lb) ∧
    StackFrame.Flatten fr' a = Some la ∧
    StackFrame.Flatten fr' b = Some lb ∧
    (∀ x y, head la = Some x → head lb = Some y → x ≠ y) ∧
    (pre = [] → (fr', a, b) = (fr, Some 1, Some 2)) ∧
    StackFrame.wf fr' ∧
    StackFrame.cells fr `prefix_of` StackFrame.cells fr' ∧
    StackFrame.internedStackFrames fr' = StackFrame.internedStackFrames fr.
Proof.
  intros fr.
  apply (TrimCommonPrefix_returns_the_distinct_suffixes fr (Some 1) (Some 2)).
  - unfold fr. repeat (apply wf_Extend; [|simpl; lia || exact I]).
    apply wf_empty.
  - simpl. lia.
  - simpl. lia.
Defined.

(** ** [PathStateSet]: [Add], [Contains], [ForEach], [FlatMap], [MapInPlace] *)

Section path_state_sets.

Lemma forEachM_app {A B} (body : B → A → Res B) l1 l2 b :
  forEachM body (l1 ++ l2) b
  = (b' ← forEachM body l1 b; forEachM body l2 b').
Proof.
  revert b. induction l1 as [|x l1 IH]; intros b; simpl; [done|].
  destruct (body b x) as [b1| |]; simpl; [apply IH|done..].
Qed.

(** A range over the buckets of a map, as one loop over their states. *)
Lemma range_buckets {B} (body : B → PathState.t → Res B)
    (L : list ((option nat * N) * list PathState.t)) b :
  foldr (uncurry (λ (_ : option nat * N) slice r,
                    b' ← r; forEachM body slice b')) (Done b) L
  = forEachM body (mjoin ((reverse L).*2)) b.
Proof.
  induction L as [|[k slice] L IH]; simpl; [done|].
  rewrite reverse_cons, fmap_app, join_app, forEachM_app, IH. simpl.
  by rewrite app_nil_r.
Qed.

Lemma stored_range set ps :
  ps ∈ mjoin ((reverse (map_to_list (PathStateSet.m set))).*2)
  ↔ PathStateSet.stored set ps.
Proof.
  rewrite list_elem_of_join. unfold PathStateSet.stored. split.
  - intros (slice & Hps & Hs). apply list_elem_of_fmap in Hs as ([k sl] & -> & Hs).
    apply elem_of_reverse, elem_of_map_to_list in Hs. by exists k, sl.
  - intros (k & slice & E & Hps). exists slice. split; [done|].
    apply list_elem_of_fmap. exists (k, slice). split; [done|].
    by apply elem_of_reverse, elem_of_map_to_list.
Qed.

Lemma stored_bucket set ps :
  PathStateSet.stored set ps ↔ ∃ key, ps ∈ PathStateSet.bucket set key.
Proof.
  unfold PathStateSet.stored, PathStateSet.bucket. split.
  - intros (k & slice & E & H). exists k. by rewrite E.
  - intros (k & H). destruct (PathStateSet.m set !! k) as [slice|] eqn:E.
    + by exists k, slice.
    + by apply elem_of_nil in H.
Qed.

Lemma stored_Add set ps x :
  PathStateSet.stored (PathStateSet.Add set ps) x →
  PathStateSet.stored set x ∨ x = ps.
Proof.
  rewrite !stored_bucket. intros (k & H). rewrite bucket_Add in H.
  destruct (existsb _ _); [eauto|].
  destruct (decide _); [|eauto].
  apply elem_of_app in H as [H|H]; [eauto|].
  apply list_elem_of_singleton in H. auto.
Qed.

Lemma stored_Add_mono set ps x :
  PathStateSet.stored set x →
  PathStateSet.stored (PathStateSet.Add set ps) x.
Proof.
  rewrite !stored_bucket. intros (k & H). exists k. rewrite bucket_Add.
  destruct (existsb _ _); [done|].
  destruct (decide _); [|done]. apply elem_of_app. auto.
Qed.

Lemma Add_represents set ps :
  ∃ y, PathStateSet.stored (PathStateSet.Add set ps) y ∧
       PathState.Equal y ps = true.
Proof.
  destruct (existsb (λ e, PathState.Equal e ps)
              (PathStateSet.bucket set (PathState.HashKey ps))) eqn:Ex.
  - pose proof Ex as Ex'. apply existsb_exists in Ex' as (y & Hy & Ey).
    exists y. split; [|done]. apply stored_bucket.
    exists (PathState.HashKey ps). rewrite bucket_Add, Ex.
    by apply list_elem_of_In.
  - exists ps. split; [|apply PathState_Equal_refl]. apply stored_bucket.
    exists (PathState.HashKey ps). rewrite bucket_Add, Ex.
    rewrite decide_True by done. apply elem_of_app. right. constructor.
Qed.

Lemma Add_all_stored xs : ∀ set0,
  (∀ x, PathStateSet.stored (fold_left PathStateSet.Add xs set0) x →
        PathStateSet.stored set0 x ∨ x ∈ xs) ∧
  (∀ x, PathStateSet.stored set0 x →
        PathStateSet.stored (fold_left PathStateSet.Add xs set0) x) ∧
  (∀ x, x ∈ xs →
        ∃ y, PathStateSet.stored (fold_left PathStateSet.Add xs set0) y ∧
             PathState.Equal y x = true).
Proof.
  induction xs as [|ps xs IH]; intros set0; simpl.
  - split; [auto|]. split; [auto|]. intros x H. by apply elem_of_nil in H.
  - destruct (IH (PathStateSet.Add set0 ps)) as (H1 & H2 & H3).
    split; [|split].
    + intros x Hx. apply H1 in Hx as [Hx|Hx].
      * apply stored_Add in Hx as [Hx| ->]; [auto|]. right. constructor.
      * right. by constructor.
    + intros x Hx. by apply H2, stored_Add_mono.
    + intros x Hx. apply elem_of_cons in Hx as [->|Hx]; [|auto].
      destruct (Add_represents set0 ps) as (y & Hy & Ey).
      exists y. split; [by apply H2|done].
Qed.

Lemma sweep_fixed {St} (f : St → PathState.t → St * PathState.t) key n :
  ∀ slice i σ m toAdd,
    (∀ σ ps, ps ∈ slice → PathState.Equal ps (f σ ps).2 = true) →
    (PathStateSet.sweep f n key (σ, m, toAdd) slice i).1.2 = m ∧
    (PathStateSet.sweep f n key (σ, m, toAdd) slice i).2 = toAdd.
Proof.
  induction n as [|n IH]; intros slice i σ m toAdd Hf; simpl; [done|].
  destruct (slice !! i) as [ps|] eqn:Ei; [|done].
  pose proof (Hf σ ps (list_elem_of_lookup_2 _ _ _ Ei)) as E.
  destruct (f σ ps) as [σ1 ps2]. simpl in E. rewrite E. by apply IH.
Qed.

Lemma Contains_Add_same set ps :
  (PathStateSet.Contains (PathStateSet.Add set ps) ps).1 = true.
Proof.
  unfold PathStateSet.Contains. simpl. rewrite bucket_Add.
  destruct (existsb _ (PathStateSet.bucket set _)) eqn:Ex; [done|].
  rewrite decide_True by done. rewrite existsb_app. simpl.
  rewrite PathState_Equal_refl. by rewrite orb_true_r.
Qed.

End path_state_sets.

(** X11.  After [Add] of a path state, [Contains] finds it, also when the
    set already held an [Equal] one; a second [Add] of the state changes
    nothing; the states that [Contains] found before are still found; the
    bucket of the state grows by one state at most; and the empty set
    contains nothing. *)
Theorem Add_then_Contains (set : PathStateSet.t) (ps : PathState.t) :
  (PathStateSet.Contains (PathStateSet.Add set ps) ps).1 = true ∧
  PathStateSet.Add (PathStateSet.Add set ps) ps = PathStateSet.Add set ps ∧
  (∀ q, (PathStateSet.Contains set q).1 = true →
        (PathStateSet.Contains (PathStateSet.Add set ps) q).1 = true) ∧
  (PathStateSet.Contains set ps).2
    ≤ (PathStateSet.Contains (PathStateSet.Add set ps) ps).2
    ≤ S (PathStateSet.Contains set ps).2 ∧
  PathStateSet.Contains PathStateSet.NewPathStateSet ps = (false, 0).
Proof.
  pose proof (Contains_Add_same set ps) as Hin.
  split; [exact Hin|]. split; [|split; [|split]].
  - unfold PathStateSet.Contains in Hin. simpl in Hin.
    unfold PathStateSet.Add at 1. by rewrite Hin.
  - intros q. unfold PathStateSet.Contains. simpl. rewrite bucket_Add.
    destruct (existsb _ (PathStateSet.bucket set (PathState.HashKey ps)));
      [done|].
    destruct (decide _); [|done].
    intros H. rewrite existsb_app, H. done.
  - clear Hin. unfold PathStateSet.Contains. simpl. rewrite bucket_Add.
    destruct (existsb _ _); [lia|].
    rewrite decide_True by done. rewrite length_app. simpl. lia.
  - reflexivity.
Qed.

(** X12.  [ForEach] applies [f] once to each path state of the set: the
    call is a loop over a list that holds every stored path state as often
    as the buckets do, whatever [f] is and whatever state it works on. *)
Theorem ForEach_applies_f_once_to_each_state (set : PathStateSet.t) :
  ∃ l,
    l ≡ₚ mjoin ((map_to_list (PathStateSet.m set)).*2) ∧
    (∀ ps, ps ∈ l ↔ PathStateSet.stored set ps) ∧
    ∀ (St : Type) (f : St → PathState.t → Res St) (σ : St),
      PathStateSet.ForEach f σ set = forEachM f l σ.
Proof.
  exists (mjoin ((reverse (map_to_list (PathStateSet.m set))).*2)).
  split; [by rewrite reverse_Permutation|]. split; [apply stored_range|].
  intros St f σ. unfold PathStateSet.ForEach.
  rewrite map_fold_foldr. apply range_buckets.
Qed.

(** X13.  [FlatMap] returns a set that consists of the results of [f]:
    every path state of the new set is a result of [f] for a path state of
    the old one, and every such result is in the new set or has an [Equal]
    path state there. *)
Theorem FlatMap_collects_the_results
    (g : PathState.t → list PathState.t) (set : PathStateSet.t) :
  ∃ out,
    PathStateSet.FlatMap (λ (σ : unit) ps, Done (σ, g ps)) tt set
      = Done (tt, out) ∧
    (∀ x, PathStateSet.stored out x →
          ∃ ps, PathStateSet.stored set ps ∧ x ∈ g ps) ∧
    (∀ ps x, PathStateSet.stored set ps → x ∈ g ps →
             ∃ y, PathStateSet.stored out y ∧ PathState.Equal y x = true).
Proof.
  set (l := mjoin ((reverse (map_to_list (PathStateSet.m set))).*2)).
  exists (fold_left PathStateSet.Add (l ≫= g) PathStateSet.NewPathStateSet).
  split; [|split].
  - unfold PathStateSet.FlatMap. rewrite map_fold_foldr.
    rewrite (range_buckets
               (λ '(σ1, out) ps,
                  '(σ2, nps) ← Done (σ1, g ps);
                  Done (σ2, fold_left PathStateSet.Add nps out))).
    fold l. generalize PathStateSet.NewPathStateSet.
    induction l as [|ps l IH]; intros out0; simpl; [done|].
    rewrite IH. by rewrite fold_left_app.
  - intros x Hx.
    apply (proj1 (Add_all_stored (l ≫= g) PathStateSet.NewPathStateSet))
      in Hx as [(k & sl & E & _)|Hx].
    { change (PathStateSet.m PathStateSet.NewPathStateSet)
        with (∅ : gmap (option nat * N) (list PathState.t)) in E.
      by rewrite lookup_empty in E. }
    apply list_elem_of_bind in Hx as (ps & Hx & Hps).
    exists ps. split; [by apply stored_range|done].
  - intros ps x Hps Hx.
    apply (proj2 (proj2 (Add_all_stored (l ≫= g)
                           PathStateSet.NewPathStateSet))).
    apply list_elem_of_bind. exists ps. split; [done|].
    by apply stored_range.
Qed.

(** X14.  [MapInPlace] leaves the set as it is when [f] returns, for
    every path state of the set, a path state [Equal] to it: such a result
    is not stored, also when it differs from the stored state in values
    that [Equal] does not compare. *)
Theorem MapInPlace_keeps_states_Equal_to_their_image
    {St : Type} (f : St → PathState.t → St * PathState.t) (σ : St)
    (set : PathStateSet.t) :
  (∀ σ ps, PathStateSet.stored set ps →
           PathState.Equal ps (f σ ps).2 = true) →
  (PathStateSet.MapInPlace f σ set).2 = set.
Proof.
  intros Hf. unfold PathStateSet.MapInPlace.
  set (m0 := PathStateSet.m set).
  assert (∀ mp, mp ⊆ m0 →
            let r := map_fold
                       (λ hashKey slice acc,
                          PathStateSet.sweep f (length slice) hashKey acc
                            slice 0)
                       (σ, m0, []) mp in
            r.1.2 = m0 ∧ r.2 = []) as H.
  { intros mp.
    apply (map_fold_weak_ind
             (λ (r : St * gmap (option nat * N) (list PathState.t)
                     * list PathState.t) mp,
                mp ⊆ m0 → r.1.2 = m0 ∧ r.2 = [])).
    - done.
    - intros i x m [[σ1 m1] t1] Hi IH Hsub.
      assert (m ⊆ m0) as Hsub'.
      { etrans; [|exact Hsub]. by apply insert_subseteq. }
      destruct (IH Hsub') as [E1 E2]. simpl in E1, E2. subst m1 t1.
      assert (m0 !! i = Some x) as Hx.
      { eapply lookup_weaken; [|exact Hsub]. apply lookup_insert_eq. }
      apply sweep_fixed. intros σ2 ps Hps. apply Hf. by exists i, x. }
  specialize (H m0 (reflexivity _)). simpl in H.
  destruct (map_fold _ _ m0) as [[σ' m'] toAdd]. simpl in *.
  destruct H as [-> ->]. simpl. by destruct set.
Qed.

Lemma MapInPlace_keeps_states_Equal_to_their_image_witness :
  (PathStateSet.MapInPlace
     (λ (_ : unit) ps,
        (tt, PathState.withVs
               (ValState.Extend (PathState.vs ps) 5
                  (ValState.DynConst (ValState.MakeBool true))) ps))
     tt Examples.twoStates).2
  = Examples.twoStates.
Proof.
  apply (MapInPlace_keeps_states_Equal_to_their_image
           (λ (_ : unit) ps,
              (tt, PathState.withVs
                     (ValState.Extend (PathState.vs ps) 5
                        (ValState.DynConst (ValState.MakeBool true))) ps))
           tt Examples.twoStates).
  intros _ ps (k & slice & E & Hps).
  assert (ps = Examples.withT1 1 ∨ ps = Examples.withT1 2) as [->| ->].
  { assert (PathStateSet.m Examples.twoStates
            = {[ (Some 0, 0%N) := [Examples.withT1 1; Examples.withT1 2] ]})
      as Em by (vm_compute; reflexivity).
    rewrite Em in E. apply lookup_singleton_Some in E as [_ <-].
    apply elem_of_cons in Hps as [->|Hps]; [by left|].
    apply list_elem_of_singleton in Hps as ->. by right. }
  - vm_compute. reflexivity.
  - vm_compute. reflexivity.
Defined.

(** ** [PathStateMap]: [Set] and [Get] *)

Section path_state_maps.
Import PathStateMap.

Lemma setFirst_find key v slice slice' :
  setFirst key v slice = Some slice' →
  val <$> List.find (λ e, PathState.Equal (ps e) key) slice' = Some v ∧
  ∀ v', setFirst key v' slice' = setFirst key v' slice.
Proof.
  revert slice'. induction slice as [|e slice IH]; intros slice' E;
    simpl in E; [done|].
  destruct (PathState.Equal (ps e) key) eqn:Ee.
  - injection E as <-. simpl. rewrite Ee. done.
  - destruct (setFirst key v slice) as [r|] eqn:Er; [|done].
    injection E as <-. destruct (IH r eq_refl) as [H1 H2].
    simpl. rewrite Ee. split; [done|]. intros v'. by rewrite H2.
Qed.

Lemma setFirst_None_find key v slice :
  setFirst key v slice = None →
  List.find (λ e, PathState.Equal (ps e) key) slice = None.
Proof.
  induction slice as [|e slice IH]; simpl; [done|].
  destruct (PathState.Equal (ps e) key); [done|].
  destruct (setFirst key v slice); [done|]. auto.
Qed.

Lemma Get_Set_same psm key v : Get (Set_ psm key v) key = Some v.
Proof.
  unfold Get, Set_.
  destruct (setFirst key v _) as [slice'|] eqn:E; simpl;
    rewrite lookup_insert_eq; simpl.
  - by apply setFirst_find in E as [E _].
  - rewrite find_app, (setFirst_None_find _ _ _ E). simpl.
    by rewrite PathState_Equal_refl.
Qed.

End path_state_maps.

(** X15.  [Get] after [Set] returns the value that was set, also when the
    map held an entry for an [Equal] path state; a second [Set] for the
    path state replaces the value of the first; the entries of the other
    hash keys are not touched; and the empty map has no entry. *)
Theorem PathStateMap_Get_after_Set
    (psm : PathStateMap.t) (key : PathState.t) (v : LockSetSet.t) :
  PathStateMap.Get (PathStateMap.Set_ psm key v) key = Some v ∧
  (∀ v', PathStateMap.Set_ (PathStateMap.Set_ psm key v) key v'
         = PathStateMap.Set_ psm key v') ∧
  (∀ key2, PathState.HashKey key2 ≠ PathState.HashKey key →
           PathStateMap.Get (PathStateMap.Set_ psm key v) key2
           = PathStateMap.Get psm key2) ∧
  PathStateMap.Get PathStateMap.NewPathStateMap key = None.
Proof.
  split; [apply Get_Set_same|]. split; [|split; [|done]].
  - intros v'. unfold PathStateMap.Set_.
    set (k := PathState.HashKey key).
    set (slice := default [] (PathStateMap.m psm !! k)).
    destruct (PathStateMap.setFirst key v slice) as [slice'|] eqn:E; simpl;
      rewrite lookup_insert_eq; simpl.
    + destruct (setFirst_find key v slice slice' E) as [_ ->].
      destruct (PathStateMap.setFirst key v' slice) as [s2|] eqn:E2.
      * by rewrite insert_insert_eq.
      * apply setFirst_None_find in E2.
        by rewrite (setFirst_None key v slice E2) in E.
    + pose proof (setFirst_None_find key v slice E) as Ef.
      rewrite (setFirst_app_None key v' slice _ Ef).
      rewrite (setFirst_None key v' slice Ef). simpl.
      rewrite PathState_Equal_refl. simpl. by rewrite insert_insert_eq.
  - intros key2 Hne. unfold PathStateMap.Get, PathStateMap.Set_.
    destruct (PathStateMap.setFirst key v _); simpl;
      by rewrite lookup_insert_ne.
Qed.

(** ** [addRoot] *)

(** X16.  [addRoot] keeps the list of roots free of repetitions and in
    step with [rootSet]: the function is a root afterwards, the roots that
    were there keep their places, a function that is a root already
    changes nothing, and at most one root is added. *)
Theorem addRoot_keeps_the_roots_distinct
    {LockOrder : Type} (s : state.t LockOrder) (fn : nat) :
  rootsOK s →
  let s' := state.addRoot s fn in
  rootsOK s' ∧ fn ∈ state.roots s' ∧
  state.roots s `prefix_of` state.roots s' ∧
  (fn ∈ state.roots s → s' = s) ∧
  state.addRoot s' fn = s' ∧
  length (state.roots s') ≤ S (length (state.roots s)).
Proof.
  intros [Hnd Hset] s'. unfold s', state.addRoot.
  case_bool_decide as Hin.
  - rewrite bool_decide_eq_true_2 by done.
    repeat apply conj; try done; try lia. by apply Hset.
  - simpl. rewrite bool_decide_eq_true_2
      by (apply elem_of_union; left; by apply elem_of_singleton).
    assert (fn ∉ state.roots s) as Hnot by (by rewrite <- Hset).
    repeat apply conj; simpl.
    + apply NoDup_app. split; [done|]. split; [|apply NoDup_singleton].
      intros x Hx ->%list_elem_of_singleton. done.
    + intros x. rewrite elem_of_union, elem_of_singleton, elem_of_app,
        list_elem_of_singleton, Hset. tauto.
    + apply elem_of_app. right. constructor.
    + by apply prefix_app_r.
    + done.
    + done.
    + rewrite length_app. simpl. lia.
Qed.

Lemma addRoot_keeps_the_roots_distinct_witness :
  let s := state.addRoot (state.addRoot Examples.s0 3) 5 in
  let s' := state.addRoot s 3 in
  rootsOK s' ∧ 3 ∈ state.roots s' ∧
  state.roots s `prefix_of` state.roots s' ∧
  (3 ∈ state.roots s → s' = s) ∧
  state.addRoot s' 3 = s' ∧
  length (state.roots s') ≤ S (length (state.roots s)).
Proof.
  intros s.
  apply (addRoot_keeps_the_roots_distinct s 3).
  apply (addRoot_keeps_the_roots_distinct (state.addRoot Examples.s0 3) 5).
  apply (addRoot_keeps_the_roots_distinct Examples.s0 3).
  split; [apply NoDup_nil_2|]. intros fn. simpl. split; intros H.
  - by apply elem_of_empty in H.
  - by apply elem_of_nil in H.
Defined.

(** ** Further properties of the walkers *)

Section walker_facts.
Context {LockOrder : Type}.
Variable Blocks : nat → list nat.
Variable Instrs : nat → list Instruction.
Variable Succs Preds : nat → list nat.
Variable Parent Index : nat → nat.
Variable String Name : nat → string.
Variable Pos : nat → nat.
Variable cgOut : nat → option (list (nat * nat)).
Variable runtime : runtimeFns.
Variable livenessFor : nat → list Instruction → list (gset nat).
Variable Do : ValState.t → Instruction → ValState.t.
Variable callHandlers :
  string →
  option (state.t LockOrder → PathState.t → Instruction →
          list PathState.t → state.t LockOrder * list PathState.t).

Let walkB :=
  walkBlock Blocks Instrs Succs Preds Parent Index String Name Pos cgOut
    runtime livenessFor Do callHandlers.
Let walkF :=
  walkFunction Blocks Instrs Succs Preds Parent Index String Name Pos cgOut
    runtime livenessFor Do callHandlers.
Let visit := firstVisit (LockOrder := LockOrder) Blocks Instrs livenessFor.

(** *** The call stack of the analysis *)

Lemma stackKept_refl (s : state.t LockOrder) : stackKept s s.
Proof. by split. Qed.

Lemma stackKept_trans (a b c : state.t LockOrder) :
  stackKept a b → stackKept b c → stackKept a c.
Proof. intros [H1 H2] [H3 H4]. split; [congruence|by etrans]. Qed.

Lemma stackKept_same (a b c : state.t LockOrder) :
  state.stack c = state.stack b → state.frames c = state.frames b →
  stackKept a b → stackKept a c.
Proof. intros E1 E2 [H1 H2]. split; [congruence|by rewrite E2]. Qed.

Lemma callees_stack (s : state.t LockOrder) f instr c :
  state.stack (callees cgOut runtime s f instr c).1 = state.stack s ∧
  state.frames (callees cgOut runtime s f instr c).1 = state.frames s.
Proof.
  unfold callees. destruct (Builtin c) as [[name str]|].
  - repeat case_bool_decide; try done. by destruct str.
  - destruct (StaticCallee c); [done|]. by destruct (cgOut f).
Qed.

Lemma addRoots_stack outs : ∀ s : state.t LockOrder,
  state.stack (fold_left state.addRoot outs s) = state.stack s ∧
  state.frames (fold_left state.addRoot outs s) = state.frames s.
Proof.
  induction outs as [|o outs IH]; intros s; simpl; [done|].
  destruct (IH (state.addRoot s o)) as [-> ->].
  unfold state.addRoot. by case_bool_decide.
Qed.

Lemma firstVisit_stack f (s : state.t LockOrder) :
  state.stack (visit f s) = state.stack s ∧
  state.frames (visit f s) = state.frames s.
Proof.
  unfold visit, firstVisit. destruct (state.fns s !! f); [done|].
  by destruct (Blocks f).
Qed.

Section balanced.
Variable wf :
  nat → PathState.t → state.t LockOrder →
  Res (LockSetSet.t * state.t LockOrder).
Variable wb :
  PathStateSet.t → PathState.t → LockSetSet.t → state.t LockOrder →
  Res (PathStateSet.t * LockSetSet.t * state.t LockOrder).
Hypothesis handlers_stack : ∀ name h s ps instr l,
  callHandlers name = Some h → stackKept s (h s ps instr l).1.
Hypothesis wf_stack : ∀ f ps s r s',
  wf f ps s = Done (r, s') → stackKept s s'.
Hypothesis wb_stack : ∀ cache ps exit s cache' exit' s',
  wb cache ps exit s = Done (cache', exit', s') → stackKept s s'.

Lemma doCallBody_stack s0 instr fs s ps s' l :
  stackKept s0 s →
  doCallBody String callHandlers wf instr fs s ps = Done (s', l) →
  stackKept s0 s'.
Proof using handlers_stack wf_stack.
  intros Hs E. unfold doCallBody in E.
  apply bind_Done_inv in E as ([[s1 ps1] l1] & E & E'). injection E' as <- <-.
  revert E.
  apply (forEachM_inv
           (λ acc : state.t LockOrder * PathState.t * list PathState.t,
              stackKept s0 acc.1.1)); [|exact Hs].
  intros [[s2 ps2] l2] fn [[s3 ps3] l3] H2 E2. simpl in *.
  destruct (callHandlers (String fn)) as [h|] eqn:Eh.
  - pose proof (handlers_stack _ h s2 ps2 instr l2 Eh) as Hh.
    destruct (h s2 ps2 instr l2) as [s4 l4]. injection E2 as <- _ _.
    by eapply stackKept_trans.
  - apply bind_Done_inv in E2 as ([lss s4] & E4 & E2).
    apply wf_stack in E4.
    destruct (map_fold _ _ _) as [ps5 l5]. injection E2 as <- _ _.
    by eapply stackKept_trans.
Qed.

(** [doCall] pushes the call on the stack of the analysis, and pops it
    when the callees are walked. *)
Lemma doCall_stack instr fs pathStates s pathStates' s' :
  doCall String callHandlers wf instr fs pathStates s
    = Done (pathStates', s') →
  stackKept s s'.
Proof using handlers_stack wf_stack.
  intros E. unfold doCall in E.
  apply bind_Done_inv in E as ([s1 pss1] & E1 & E).
  assert (stackKept
            (state.withFrames
               (StackFrame.Extend (state.frames s) (state.stack s)
                  (ident instr)).1
               (StackFrame.Extend (state.frames s) (state.stack s)
                  (ident instr)).2 s) s1) as [H1 H2].
  { revert E1. apply (FlatMap_inv (stackKept _)).
    - intros σ ps σ' l Hσ Eb. by eapply doCallBody_stack.
    - apply stackKept_refl. }
  simpl in H1, H2. rewrite H1 in E.
  assert (StackFrame.cells (state.frames s1)
            !! length (StackFrame.cells (state.frames s))
          = Some (StackFrame.mk (state.stack s) (ident instr))) as Ec.
  { eapply prefix_lookup_Some; [|exact H2].
    rewrite lookup_app_r by lia. by rewrite Nat.sub_diag. }
  rewrite Ec in E. injection E as _ <-. split; [done|]. simpl.
  etrans; [|exact H2]. by apply prefix_app_r.
Qed.

Lemma instrStep_stack s0 f acc instr acc' :
  stackKept s0 acc.2 →
  instrStep String Name Pos cgOut runtime Do callHandlers wf f acc instr
    = Done acc' →
  stackKept s0 acc'.2.
Proof using handlers_stack wf_stack.
  destruct acc as [[[pathStates ifCond] exit] s].
  destruct acc' as [[[pathStates' ifCond'] exit'] s'].
  simpl. intros Hs E. unfold instrStep in E.
  assert (∀ fs pss,
            ('(pathStates, s) ← doCall String callHandlers wf instr fs pss s;
             Done (pathStates, ifCond, exit, s))
            = Done (pathStates', ifCond', exit', s') →
            stackKept s0 s') as Hcall.
  { intros fs pss Ec. apply bind_Done_inv in Ec as ([p1 s1] & E1 & Ec).
    injection Ec as _ _ _ <-. apply doCall_stack in E1.
    by eapply stackKept_trans. }
  destruct (kind instr) as
    [cond|c|isMap CommaOk| | | | | | |c| |edges|];
    try (by eapply Hcall); try (by injection E as _ _ _ <-).
  - destruct (callees_stack s f instr c) as [Ec1 Ec2].
    destruct (callees cgOut runtime s f instr c) as [s1 outs].
    simpl in Ec1, Ec2.
    assert (stackKept s0 s1) as H1 by (by eapply stackKept_same).
    destruct outs as [|o outs].
    + by injection E as _ _ _ <-.
    + apply bind_Done_inv in E as ([p2 s2] & E2 & E).
      injection E as _ _ _ <-. apply doCall_stack in E2.
      by eapply stackKept_trans.
  - destruct (negb isMap); [by injection E as _ _ _ <-|].
    destruct CommaOk; by eapply Hcall.
  - destruct (callees_stack s f instr c) as [Ec1 Ec2].
    destruct (callees cgOut runtime s f instr c) as [s1 outs].
    simpl in Ec1, Ec2. injection E as _ _ _ <-.
    destruct (addRoots_stack outs s1) as [Er1 Er2].
    eapply stackKept_same; [| |exact Hs]; congruence.
  - destruct (if bool_decide _ then _ else _) as [h pss].
    apply bind_Done_inv in E as (exit1 & _ & E).
    injection E as _ _ _ <-. eapply stackKept_same; [| |exact Hs]; done.
Qed.

Lemma walkBlockBody_stack cache ps exit s cache' exit' s' :
  walkBlockBody Instrs Succs Preds Parent Index String Name Pos cgOut
    runtime Do callHandlers wf wb cache ps exit s
    = Done (cache', exit', s') →
  stackKept s s'.
Proof using handlers_stack wf_stack wb_stack.
  intros E. unfold walkBlockBody in E.
  destruct (PathState.block ps) as [b|]; [|done].
  destruct (state.fns s !! Parent b) as [fInfo|]; [|done].
  destruct (ifDeps fInfo !! Index b) as [mask|]; [|done].
  destruct (PathStateSet.Contains _ _) as [cached similar].
  destruct cached; [injection E as _ _ <-; apply stackKept_refl|].
  destruct (10 <? similar); [by injection E as _ _ <-|].
  unfold walkInstrs in E.
  apply bind_Done_inv in E as ([[[pathStates ifCond] exit1] s1] & E1 & E).
  assert (stackKept s s1) as H1.
  { revert E1.
    apply (forEachM_inv
             (λ acc : PathStateSet.t * option nat * LockSetSet.t
                      * state.t LockOrder, stackKept s acc.2)
             _ _ (instrStep_stack s (Parent b)) _
             (pathStates, ifCond, exit1, s1)).
    apply stackKept_refl. }
  revert E.
  apply (ForEach_inv
           (λ acc : PathStateSet.t * LockSetSet.t * state.t LockOrder,
              stackKept s acc.2)
           _ _ _ (cache', exit', s')); [|exact H1].
  intros [[c1 e1] t1] ps1 [[c2 e2] t2] Ht E2. simpl in *.
  unfold visitSuccs in E2.
  apply bind_Done_inv in E2 as (pss & _ & E2). revert E2.
  apply (forEachM_inv
           (λ acc : PathStateSet.t * LockSetSet.t * state.t LockOrder,
              stackKept s acc.2)); [|exact Ht].
  intros [[c3 e3] t3] ps3 [[c4 e4] t4] H3 E3. simpl in *.
  apply wb_stack in E3. by eapply stackKept_trans.
Qed.

Lemma walkFunctionBody_stack f ps s r s' :
  walkFunctionBody Blocks Instrs Pos livenessFor wb f ps s = Done (r, s') →
  stackKept s s'.
Proof using wb_stack.
  intros E. unfold walkFunctionBody in E. fold visit in E.
  destruct (firstVisit_stack f s) as [V1 V2].
  assert (stackKept s (visit f s)) as Hv
    by (eapply stackKept_same; [| |apply stackKept_refl]; done).
  destruct (Blocks f) as [|entry rest]; [by injection E as _ <-|].
  destruct (state.fns (visit f s) !! f) as [fInfo|] eqn:Ef; [|done].
  destruct (PathStateMap.Get (exitLockSets fInfo) ps) as [memo|] eqn:Eg;
    [by injection E as _ <-|].
  apply bind_Done_inv in E as ([[c e] s2] & E2 & E). injection E as _ <-.
  apply wb_stack in E2.
  eapply stackKept_same; [| |eapply stackKept_trans; [exact Hv|]].
  - done.
  - done.
  - eapply stackKept_trans; [|exact E2].
    eapply stackKept_same; [| |apply stackKept_refl]; done.
Qed.

End balanced.

Lemma walkers_balanced :
  (∀ name h s ps instr l,
     callHandlers name = Some h → stackKept s (h s ps instr l).1) →
  ∀ n,
    (∀ f ps s r s', walkF n f ps s = Done (r, s') → stackKept s s') ∧
    (∀ cache ps exit s cache' exit' s',
       walkB n cache ps exit s = Done (cache', exit', s') → stackKept s s').
Proof.
  intros Hh. induction n as [|n [IHf IHb]]; [by split|]. split.
  - intros f ps s r s' E. unfold walkF in E. cbn [walkFunction] in E.
    by eapply walkFunctionBody_stack.
  - intros cache ps exit s cache' exit' s' E.
    unfold walkB in E. cbn [walkBlock] in E.
    by eapply (walkBlockBody_stack (walkF n) (walkB n) Hh IHf IHb).
Qed.

(** *** The block cache *)

Lemma cacheKept_refl c : cacheKept c c.
Proof. by intros key. Qed.

Lemma cacheKept_trans a b c : cacheKept a b → cacheKept b c → cacheKept a c.
Proof. intros H1 H2 key. etrans; [apply H1|apply H2]. Qed.

Lemma cacheKept_Add set ps : cacheKept set (PathStateSet.Add set ps).
Proof.
  intros key. rewrite bucket_Add. destruct (existsb _ _); [done|].
  destruct (decide _); [|done]. by apply prefix_app_r.
Qed.

Lemma Contains_kept c c' q :
  cacheKept c c' → (PathStateSet.Contains c q).1 = true →
  (PathStateSet.Contains c' q).1 = true.
Proof.
  intros Hk. unfold PathStateSet.Contains. simpl.
  destruct (Hk (PathState.HashKey q)) as [ext ->].
  rewrite existsb_app. by intros ->.
Qed.

Lemma walkBlockBody_cache
    (wf : nat → PathState.t → state.t LockOrder →
          Res (LockSetSet.t * state.t LockOrder))
    (wb : PathStateSet.t → PathState.t → LockSetSet.t → state.t LockOrder →
          Res (PathStateSet.t * LockSetSet.t * state.t LockOrder)) :
  (∀ cache ps exit s cache' exit' s',
     wb cache ps exit s = Done (cache', exit', s') → cacheKept cache cache') →
  ∀ cache ps exit s cache' exit' s',
    walkBlockBody Instrs Succs Preds Parent Index String Name Pos cgOut
      runtime Do callHandlers wf wb cache ps exit s
      = Done (cache', exit', s') →
    cacheKept cache cache' ∧
    ∀ b fInfo mask,
      PathState.block ps = Some b → state.fns s !! Parent b = Some fInfo →
      ifDeps fInfo !! Index b = Some mask →
      ((PathStateSet.Contains cache (PathState.withMask mask ps)).1 = true →
       (cache', exit', s') = (cache, exit, s)) ∧
      ((PathStateSet.Contains cache (PathState.withMask mask ps)).2 ≤ 10 →
       (PathStateSet.Contains cache' (PathState.withMask mask ps)).1 = true).
Proof.
  intros Hwb cache ps exit s cache' exit' s' E.
  unfold walkBlockBody in E.
  destruct (PathState.block ps) as [b|]; [|done].
  destruct (state.fns s !! Parent b) as [fInfo|] eqn:Ef; [|done].
  destruct (ifDeps fInfo !! Index b) as [mask|] eqn:Em; [|done].
  destruct (PathStateSet.Contains cache (PathState.withMask mask ps))
    as [cached similar] eqn:Ec.
  assert (∀ (P : gset nat → Prop), P mask →
            ∀ b0 fi0 mask0,
              Some b = Some b0 → state.fns s !! Parent b0 = Some fi0 →
              ifDeps fi0 !! Index b0 = Some mask0 → P mask0) as Hsame.
  { intros P HP b0 fi0 mask0 [= <-] Ef0 Em0.
    rewrite Ef in Ef0. injection Ef0 as <-.
    rewrite Em in Em0. by injection Em0 as <-. }
  destruct cached.
  { injection E as <- <- <-. split; [apply cacheKept_refl|].
    apply Hsame. rewrite Ec. simpl. split; [done|]. done. }
  destruct (10 <? similar) eqn:Esim.
  { injection E as <- <- <-. split; [apply cacheKept_refl|].
    apply Hsame. rewrite Ec. simpl.
    apply Nat.ltb_lt in Esim. split; [done|lia]. }
  unfold walkInstrs in E.
  apply bind_Done_inv in E as ([[[pathStates ifCond] exit1] s1] & _ & E).
  assert (cacheKept
            (PathStateSet.Add cache (PathState.withMask mask ps)) cache')
    as Hk.
  { revert E.
    apply (ForEach_inv
             (λ acc : PathStateSet.t * LockSetSet.t * state.t LockOrder,
                cacheKept
                  (PathStateSet.Add cache (PathState.withMask mask ps))
                  acc.1.1)
             _ _ _ (cache', exit', s')); [|apply cacheKept_refl].
    intros [[c1 e1] t1] ps1 [[c2 e2] t2] Ht E2. simpl in *.
    unfold visitSuccs in E2.
    apply bind_Done_inv in E2 as (pss & _ & E2). revert E2.
    apply (forEachM_inv
             (λ acc : PathStateSet.t * LockSetSet.t * state.t LockOrder,
                cacheKept
                  (PathStateSet.Add cache (PathState.withMask mask ps))
                  acc.1.1)); [|exact Ht].
    intros [[c3 e3] t3] ps3 [[c4 e4] t4] H3 E3. simpl in *.
    apply Hwb in E3. by eapply cacheKept_trans. }
  split; [eapply cacheKept_trans; [apply cacheKept_Add|exact Hk]|].
  apply Hsame. rewrite Ec. simpl. split; [done|]. intros _.
  eapply Contains_kept; [exact Hk|].
  apply Contains_Add_same.
Qed.

Lemma walkBlock_cache n : ∀ cache ps exit s cache' exit' s',
  walkB n cache ps exit s = Done (cache', exit', s') →
  cacheKept cache cache'.
Proof.
  induction n as [|n IH]; intros cache ps exit s cache' exit' s' E; [done|].
  unfold walkB in E. cbn [walkBlock] in E.
  by apply (walkBlockBody_cache _ _ IH) in E as [E _].
Qed.

(** X17.  For an external function, one without blocks, [walkFunction]
    returns the set of the entry lock set alone, whatever the path state:
    the function is assumed not to affect locks.  The first visit records
    the function and warns "external function"; a later visit changes
    nothing and warns no more.  The result is not memoized. *)
Theorem walkFunction_assumes_external_functions_keep_locks
    n f ps (s : state.t LockOrder) :
  Blocks f = [] →
  let s' := visit f s in
  let r := LockSetSet.mk
             {[ LockSet.Key Pos (state.frames s) (PathState.lockSet ps)
                  := PathState.lockSet ps ]} in
  walkF (S n) f ps s = Done (r, s') ∧
  walkF (S n) f ps s' = Done (r, s') ∧
  state.warnings s' =
    state.warnings s ++
    match state.fns s !! f with
    | Some _ => []
    | None => [ExternalFunction f]
    end ∧
  state.fns s' !! f =
    Some (default (mkInfo PathStateMap.NewPathStateMap
                          (livenessFor f (ifInstrs Blocks Instrs f)))
                  (state.fns s !! f)).
Proof.
  intros Eb s' r.
  assert (state.frames s' = state.frames s) as Efr
    by apply firstVisit_stack.
  assert (visit f s' = s') as Eagain.
  { unfold s', visit, firstVisit.
    destruct (state.fns s !! f) eqn:Ef; [by rewrite Ef|].
    rewrite Eb. simpl. by rewrite lookup_insert_eq. }
  split; [|split; [|split]].
  - unfold walkF. cbn [walkFunction]. unfold walkFunctionBody.
    fold visit. fold s'. rewrite Eb, Efr. unfold LockSetSet.Add. simpl.
    by rewrite insert_empty.
  - unfold walkF. cbn [walkFunction]. unfold walkFunctionBody.
    fold visit. rewrite Eagain, Eb, Efr. unfold LockSetSet.Add. simpl.
    by rewrite insert_empty.
  - unfold s', visit, firstVisit.
    destruct (state.fns s !! f); [by rewrite app_nil_r|]. by rewrite Eb.
  - unfold s', visit, firstVisit.
    destruct (state.fns s !! f) eqn:Ef; [by rewrite Ef|].
    rewrite Eb. simpl. by rewrite lookup_insert_eq.
Qed.

(** X18.  [walkFunction] memoizes what it returns: when a call for a
    function with a body returns, the memoization cache of the function
    holds the returned exit lock sets for the entry path state, and a
    further call with that path state returns them at once and leaves the
    analysis state as it is.  The call handlers are to keep the memoized
    results. *)
Theorem walkFunction_stores_what_it_returns
    n f ps (s : state.t LockOrder) r s' entry rest :
  Blocks f = entry :: rest →
  (∀ name h t q instr l,
     callHandlers name = Some h → memoKeeps t (h t q instr l).1) →
  walkF n f ps s = Done (r, s') →
  ∃ fInfo,
    state.fns s' !! f = Some fInfo ∧
    PathStateMap.Get (exitLockSets fInfo) ps = Some r ∧
    ∀ m, walkF (S m) f ps s' = Done (r, s').
Proof.
  intros Eb Hh E. destruct n as [|n]; [done|].
  unfold walkF in E. cbn [walkFunction] in E. unfold walkFunctionBody in E.
  fold visit in E. rewrite Eb in E.
  destruct (state.fns (visit f s) !! f) as [fInfo|] eqn:Ef; [|done].
  destruct (PathStateMap.Get (exitLockSets fInfo) ps) as [memo|] eqn:Eg.
  - injection E as <- <-. exists fInfo. split; [done|]. split; [done|].
    intros m. by eapply walkFunction_hit.
  - apply bind_Done_inv in E as ([[c e] s2] & E2 & E). injection E as <- <-.
    apply (walkers_keep Blocks Instrs Succs Preds Parent Index String Name
             Pos cgOut runtime livenessFor Do callHandlers Hh n) in E2.
    destruct (E2 f _ (fns_setExit f ps (LockSetSet.mk ∅) _ fInfo Ef))
      as (fi2 & Ef2 & _).
    pose proof (fns_setExit f ps e s2 fi2 Ef2) as Ef3.
    eexists. split; [exact Ef3|]. simpl.
    split; [apply Get_Set_same|].
    intros m. eapply walkFunction_hit; [exact Eb|exact Ef3|].
    apply Get_Set_same.
Qed.

(** X19.  The walkers leave the call stack of the analysis as they find
    it: [doCall] pushes the call before it walks the callees and pops it
    afterwards, so that [walkFunction] and [walkBlock] return with
    [s.stack] as it was at the call; and the frames that were there are
    never changed.  The call handlers are to do the same. *)
Theorem walkers_leave_the_stack_balanced :
  (∀ name h s ps instr l,
     callHandlers name = Some h → stackKept s (h s ps instr l).1) →
  ∀ n,
    (∀ f ps s r s', walkF n f ps s = Done (r, s') → stackKept s s') ∧
    (∀ cache ps exit s cache' exit' s',
       walkB n cache ps exit s = Done (cache', exit', s') →
       stackKept s s') ∧
    (∀ instr fs pathStates s pathStates' s',
       doCall String callHandlers (walkF n) instr fs pathStates s
         = Done (pathStates', s') →
       stackKept s s').
Proof.
  intros Hh n. destruct (walkers_balanced Hh n) as [Hf Hb].
  split; [exact Hf|]. split; [exact Hb|].
  intros instr fs pathStates s pathStates' s'.
  by apply doCall_stack.
Qed.

(** X20.  [walkBlock] records the path states it visits in the block
    cache and visits none twice: the cache it returns holds the path
    states of the cache it got, in their places; an entry path state that
    is in the cache makes the call return at once, with nothing changed;
    an entry path state that is not, and whose bucket holds no more than
    10 path states, is in the cache when the call returns, so that a later
    call with it returns at once. *)
Theorem walkBlock_records_the_states_it_visits
    n cache ps exit (s : state.t LockOrder) cache' exit' s' b fInfo mask :
  PathState.block ps = Some b →
  state.fns s !! Parent b = Some fInfo →
  ifDeps fInfo !! Index b = Some mask →
  walkB n cache ps exit s = Done (cache', exit', s') →
  cacheKept cache cache' ∧
  ((PathStateSet.Contains cache (PathState.withMask mask ps)).1 = true →
   (cache', exit', s') = (cache, exit, s)) ∧
  ((PathStateSet.Contains cache (PathState.withMask mask ps)).2 ≤ 10 →
   (PathStateSet.Contains cache' (PathState.withMask mask ps)).1 = true) ∧
  (∀ m exit2 s2 fInfo2,
     (PathStateSet.Contains cache' (PathState.withMask mask ps)).1 = true →
     state.fns s2 !! Parent b = Some fInfo2 →
     ifDeps fInfo2 !! Index b = Some mask →
     walkB (S m) cache' ps exit2 s2 = Done (cache', exit2, s2)).
Proof.
  intros Eb Ef Em E. destruct n as [|n]; [done|].
  unfold walkB in E. cbn [walkBlock] in E.
  apply (walkBlockBody_cache _ _ (walkBlock_cache n)) in E as [Hk Hc].
  destruct (Hc b fInfo mask Eb Ef Em) as [H1 H2].
  split; [done|]. split; [done|]. split; [done|].
  intros m exit2 s2 fInfo2 Hin Ef2 Em2.
  unfold walkB. cbn [walkBlock]. unfold walkBlockBody.
  rewrite Eb, Ef2, Em2.
  destruct (PathStateSet.Contains cache' (PathState.withMask mask ps))
    as [cached similar]. simpl in Hin. by rewrite Hin.
Qed.

End walker_facts.

Lemma walkFunction_assumes_external_functions_keep_locks_witness :
  let s' :=
    firstVisit Examples.Blocks Examples.Instrs Examples.livenessFor 4
      Examples.s0 in
  let r := LockSetSet.mk
             {[ LockSet.Key Examples.Pos (state.frames Examples.s0)
                  (Examples.heldAt 2) := Examples.heldAt 2 ]} in
  Examples.walkFunction 1 4 (Examples.at1 2) Examples.s0 = Done (r, s') ∧
  Examples.walkFunction 1 4 (Examples.at1 2) s' = Done (r, s') ∧
  state.warnings s' = [ExternalFunction 4] ∧
  is_Some (state.fns s' !! 4).
Proof.
  destruct (walkFunction_assumes_external_functions_keep_locks
              Examples.Blocks Examples.Instrs Examples.Succs Examples.Preds
              Examples.Parent Examples.Index Examples.String Examples.String
              Examples.Pos Examples.cgOut Examples.runtime
              Examples.livenessFor Examples.Do Examples.callHandlers
              0 4 (Examples.at1 2) Examples.s0 eq_refl)
    as (H1 & H2 & H3 & H4).
  split; [exact H1|]. split; [exact H2|]. split; [exact H3|].
  rewrite H4. eauto.
Defined.

Lemma InternN_prefix n : ∀ fr sf fr' q,
  StackFrame.InternN n fr sf = Some (fr', q) →
  StackFrame.cells fr `prefix_of` StackFrame.cells fr'.
Proof.
  induction n as [|n IH]; intros fr [a|] fr' q E; simpl in E;
    try (by injection E as <- _); try done.
  destruct (StackFrame.cells fr !! a) as [c|]; [|done].
  destruct (StackFrame.internedStackFrames fr !! StackFrame.key c);
    [by injection E as <- _|].
  destruct (StackFrame.InternN n fr (StackFrame.parent c))
    as [[fr1 p]|] eqn:E1; [|done].
  apply IH in E1.
  destruct (StackFrame.internedStackFrames fr1 !! (p, StackFrame.call c));
    injection E as <- _; simpl; (etrans; [exact E1|by apply prefix_app_r]).
Qed.

Lemma Recursive_handlers_keep_the_stack name h
    (s : state.t Recursive.LockOrder) ps instr l :
  Recursive.callHandlers name = Some h → stackKept s (h s ps instr l).1.
Proof.
  unfold Recursive.callHandlers. intros E.
  repeat case_bool_decide; try done; injection E as <-.
  - unfold Recursive.handleLock.
    destruct (StackFrame.Intern (state.frames s) (state.stack s))
      as [[fr stk]|] eqn:Ei; [|by split].
    destruct (internAll _ _) as [h ids].
    destruct (LockSet.Plus _ _ _ _) as [h' ls']. split; [done|]. simpl.
    by eapply InternN_prefix.
  - unfold Recursive.handleUnlock.
    destruct (LockSet.Minus _ _ _) as [h' ls']. by split.
Qed.

Lemma Recursive_handlers_keep_the_memo name h
    (s : state.t Recursive.LockOrder) ps instr l :
  Recursive.callHandlers name = Some h → memoKeeps s (h s ps instr l).1.
Proof.
  unfold Recursive.callHandlers. intros E.
  assert (∀ s' : state.t Recursive.LockOrder,
            state.fns s' = state.fns s → memoKeeps s s') as Hsame.
  { intros s' Es f fi Ef. exists fi. rewrite Es. split; [done|].
    apply psmKeeps_refl. }
  repeat case_bool_decide; try done; injection E as <-; apply Hsame.
  - unfold Recursive.handleLock.
    destruct (StackFrame.Intern (state.frames s) (state.stack s))
      as [[fr stk]|]; [|done].
    destruct (internAll _ _) as [h ids].
    by destruct (LockSet.Plus _ _ _ _) as [h' ls'].
  - unfold Recursive.handleUnlock.
    by destruct (LockSet.Minus _ _ _) as [h' ls'].
Qed.

Lemma walkFunction_stores_what_it_returns_witness :
  ∃ r s' fInfo,
    Recursive.walkFunctionHeld 5 0 Recursive.ps0 Recursive.s0 = Done (r, s') ∧
    state.fns s' !! 0 = Some fInfo ∧
    PathStateMap.Get (exitLockSets fInfo) Recursive.ps0 = Some r ∧
    ∀ m, Recursive.walkFunctionHeld (S m) 0 Recursive.ps0 s' = Done (r, s').
Proof.
  destruct (Recursive.walkFunctionHeld 5 0 Recursive.ps0 Recursive.s0)
    as [[r s']| |] eqn:E; [|vm_compute in E; discriminate E..].
  destruct (walkFunction_stores_what_it_returns
              Recursive.Blocks Recursive.InstrsHeld Recursive.Succs
              Recursive.Preds Recursive.Parent Recursive.Index
              Recursive.String Recursive.String Examples.Pos Examples.cgOut
              Examples.runtime Recursive.livenessFor Recursive.Do
              Recursive.callHandlers 5 0 Recursive.ps0 Recursive.s0 r s'
              0 [] eq_refl Recursive_handlers_keep_the_memo E)
    as (fInfo & H1 & H2 & H3).
  exists r, s', fInfo. split; [done|]. split; [done|]. split; [done|].
  exact H3.
Defined.

Lemma walkers_leave_the_stack_balanced_witness :
  ∃ r s',
    Recursive.walkFunctionHeld 5 0 Recursive.ps0 Recursive.s0 = Done (r, s') ∧
    stackKept Recursive.s0 s'.
Proof.
  destruct (Recursive.walkFunctionHeld 5 0 Recursive.ps0 Recursive.s0)
    as [[r s']| |] eqn:E; [|vm_compute in E; discriminate E..].
  exists r, s'. split; [done|].
  exact (proj1 (walkers_leave_the_stack_balanced
                  Recursive.Blocks Recursive.InstrsHeld Recursive.Succs
                  Recursive.Preds Recursive.Parent Recursive.Index
                  Recursive.String Recursive.String Examples.Pos
                  Examples.cgOut Examples.runtime Recursive.livenessFor
                  Recursive.Do Recursive.callHandlers
                  Recursive_handlers_keep_the_stack 5)
           0 Recursive.ps0 Recursive.s0 r s' E).
Defined.

Lemma walkBlock_records_the_states_it_visits_witness :
  ∃ cache' exit' s',
    Examples.walkBlock 3 PathStateSet.NewPathStateSet (Examples.at0 None)
      LockSetSet.NewLockSetSet Examples.s0 = Done (cache', exit', s') ∧
    cacheKept PathStateSet.NewPathStateSet cache' ∧
    (PathStateSet.Contains cache'
       (PathState.withMask ∅ (Examples.at0 None))).1 = true ∧
    ∀ m exit2,
      Examples.walkBlock (S m) cache' (Examples.at0 None) exit2 Examples.s0
      = Done (cache', exit2, Examples.s0).
Proof.
  destruct (Examples.walkBlock 3 PathStateSet.NewPathStateSet
              (Examples.at0 None) LockSetSet.NewLockSetSet Examples.s0)
    as [[[cache' exit'] s']| |] eqn:E; [|vm_compute in E; discriminate E..].
  destruct (walkBlock_records_the_states_it_visits
              Examples.Blocks Examples.Instrs Examples.Succs Examples.Preds
              Examples.Parent Examples.Index Examples.String Examples.String
              Examples.Pos Examples.cgOut Examples.runtime
              Examples.livenessFor Examples.Do Examples.callHandlers
              3 PathStateSet.NewPathStateSet (Examples.at0 None)
              LockSetSet.NewLockSetSet Examples.s0 cache' exit' s' 0
              (mkInfo PathStateMap.NewPathStateMap (Examples.livenessFor 0 []))
              ∅ eq_refl eq_refl eq_refl E)
    as (H1 & _ & H3 & H4).
  exists cache', exit', s'. split; [done|]. split; [done|].
  assert ((PathStateSet.Contains cache'
             (PathState.withMask ∅ (Examples.at0 None))).1 = true) as Hin
    by (apply H3; vm_compute; lia).
  split; [exact Hin|]. intros m exit2.
  by apply (H4 m exit2 Examples.s0
              (mkInfo PathStateMap.NewPathStateMap
                 (Examples.livenessFor 0 []))).
Defined.

(** ** [blockPos] *)

Section block_positions.
Variable Blocks : nat → list nat.
Variable Instrs : nat → list Instruction.
Variable Preds : nat → list nat.
Variable Parent Index : nat → nat.
Variable Pos : nat → nat.
Variable FuncPos : nat → nat.

Let from := blockPosFrom Blocks Instrs Preds Parent Index Pos FuncPos.

Lemma unmarked_insert (v : list bool) : ∀ i,
  v !! i = Some false →
  S (length (filter (λ x, x = false) (<[i := true]> v)))
  = length (filter (λ x, x = false) v).
Proof.
  induction v as [|x v IH]; intros [|i] E; simpl in *; try done.
  - by injection E as ->.
  - specialize (IH i E). destruct x; simpl; by rewrite ?IH.
Qed.

Lemma unmarked_replicate n :
  length (filter (λ x, x = false) (replicate n false)) = n.
Proof.
  induction n as [|n IH]; simpl; [done|]. by rewrite IH.
Qed.

(** A turn for a slice with fewer unmarked blocks than turns left does
    not run out of turns. *)
Lemma blockPosFrom_marked n : ∀ v b,
  length (filter (λ x, x = false) v) < n →
  from n (Some v) b ≠ OutOfFuel.
Proof.
  induction n as [|n IH]; intros v b H; [lia|]. unfold from. simpl.
  destruct (v !! Index b) as [[|]|] eqn:E; try done.
  destruct (firstReal Instrs Pos b); [done|].
  destruct (Preds b) as [|pred preds]; [done|].
  apply IH. pose proof (unmarked_insert v (Index b) E). lia.
Qed.

Lemma blockPosFrom_more n : ∀ v b r,
  from n v b = r → r ≠ OutOfFuel → ∀ m, n ≤ m → from m v b = r.
Proof.
  induction n as [|n IH]; intros v b r E Hr m Hm; [by subst r|].
  destruct m as [|m]; [lia|]. unfold from in *. simpl in *.
  destruct v as [v|].
  - destruct (v !! Index b) as [[|]|]; try done.
    destruct (firstReal Instrs Pos b); [done|].
    destruct (Preds b) as [|pred preds]; [done|].
    apply (IH _ _ _ E Hr). lia.
  - destruct (firstReal Instrs Pos b); [done|].
    destruct (Preds b) as [|pred preds]; [done|].
    destruct (Index b <? _); [|done]. apply (IH _ _ _ E Hr). lia.
Qed.

(** X21.  [blockPos] returns for every control-flow graph, also when the
    first predecessors of the blocks lead around a cycle: one turn more
    than the function has blocks is enough, and more turns give the same
    result.  It returns the position of the first instruction of the
    block that is no phi and has a valid position, when there is one, and
    the position of the function when there is none and the block has no
    predecessor.  A position it returns for another block is a valid
    position of an instruction or the position of a function. *)
Theorem blockPos_returns_a_position (b : nat) :
  blockPos Blocks Instrs Preds Parent Index Pos FuncPos b ≠ OutOfFuel ∧
  (∀ m, S (length (Blocks (Parent b))) ≤ m →
        blockPosFrom Blocks Instrs Preds Parent Index Pos FuncPos m None b
        = blockPos Blocks Instrs Preds Parent Index Pos FuncPos b) ∧
  (∀ i, firstReal Instrs Pos b = Some i →
        blockPos Blocks Instrs Preds Parent Index Pos FuncPos b
        = Done (Pos (ident i)) ∧
        Pos (ident i) ≠ 0 ∧ i ∈ Instrs b) ∧
  (firstReal Instrs Pos b = None → Preds b = [] →
   blockPos Blocks Instrs Preds Parent Index Pos FuncPos b
   = Done (FuncPos (Parent b))) ∧
  (∀ n v b0 p,
     blockPosFrom Blocks Instrs Preds Parent Index Pos FuncPos n v b0
     = Done p →
               (∃ b' i, i ∈ Instrs b' ∧ p = Pos (ident i) ∧ p ≠ 0) ∨
               (∃ b', p = FuncPos (Parent b'))).
Proof.
  assert (blockPos Blocks Instrs Preds Parent Index Pos FuncPos b
          ≠ OutOfFuel) as Hret.
  { unfold blockPos. simpl.
    destruct (firstReal Instrs Pos b); [done|].
    destruct (Preds b) as [|pred preds]; [done|].
    destruct (Index b <? _) eqn:Ei; [|done].
    apply Nat.ltb_lt in Ei. apply blockPosFrom_marked.
    pose proof (unmarked_insert
                  (replicate (length (Blocks (Parent b))) false) (Index b))
      as H.
    rewrite unmarked_replicate in H.
    rewrite lookup_replicate_2 in H by (by rewrite length_replicate in Ei).
    specialize (H eq_refl). lia. }
  assert (∀ i, firstReal Instrs Pos b = Some i →
               Pos (ident i) ≠ 0 ∧ i ∈ Instrs b) as Hreal.
  { intros i E. unfold firstReal in E. apply find_some in E as [Hin E].
    split; [|by apply list_elem_of_In].
    apply negb_true_iff, orb_false_iff in E as [_ E].
    by apply Nat.eqb_neq in E. }
  split; [exact Hret|]. split; [|split; [|split]].
  - intros m Hm. by apply (blockPosFrom_more _ _ _ _ eq_refl Hret).
  - intros i E. split; [|by apply Hreal].
    unfold blockPos. simpl. by rewrite E.
  - intros E Ep. unfold blockPos. simpl. by rewrite E, Ep.
  - clear Hret Hreal. intros n.
    induction n as [|n IH]; intros v b0 p E; [done|].
    unfold from in *. simpl in E.
    assert (∀ i, firstReal Instrs Pos b0 = Some i →
                 Pos (ident i) ≠ 0 ∧ i ∈ Instrs b0) as Hreal.
    { intros i Ei. unfold firstReal in Ei.
      apply find_some in Ei as [Hin Ei].
      split; [|by apply list_elem_of_In].
      apply negb_true_iff, orb_false_iff in Ei as [_ Ei].
      by apply Nat.eqb_neq in Ei. }
    destruct v as [v|].
    + destruct (v !! Index b0) as [[|]|]; [| |done].
      * injection E as <-. right. by exists b0.
      * destruct (firstReal Instrs Pos b0) as [i|] eqn:Ei.
        { injection E as <-. left. exists b0, i.
          destruct (Hreal i eq_refl). done. }
        destruct (Preds b0) as [|pred preds].
        { injection E as <-. right. by exists b0. }
        by eapply IH.
    + destruct (firstReal Instrs Pos b0) as [i|] eqn:Ei.
      { injection E as <-. left. exists b0, i.
        destruct (Hreal i eq_refl). done. }
      destruct (Preds b0) as [|pred preds].
      { injection E as <-. right. by exists b0. }
      destruct (Index b0 <? _); [|done]. by eapply IH.
Qed.

End block_positions.

(** ** [callees] *)

(** X22.  [callees] changes nothing but the warnings, and warns "no call
    graph" only for a call that is no built-in and has no static callee in
    a function without a node in the call graph; the result is empty then.
    A static callee is the only callee.  With a node in the call graph the
    callees are those of the edges of the node whose site is the call, and
    none when no edge has that site.  A built-in has one callee at most,
    and none unless it is [append], [close], [copy] or [delete]. *)
Theorem callees_warns_only_without_call_graph
    {LockOrder : Type} (cgOut : nat → option (list (nat * nat)))
    (runtime : runtimeFns) (s : state.t LockOrder) (f : nat)
    (call : Instruction) (c : CallCommon) :
  let r := callees cgOut runtime s f call c in
  (r.1 = s ∨
   r = (state.warnl s (NoCallGraph (ident call)), []) ∧
   Builtin c = None ∧ StaticCallee c = None ∧ cgOut f = None) ∧
  (∀ fn, Builtin c = None → StaticCallee c = Some fn → r = (s, [fn])) ∧
  (∀ out, Builtin c = None → StaticCallee c = None → cgOut f = Some out →
          r.1 = s ∧ ∀ fn, fn ∈ r.2 ↔ (ident call, fn) ∈ out) ∧
  (Builtin c = None → StaticCallee c = None → cgOut f = None →
   r = (state.warnl s (NoCallGraph (ident call)), [])) ∧
  (∀ name str, Builtin c = Some (name, str) →
               r.1 = s ∧ length r.2 ≤ 1 ∧
               (name ∉ ["append"; "close"; "copy"; "delete"]%string →
                r.2 = [])).
Proof.
  intros r. unfold r, callees. split; [|split; [|split; [|split]]].
  - destruct (Builtin c) as [[name str]|].
    + left. repeat case_bool_decide; try done. by destruct str.
    + destruct (StaticCallee c); [by left|].
      destruct (cgOut f); [by left|]. by right.
  - by intros fn -> ->.
  - intros out -> -> ->. split; [done|]. intros fn. simpl.
    rewrite list_elem_of_fmap. split.
    + intros ([site fn'] & -> & H). apply list_elem_of_filter in H as [H1 H2].
      simpl in H1. by subst site.
    + intros H. exists (ident call, fn). split; [done|].
      by apply list_elem_of_filter.
  - by intros -> -> ->.
  - intros name str ->. repeat case_bool_decide; subst;
      try (destruct str); simpl; repeat apply conj; try done; try lia;
      intros Hn; exfalso; apply Hn; set_unfold; tauto.
Qed.

(** ** [LockSet.String], [PlusLabel] and [MinusLabel] *)

Section lockset_text.
Import LockSet.

Lemma append_assoc (a b c : string) : (a +:+ b) +:+ c = a +:+ (b +:+ c).
Proof.
  induction a as [|x a IH]; [done|].
  change (String.String x ((a +:+ b) +:+ c)
          = String.String x (a +:+ b +:+ c)).
  by f_equal.
Qed.

Lemma append_nil (a : string) : a +:+ "" = a.
Proof.
  induction a as [|x a IH]; [done|].
  change (String.String x (a +:+ "") = String.String x a). by f_equal.
Qed.

(** The loop of [String] over the ids [ids], from the text [b] after a
    first label was written: every label comes with a comma before it. *)
Lemma String_loop_rest h set ids : ∀ labels b,
  Forall (λ i, Bit set i = true) ids →
  Forall2 (λ i l, StringSpace.s (spaceAt h (sp set)) !! i = Some l)
          ids labels →
  foldl
    (λ acc i,
       '(b, first) ← acc;
       if Bit set i then
         let b := if (first : bool) then b else b +:+ "," in
         label ← StringSpace.s (spaceAt h (sp set)) !! i;
         Some (b +:+ label, false)
       else Some (b, first))
    (Some (b, false)) ids
  = Some (b +:+ foldr (λ l r, "," +:+ l +:+ r) "" labels, false).
Proof.
  induction ids as [|i ids IH]; intros labels b Hb Hl.
  - inversion Hl; subst. simpl. by rewrite append_nil.
  - inversion Hl as [|? l ? labels' Ei Hl']; subst.
    inversion Hb as [|? ? Hi Hb']; subst.
    simpl. rewrite Hi, Ei. simpl. rewrite (IH labels' _ Hb' Hl').
    by rewrite !append_assoc.
Qed.

Lemma concat_commas l labels :
  String.concat "," (l :: labels)
  = l +:+ foldr (λ l r, "," +:+ l +:+ r) "" labels.
Proof.
  revert l. induction labels as [|l' labels IH]; intros l.
  - simpl. by rewrite append_nil.
  - change (String.concat "," (l :: l' :: labels))
      with (l +:+ "," +:+ String.concat "," (l' :: labels)).
    by rewrite IH.
Qed.

(** The loop of [String] passes over the ids that are no locks. *)
Lemma String_loop_skip h set ids : ∀ acc,
  foldl
    (λ acc i,
       '(b, first) ← acc;
       if Bit set i then
         let b := if (first : bool) then b else b +:+ "," in
         label ← StringSpace.s (spaceAt h (sp set)) !! i;
         Some (b +:+ label, false)
       else Some (b, first))
    acc ids
  = foldl
      (λ acc i,
         '(b, first) ← acc;
         if Bit set i then
           let b := if (first : bool) then b else b +:+ "," in
           label ← StringSpace.s (spaceAt h (sp set)) !! i;
           Some (b +:+ label, false)
         else Some (b, first))
      acc (filter (λ i, Is_true (Bit set i)) ids).
Proof.
  induction ids as [|i ids IH]; intros acc; [done|].
  destruct (Bit set i) eqn:Ei.
  - rewrite filter_cons_True by (rewrite Ei; exact I). simpl. apply IH.
  - rewrite filter_cons_False by (rewrite Ei; intros []). simpl.
    rewrite <- IH.
    f_equal. destruct acc as [[b first]|]; simpl; [|done]. by rewrite Ei.
Qed.

Lemma String_loop_None h set ids :
  foldl
    (λ acc i,
       '(b, first) ← acc;
       if Bit set i then
         let b := if (first : bool) then b else b +:+ "," in
         label ← StringSpace.s (spaceAt h (sp set)) !! i;
         Some (b +:+ label, false)
       else Some (b, first))
    None ids
  = None.
Proof. by induction ids. Qed.

Lemma String_loop_panics h set k ids : ∀ acc,
  Bit set k = true → StringSpace.s (spaceAt h (sp set)) !! k = None →
  k ∈ ids →
  foldl
    (λ acc i,
       '(b, first) ← acc;
       if Bit set i then
         let b := if (first : bool) then b else b +:+ "," in
         label ← StringSpace.s (spaceAt h (sp set)) !! i;
         Some (b +:+ label, false)
       else Some (b, first))
    acc ids
  = None.
Proof.
  intros acc Hk Ek Hin. revert acc.
  induction ids as [|i ids IH]; intros acc; [by apply elem_of_nil in Hin|].
  simpl. destruct (decide (i = k)) as [->|Hne].
  - destruct acc as [[b first]|]; simpl; [|apply String_loop_None].
    rewrite Hk, Ek. simpl. apply String_loop_None.
  - apply IH. apply elem_of_cons in Hin as [->|Hin]; done.
Qed.

Lemma labels_exist (sl : list string) (ids : list nat) :
  Forall (λ i, i < length sl) ids →
  ∃ labels, Forall2 (λ i l, sl !! i = Some l) ids labels.
Proof.
  induction 1 as [|i ids Hi _ [labels IH]]; [by exists []|].
  destruct (lookup_lt_is_Some_2 sl i Hi) as [l El].
  exists (l :: labels). by constructor.
Qed.

(** Interning the labels of a points-to set keeps the space one that
    [Intern] builds, keeps the strings it has, and returns indices of the
    space it leaves. *)
Lemma internAll_spec s : ∀ sp,
  spaceOK sp →
  spaceOK (internAll sp s).1 ∧
  StringSpace.s sp `prefix_of` StringSpace.s (internAll sp s).1 ∧
  Forall (λ id, id < length (StringSpace.s (internAll sp s).1))
         (internAll sp s).2.
Proof.
  induction s as [|l s IH]; intros sp Hsp; simpl; [done|].
  pose proof (spaceOK_Intern sp l Hsp) as H1.
  pose proof (Intern_known sp l) as Hk.
  assert (StringSpace.s sp `prefix_of` StringSpace.s (StringSpace.Intern sp l).1)
    as Hp.
  { unfold StringSpace.Intern. destruct (StringSpace.m sp !! l); simpl;
      [done|by apply prefix_app_r]. }
  destruct (StringSpace.Intern sp l) as [sp1 id]. simpl in *.
  destruct (IH sp1 H1) as (G1 & G2 & G3).
  destruct (internAll sp1 s) as [sp2 ids]. simpl in *.
  split; [done|]. split; [by etrans|]. constructor; [|done].
  apply (H1 l id) in Hk. apply lookup_lt_Some in Hk.
  apply prefix_length in G2. lia.
Qed.

Lemma Minus_space s : ∀ h set,
  spaceAt (Minus h set s).1 (sp set) = (internAll (spaceAt h (sp set)) s).1 ∧
  sp (Minus h set s).2 = sp set.
Proof.
  unfold Minus.
  induction s as [|l s IH]; intros h set; simpl; [done|].
  destruct (spaceAt_InternAt h (sp set) l) as [E1 E2].
  destruct (InternAt h (sp set) l) as [h' id]. simpl in E1, E2.
  destruct (StringSpace.Intern (spaceAt h (sp set)) l) as [sp1 id1].
  simpl in E1, E2. subst id1.
  destruct (internAll sp1 s) as [sp2 ids] eqn:Eall. simpl.
  destruct (Bit set id) eqn:Eb.
  - specialize (IH h' (release set id)). simpl in IH.
    rewrite E1, Eall in IH. apply IH.
  - specialize (IH h' set). rewrite E1, Eall in IH. apply IH.
Qed.

End lockset_text.

(** X23.  [String] writes the labels of the locks of a lock set, by
    increasing id, between braces and with commas in between, when every
    lock is an index of the string space of the lock set; a lock that is
    no index of the string space makes it panic. *)
Theorem String_lists_the_labels_of_the_locks (h : Spaces) (set : LockSet.t) :
  (covered h set →
   ∃ labels,
     Forall2
       (λ i l, StringSpace.s (spaceAt h (LockSet.sp set)) !! i = Some l)
       (filter (λ i, Is_true (LockSet.Bit set i))
               (seq 0 (N.size_nat (LockSet.bits set))))
       labels ∧
     LockSet.String h set
     = Some ("{" +:+ String.concat "," labels +:+ "}")) ∧
  (∀ k, LockSet.Bit set k = true →
        length (StringSpace.s (spaceAt h (LockSet.sp set))) ≤ k →
        LockSet.String h set = None).
Proof.
  split.
  - intros Hc.
    set (L := filter (λ i, Is_true (LockSet.Bit set i))
                     (seq 0 (N.size_nat (LockSet.bits set)))).
    assert (Forall (λ i, LockSet.Bit set i = true) L) as Hset.
    { apply Forall_forall. intros i Hi.
      apply list_elem_of_filter in Hi as [Hi _]. by apply Is_true_eq_true. }
    destruct (labels_exist
                (StringSpace.s (spaceAt h (LockSet.sp set))) L)
      as [labels Hl].
    { eapply Forall_impl; [exact Hset|]. intros i. apply Hc. }
    exists labels. split; [exact Hl|].
    unfold LockSet.String. rewrite String_loop_skip. fold L.
    destruct Hl as [|i l L' labels' Ei Hl']; [done|].
    inversion Hset as [|? ? Hi Hset']; subst.
    rewrite concat_commas. simpl. rewrite Hi, Ei. simpl.
    rewrite (String_loop_rest h set L' labels' _ Hset' Hl'). simpl.
    by rewrite !append_assoc.
  - intros k Hk Hlen. unfold LockSet.String.
    rewrite (String_loop_panics h set k); [done|done| |].
    + by apply lookup_ge_None.
    + apply elem_of_seq. pose proof (Bit_size set k Hk). lia.
Qed.

Lemma String_lists_the_labels_of_the_locks_witness :
  LockSet.String
    (LockSet.Plus ∅ (LockSet.NewLockSet 0)
       ["runtime.sched.lock"; "runtime.mheap_.lock"]%string None).1
    (LockSet.Plus ∅ (LockSet.NewLockSet 0)
       ["runtime.sched.lock"; "runtime.mheap_.lock"]%string None).2
  = Some "{runtime.sched.lock,runtime.mheap_.lock}"%string.
Proof.
  destruct (proj1 (String_lists_the_labels_of_the_locks
                     (LockSet.Plus ∅ (LockSet.NewLockSet 0)
                        ["runtime.sched.lock"; "runtime.mheap_.lock"]%string
                        None).1
                     (LockSet.Plus ∅ (LockSet.NewLockSet 0)
                        ["runtime.sched.lock"; "runtime.mheap_.lock"]%string
                        None).2))
    as (labels & _ & E).
  - intros [|[|k]] Hk; [vm_compute; lia..|]. exfalso.
    apply Bit_size in Hk. vm_compute in Hk. lia.
  - vm_compute. reflexivity.
Defined.

(** X24.  The locks of a lock set stay indices of its string space:
    [NewLockSet] has none; [Plus], [PlusLabel], [Minus] and [MinusLabel]
    intern the labels in the string space of the lock set and leave a lock
    set whose locks, like those of the receiver, are indices of the space
    as they leave it; and so does [Union] for an argument over the same
    string space.  [PlusLabel] and [MinusLabel] are [Plus] and [Minus] for
    the points-to set of the one label. *)
Theorem lock_ids_stay_in_the_string_space (h : Spaces) (set : LockSet.t) :
  spaceOK (spaceAt h (LockSet.sp set)) → covered h set →
  (∀ sp, covered h (LockSet.NewLockSet sp)) ∧
  (∀ s stack,
     let r := LockSet.Plus h set s stack in
     spaceOK (spaceAt r.1 (LockSet.sp set)) ∧
     covered r.1 r.2 ∧ covered r.1 set) ∧
  (∀ s,
     let r := LockSet.Minus h set s in
     spaceOK (spaceAt r.1 (LockSet.sp set)) ∧
     covered r.1 r.2 ∧ covered r.1 set) ∧
  (∀ o, LockSet.sp o = LockSet.sp set → covered h o →
        covered h (LockSet.Union set o)) ∧
  (∀ label stack,
     LockSet.PlusLabel h set label stack
     = LockSet.Plus h set [label] stack) ∧
  (∀ label, LockSet.MinusLabel h set label = LockSet.Minus h set [label]).
Proof.
  intros Hsp Hc.
  split; [|split; [|split; [|split; [|split]]]].
  - intros sp k Hk. unfold LockSet.Bit, LockSet.NewLockSet in Hk.
    cbn [LockSet.bits] in Hk. by rewrite N.bits_0 in Hk.
  - intros s stack r. unfold r.
    destruct (Plus_classes s h set stack) as (E1 & E2 & E3).
    destruct (internAll_spec s _ Hsp) as (G1 & G2 & G3).
    rewrite E2. split; [done|]. split.
    + intros k Hk. rewrite E3, E2. rewrite E1 in Hk.
      destruct (acquireAll_spec stack (classes h set s) set) as (_ & A2 & _).
      rewrite A2 in Hk. apply orb_true_iff in Hk as [Hk|Hk].
      * apply Hc in Hk. apply prefix_length in G2. lia.
      * apply bool_decide_eq_true in Hk. rewrite Forall_forall in G3.
        by apply G3.
    + intros k Hk. rewrite E2. apply Hc in Hk.
      apply prefix_length in G2. lia.
  - intros s r. unfold r.
    destruct (Minus_space s h set) as (E2 & E3).
    destruct (internAll_spec s _ Hsp) as (G1 & G2 & G3).
    rewrite E2. split; [done|]. split.
    + intros k Hk. rewrite E3, E2. rewrite Minus_classes in Hk.
      destruct (releaseAll_spec (classes h set s) set) as (_ & R2 & _).
      rewrite R2 in Hk. apply andb_true_iff in Hk as [Hk _].
      apply Hc in Hk. apply prefix_length in G2. lia.
    + intros k Hk. rewrite E2. apply Hc in Hk.
      apply prefix_length in G2. lia.
  - intros o Esp Ho k Hk.
    assert (LockSet.sp (LockSet.Union set o) = LockSet.sp set) as ->.
    { unfold LockSet.Union. by destruct (_ =? _)%N. }
    assert (LockSet.Bit set k = true ∨ LockSet.Bit o k = true) as [H|H].
    { unfold LockSet.Union in Hk.
      destruct (_ =? _)%N; [by left|].
      unfold LockSet.Bit in Hk at 1. simpl in Hk. rewrite Bit_lor in Hk.
      by apply orb_true_iff in Hk. }
    + by apply Hc.
    + rewrite <- Esp. by apply Ho.
  - done.
  - done.
Qed.

Lemma lock_ids_stay_in_the_string_space_witness :
  let h := (LockSet.Plus ∅ (LockSet.NewLockSet 0) ["A"; "B"]%string None).1 in
  let set := (LockSet.Plus ∅ (LockSet.NewLockSet 0) ["A"; "B"]%string None).2 in
  let r := LockSet.Plus h set ["C"; "A"]%string (Some 1) in
  spaceOK (spaceAt r.1 (LockSet.sp set)) ∧ covered r.1 r.2 ∧ covered r.1 set.
Proof.
  intros h set.
  assert (spaceOK (spaceAt ∅ 0)) as H0 by apply spaceOK_new.
  assert (covered ∅ (LockSet.NewLockSet 0)) as C0.
  { intros k Hk. unfold LockSet.Bit, LockSet.NewLockSet in Hk.
    cbn [LockSet.bits] in Hk. by rewrite N.bits_0 in Hk. }
  destruct (lock_ids_stay_in_the_string_space ∅ (LockSet.NewLockSet 0) H0 C0)
    as (_ & HP & _).
  destruct (HP ["A"; "B"]%string None) as (H1 & C1 & _).
  fold h in H1, C1. fold set in C1.
  assert (LockSet.sp set = 0) as Esp by reflexivity.
  rewrite <- Esp in H1.
  destruct (lock_ids_stay_in_the_string_space h set H1 C1) as (_ & HP2 & _).
  apply (HP2 ["C"; "A"]%string (Some 1)).
Defined.

(** ** The liveness analysis *)

Section liveness.
Variable Preds : nat → list nat.
Variable Index : nat → nat.
Variable Block : nat → nat.

Let walk := live.walk Preds Index Block.

Lemma bindO_inv {A B} (r : Outcome A) (k : A → Outcome B) b :
  r ≫= k = Returns b → ∃ a, r = Returns a ∧ k a = Returns b.
Proof. destruct r; [eauto|done..]. Qed.

Lemma rangeO_inv {A B} (P : B → Prop) (body : B → A → Outcome B) l :
  (∀ b x b', x ∈ l → P b → body b x = Returns b' → P b') →
  ∀ b b', P b → rangeO body l b = Returns b' → P b'.
Proof.
  induction l as [|x l IH]; intros Hbody b b' Hb E; simpl in E.
  - by injection E as <-.
  - apply bindO_inv in E as (b1 & E1 & E2).
    apply (IH (λ b0 y b0' Hy, Hbody b0 y b0' (list_elem_of_further _ _ _ Hy))
              b1 b'); [|done].
    eapply Hbody; [|exact Hb|exact E1]. constructor.
Qed.

(** A loop does not run out of steps when no turn from a state of [P]
    does, and the turns keep [P]. *)
Lemma rangeO_total {A B} (P : B → Prop) (body : B → A → Outcome B) l :
  (∀ b x, x ∈ l → P b → body b x ≠ Unfinished) →
  (∀ b x b', x ∈ l → P b → body b x = Returns b' → P b') →
  ∀ b, P b → rangeO body l b ≠ Unfinished.
Proof.
  induction l as [|x l IH]; intros Htot Hbody b Hb; simpl; [done|].
  assert (x ∈ x :: l) as Hx by constructor.
  pose proof (Htot b x Hx Hb) as H1. pose proof (Hbody b x) as H2.
  destruct (body b x) as [b1| | |]; simpl; try done.
  apply IH; [| |by apply H2].
  - intros b0 y Hy. apply Htot. by constructor.
  - intros b0 y b0' Hy. apply Hbody. by constructor.
Qed.

(** *** [walk] only adds [def] *)

Lemma grows_refl def (deps : list (gset nat)) :
  Forall2 (λ d d', d ⊆ d' ∧ d' ⊆ d ∪ {[def]}) deps deps.
Proof.
  apply Forall_Forall2_diag, Forall_forall. intros d _.
  split; [done|]. apply union_subseteq_l.
Qed.

Lemma grows_trans def (a b c : list (gset nat)) :
  Forall2 (λ d d', d ⊆ d' ∧ d' ⊆ d ∪ {[def]}) a b →
  Forall2 (λ d d', d ⊆ d' ∧ d' ⊆ d ∪ {[def]}) b c →
  Forall2 (λ d d', d ⊆ d' ∧ d' ⊆ d ∪ {[def]}) a c.
Proof.
  intros H1. revert c. induction H1 as [|x y a b [Hxy Hyx] _ IH];
    intros c H2; inversion H2 as [|? z ? c' [Hyz Hzy]]; subst; [done|].
  constructor; [|by apply IH]. split; [by etrans|].
  intros e He. apply Hzy in He. apply elem_of_union in He as [He|He].
  - by apply Hyx.
  - apply elem_of_union. by right.
Qed.

Lemma grows_insert def (deps : list (gset nat)) i d :
  deps !! i = Some d →
  Forall2 (λ d d', d ⊆ d' ∧ d' ⊆ d ∪ {[def]})
          deps (<[i := {[def]} ∪ d]> deps).
Proof.
  intros E. rewrite <- (list_insert_id deps i d E) at 1.
  apply Forall2_insert; [apply grows_refl|].
  split; [apply union_subseteq_r|]. intros e He.
  apply elem_of_union in He as [He|He]; apply elem_of_union; auto.
Qed.

Lemma walk_S n def use deps :
  walk (S n) def use deps =
    match deps !! Index use with
    | None => OutOfRange
    | Some d =>
        if bool_decide (def ∈ d) then Returns deps
        else if bool_decide (Block def = use) then Returns deps
        else
          match Preds use with
          | [] => Fatal
          | preds =>
              rangeO (λ deps pred, walk n def pred deps) preds
                     (<[Index use := {[def]} ∪ d]> deps)
          end
    end.
Proof. reflexivity. Qed.

Lemma walk_grows n def : ∀ use deps deps',
  walk n def use deps = Returns deps' →
  Forall2 (λ d d', d ⊆ d' ∧ d' ⊆ d ∪ {[def]}) deps deps'.
Proof.
  induction n as [|n IH]; intros use deps deps' E; [done|].
  rewrite walk_S in E.
  destruct (deps !! Index use) as [d|] eqn:Ed; [|done].
  case_bool_decide; [injection E as <-; apply grows_refl|].
  case_bool_decide; [injection E as <-; apply grows_refl|].
  destruct (Preds use) as [|p preds]; [done|].
  revert E.
  apply (rangeO_inv
           (λ b, Forall2 (λ d d', d ⊆ d' ∧ d' ⊆ d ∪ {[def]}) deps b)).
  - intros b q b' _ Hb Eq. eapply grows_trans; [exact Hb|]. by eapply IH.
  - by apply grows_insert.
Qed.

Lemma liveAt_grows def deps deps' u :
  Forall2 (λ d d', d ⊆ d' ∧ d' ⊆ d ∪ {[def]}) deps deps' →
  liveAt Index deps def u → liveAt Index deps' def u.
Proof.
  intros H (d & Ed & Hd).
  destruct (Forall2_lookup_l _ _ _ _ _ H Ed) as (d' & Ed' & Hsub & _).
  exists d'. split; [done|]. by apply Hsub.
Qed.

Lemma walks_grow n def l : ∀ deps deps',
  rangeO (λ deps pred, walk n def pred deps) l deps = Returns deps' →
  Forall2 (λ d d', d ⊆ d' ∧ d' ⊆ d ∪ {[def]}) deps deps'.
Proof.
  intros deps deps'.
  apply (rangeO_inv
           (λ b, Forall2 (λ d d', d ⊆ d' ∧ d' ⊆ d ∪ {[def]}) deps b)).
  - intros b q b' _ Hb Eq. eapply grows_trans; [exact Hb|].
    by eapply walk_grows.
  - apply grows_refl.
Qed.

(** *** [walk] follows the edges back to the definition *)

Lemma walk_flows n def :
  Inj (=) (=) Index →
  ∀ use deps deps' (pending : gset nat),
    flowsBack Preds Index Block pending deps def →
    walk n def use deps = Returns deps' →
    flowsBack Preds Index Block pending deps' def ∧
    (use = Block def ∨ liveAt Index deps' def use).
Proof.
  intros Hinj. induction n as [|n IH];
    intros use deps deps' pending Hfb E; [done|].
  rewrite walk_S in E.
  destruct (deps !! Index use) as [d|] eqn:Ed; [|done].
  case_bool_decide as Hin.
  { injection E as <-. split; [done|]. right. by exists d. }
  case_bool_decide as Hb.
  { injection E as <-. split; [done|]. by left. }
  destruct (Preds use) as [|p preds] eqn:Ep; [done|].
  pose proof (grows_insert def deps (Index use) d Ed) as Hg1.
  remember (<[Index use := {[def]} ∪ d]> deps) as deps1 eqn:E1.
  assert (liveAt Index deps1 def use) as Hlive1.
  { exists ({[def]} ∪ d). split.
    - subst deps1. apply list_lookup_insert_eq. by eapply lookup_lt_Some.
    - apply elem_of_union. left. by apply elem_of_singleton. }
  assert (flowsBack Preds Index Block (pending ∪ {[use]}) deps1 def)
    as Hfb1.
  { intros u (du & Edu & Hdu) Hu q Hq.
    apply not_elem_of_union in Hu as [Hu Hne].
    apply not_elem_of_singleton in Hne.
    assert (Index u ≠ Index use) as Hi
      by (intros Heq; by apply Hinj in Heq).
    subst deps1. rewrite list_lookup_insert_ne in Edu by done.
    destruct (Hfb u) with (p := q) as [->|Hl];
      [by exists du|exact Hu|exact Hq|by left|].
    right. by eapply liveAt_grows. }
  clear E1 Hg1 Ed Hfb.
  assert (flowsBack Preds Index Block (pending ∪ {[use]}) deps' def ∧
          liveAt Index deps' def use ∧
          ∀ q, q ∈ p :: preds → q = Block def ∨ liveAt Index deps' def q)
    as (H1 & H2 & H3).
  { revert deps1 Hlive1 Hfb1 E. generalize (p :: preds). intros l.
    induction l as [|q l IHl]; intros deps1 Hlive1 Hfb1 E; simpl in E.
    - injection E as <-. split; [done|]. split; [done|].
      intros q Hq. by apply elem_of_nil in Hq.
    - apply bindO_inv in E as (deps2 & E2 & E).
      destruct (IH q deps1 deps2 _ Hfb1 E2) as [G1 G2].
      pose proof (walk_grows n def q deps1 deps2 E2) as Hg2.
      pose proof (walks_grow n def l deps2 deps' E) as Hg3.
      destruct (IHl deps2) as (K1 & K2 & K3);
        [by eapply liveAt_grows|done|done|].
      split; [done|]. split; [done|].
      intros q' Hq'. apply elem_of_cons in Hq' as [->|Hq']; [|by apply K3].
      destruct G2 as [->|G2]; [by left|]. right. by eapply liveAt_grows. }
  split; [|by right].
  intros u Hu Hpend q Hq.
  destruct (decide (u = use)) as [->|Hne].
  - apply H3. by rewrite <- Ep.
  - apply (H1 u Hu); [|done].
    apply not_elem_of_union. split; [done|]. by apply not_elem_of_singleton.
Qed.

(** *** [walk] returns *)

Lemma unlive_grows def (deps deps' : list (gset nat)) :
  Forall2 (λ d d', d ⊆ d' ∧ d' ⊆ d ∪ {[def]}) deps deps' →
  length (filter (λ d, def ∉ d) deps')
  ≤ length (filter (λ d, def ∉ d) deps).
Proof.
  induction 1 as [|d d' deps deps' [Hsub _] _ IH]; [done|].
  destruct (decide (def ∈ d)) as [Hd|Hd].
  - rewrite (filter_cons_False (λ d, def ∉ d) d deps) by (by intros ?).
    rewrite (filter_cons_False (λ d, def ∉ d) d' deps')
      by (intros H; by apply H, Hsub).
    done.
  - rewrite (filter_cons_True (λ d, def ∉ d) d deps) by done.
    destruct (decide (def ∈ d')) as [Hd'|Hd'].
    + rewrite (filter_cons_False (λ d, def ∉ d) d' deps') by (by intros ?).
      simpl. lia.
    + rewrite (filter_cons_True (λ d, def ∉ d) d' deps') by done.
      simpl. lia.
Qed.

Lemma unlive_insert def (deps : list (gset nat)) : ∀ i d,
  deps !! i = Some d → def ∉ d →
  S (length (filter (λ d, def ∉ d) (<[i := {[def]} ∪ d]> deps)))
  = length (filter (λ d, def ∉ d) deps).
Proof.
  induction deps as [|x deps IH]; intros [|i] d E Hd; try done.
  - injection E as ->.
    change (<[0 := {[def]} ∪ d]> (d :: deps)) with (({[def]} ∪ d) :: deps).
    rewrite (filter_cons_False (λ d, def ∉ d) ({[def]} ∪ d) deps).
    + by rewrite (filter_cons_True (λ d, def ∉ d) d deps) by done.
    + intros H. apply H, elem_of_union. left. by apply elem_of_singleton.
  - change (<[S i := {[def]} ∪ d]> (x :: deps))
      with (x :: <[i := {[def]} ∪ d]> deps).
    specialize (IH i d E Hd).
    destruct (decide (def ∈ x)) as [Hx|Hx].
    + by rewrite !(filter_cons_False (λ d, def ∉ d) x) by (by intros ?).
    + rewrite !(filter_cons_True (λ d, def ∉ d) x) by done. simpl.
      by rewrite IH.
Qed.

Lemma walk_total n def : ∀ use deps,
  length (filter (λ d, def ∉ d) deps) < n →
  walk n def use deps ≠ Unfinished.
Proof.
  induction n as [|n IH]; intros use deps Hn; [lia|].
  rewrite walk_S.
  destruct (deps !! Index use) as [d|] eqn:Ed; [|done].
  case_bool_decide as Hin; [done|].
  case_bool_decide as Hb; [done|].
  destruct (Preds use) as [|p preds]; [done|].
  pose proof (unlive_insert def deps (Index use) d Ed Hin) as Hins.
  apply (rangeO_total
           (λ b, length (filter (λ d, def ∉ d) b) < n)).
  - intros b q _ Hb'. by apply IH.
  - intros b q b' _ Hb' E. apply walk_grows, unlive_grows in E. lia.
  - lia.
Qed.

End liveness.

(** X25.  [walk] makes [def] live at the entry of [use] and of the blocks
    from which [use] is reached, back to the block that defines [def].
    The call returns within a depth of one more than [deps] has sets, for
    every control-flow graph.  It stops the program with [log.Fatalf] at
    a block without predecessors where [def] is neither defined nor live
    yet, and with an index out of range when [deps] has no set for the
    block.  When it returns, it has added nothing but [def] to the sets,
    [def] is live at the entry of [use] unless [use] defines it, and, for
    blocks with distinct indices, the liveness of [def] flows back along
    the edges if it did so before: every predecessor of a block at whose
    entry [def] is live defines [def] or has [def] live at its entry. *)
Theorem walk_makes_def_live_back_to_its_definition
    (Preds : nat → list nat) (Index Block : nat → nat) (def : nat) :
  (∀ use deps,
     live.walk Preds Index Block (S (length deps)) def use deps
     ≠ Unfinished) ∧
  (∀ n use deps d,
     deps !! Index use = Some d → def ∉ d → Block def ≠ use →
     Preds use = [] →
     live.walk Preds Index Block (S n) def use deps = Fatal) ∧
  (∀ n use deps,
     deps !! Index use = None →
     live.walk Preds Index Block (S n) def use deps = OutOfRange) ∧
  (∀ n use deps deps',
     live.walk Preds Index Block n def use deps = Returns deps' →
     Forall2 (λ d d', d ⊆ d' ∧ d' ⊆ d ∪ {[def]}) deps deps' ∧
     (Inj (=) (=) Index →
      flowsBack Preds Index Block ∅ deps def →
      flowsBack Preds Index Block ∅ deps' def ∧
      (use = Block def ∨ liveAt Index deps' def use))).
Proof.
  split; [|split; [|split]].
  - intros use deps. apply walk_total.
    pose proof (length_filter (λ d, def ∉ d) deps). lia.
  - intros n use deps d Ed Hd Hb Ep.
    rewrite (walk_S Preds Index Block), Ed, Ep.
    by rewrite !bool_decide_eq_false_2.
  - intros n use deps Ed. by rewrite (walk_S Preds Index Block), Ed.
  - intros n use deps deps' E. split; [by eapply walk_grows|].
    intros Hinj Hfb. by eapply walk_flows.
Qed.

Lemma walk_makes_def_live_back_to_its_definition_witness :
  let Preds := λ b, match b with 1 => [0; 1] | 2 => [1] | _ => [] end in
  let Block := λ i : nat, match i with 10 => 0 | _ => 2 end in
  ∃ deps',
    live.walk Preds (λ b, b) Block 4 10 2 [∅; ∅; ∅] = Returns deps' ∧
    flowsBack Preds (λ b, b) Block ∅ deps' 10 ∧
    (2 = Block 10 ∨ liveAt (λ b, b) deps' 10 2).
Proof.
  intros Preds Block.
  destruct (live.walk Preds (λ b, b) Block 4 10 2 [∅; ∅; ∅])
    as [deps'| | |] eqn:E; [|vm_compute in E; discriminate E..].
  exists deps'. split; [done|].
  apply (proj2 (proj2 (proj2 (proj2
           (walk_makes_def_live_back_to_its_definition
              Preds (λ b, b) Block 10))) 4 2 [∅; ∅; ∅] deps' E)).
  - intros x y H. exact H.
  - intros u (d & Ed & Hd) _.
    destruct u as [|[|[|u]]]; simpl in Ed; try done;
      injection Ed as <-; by apply elem_of_empty in Hd.
Defined.


Section liveness_values.
Variable Blocks : nat → list nat.
Variable Preds : nat → list nat.
Variable Index : nat → nat.
Variable Block : nat → nat.
Variable Operands : Instruction → list nat.
Variable asInstruction : nat → option Instruction.

Let walk := live.walk Preds Index Block.
Let doVal := live.doVal Preds Index Block Operands asInstruction.
Let opsLive := operandsLive Preds Index Block Operands asInstruction.

Lemma doVal_S n m val visited deps :
  doVal (S n) m val (visited, deps) =
    if bool_decide (ident val ∈ visited) then Returns (visited, deps)
    else
      match kind val with
      | Phi edges =>
          match deps !! Index (Block (ident val)) with
          | None => OutOfRange
          | Some _ =>
              rangeO
                (λ '(visited, deps) '(i, rand),
                   match asInstruction rand with
                   | None => Returns (visited, deps)
                   | Some r =>
                       match deps !! Index (Block (ident val)) with
                       | None => OutOfRange
                       | Some d =>
                           match Preds (Block (ident val)) !! i with
                           | None => OutOfRange
                           | Some pred =>
                               deps ←
                                 walk m (ident r) pred
                                   (<[Index (Block (ident val))
                                        := {[ident r]} ∪ d]> deps);
                               doVal n m r (visited, deps)
                           end
                       end
                   end)
                (imap (λ i rand, (i, rand)) edges)
                ({[ident val]} ∪ visited, deps)
          end
      | _ =>
          rangeO
            (λ '(visited, deps) rand,
               match asInstruction rand with
               | None => Returns (visited, deps)
               | Some r =>
                   deps ← walk m (ident r) (Block (ident val)) deps;
                   doVal n m r (visited, deps)
               end)
            (Operands val) ({[ident val]} ∪ visited, deps)
      end.
Proof. unfold doVal. simpl. by destruct (kind val). Qed.

Lemma walk_length n def use deps deps' :
  walk n def use deps = Returns deps' → length deps' = length deps.
Proof.
  intros E. apply (walk_grows Preds Index Block) in E.
  symmetry. by eapply Forall2_length.
Qed.

Lemma walk_mono n def use deps deps' :
  walk n def use deps = Returns deps' → Forall2 (⊆) deps deps'.
Proof.
  intros E. apply (walk_grows Preds Index Block) in E.
  eapply Forall2_impl; [exact E|]. by intros d d' [H _].
Qed.

Lemma insert_mono (deps : list (gset nat)) i d x :
  deps !! i = Some d → Forall2 (⊆) deps (<[i := {[x]} ∪ d]> deps).
Proof.
  intros E. eapply Forall2_impl; [by apply (grows_insert x)|].
  by intros ? ? [H _].
Qed.

Lemma liveAt_mono deps deps' def u :
  Forall2 (⊆) deps deps' →
  liveAt Index deps def u → liveAt Index deps' def u.
Proof.
  intros H (d & Ed & Hd).
  destruct (Forall2_lookup_l _ _ _ _ _ H Ed) as (d' & Ed' & Hsub).
  exists d'. split; [done|]. by apply Hsub.
Qed.

Lemma operandsLive_mono deps deps' (v v' : gset nat) val :
  Forall2 (⊆) deps deps' → v ⊆ v' →
  opsLive deps v val → opsLive deps' v' val.
Proof.
  intros Hd Hv. unfold opsLive, operandsLive.
  assert ((∀ rand r, rand ∈ Operands val → asInstruction rand = Some r →
             ident r ∈ v ∧
             (Block (ident val) = Block (ident r) ∨
              liveAt Index deps (ident r) (Block (ident val)))) →
          ∀ rand r, rand ∈ Operands val → asInstruction rand = Some r →
            ident r ∈ v' ∧
            (Block (ident val) = Block (ident r) ∨
             liveAt Index deps' (ident r) (Block (ident val)))) as Hplain.
  { intros H rand r Hr Er. destruct (H rand r Hr Er) as [H1 H2].
    split; [by apply Hv|].
    destruct H2 as [H2|H2]; [by left|]. right. by eapply liveAt_mono. }
  destruct (kind val) as
    [cond|c|isMap CommaOk| | | | | | |c| |edges|]; try exact Hplain.
  intros H i rand r Hi Er.
  destruct (H i rand r Hi Er) as (H1 & H2 & pred & H3 & H4).
  split; [by apply Hv|]. split; [by eapply liveAt_mono|].
  exists pred. split; [done|].
  destruct H4 as [H4|H4]; [by left|]. right. by eapply liveAt_mono.
Qed.

(** When [walk] returns, [def] is live at [use] unless [use] defines
    it. *)
Lemma walk_live n def use deps deps' :
  walk n def use deps = Returns deps' →
  use = Block def ∨ liveAt Index deps' def use.
Proof.
  destruct n as [|n]; [done|]. intros E.
  unfold walk in E. rewrite (walk_S Preds Index Block) in E.
  destruct (deps !! Index use) as [d|] eqn:Ed; [|done].
  case_bool_decide as Hin.
  { injection E as <-. right. by exists d. }
  case_bool_decide as Hb.
  { injection E as <-. by left. }
  destruct (Preds use) as [|p preds]; [done|].
  apply (walks_grow Preds Index Block) in E.
  right. eapply (liveAt_grows Index); [exact E|].
  exists ({[def]} ∪ d). split.
  - apply list_lookup_insert_eq. by eapply lookup_lt_Some.
  - apply elem_of_union. left. by apply elem_of_singleton.
Qed.

(** A loop keeps a property of the elements it has gone through and of
    its state. *)
Lemma rangeO_prefix {A B} (P : list A → B → Prop)
    (body : B → A → Outcome B) :
  (∀ pre x b b', P pre b → body b x = Returns b' → P (pre ++ [x]) b') →
  ∀ l pre b b', P pre b → rangeO body l b = Returns b' → P (pre ++ l) b'.
Proof.
  intros Hbody. induction l as [|x l IH]; intros pre b b' Hb E; simpl in E.
  - injection E as <-. by rewrite app_nil_r.
  - apply bindO_inv in E as (b1 & E1 & E2).
    replace (pre ++ x :: l) with ((pre ++ [x]) ++ l)
      by (by rewrite <- app_assoc).
    eapply IH; [|exact E2]. by eapply Hbody.
Qed.

Section kept.
(** [Q] holds of the identities of all instructions that are operands. *)
Variable Q : nat → Prop.
Hypothesis instructions : ∀ rand r,
  asInstruction rand = Some r → Q (ident r).

(** What [doVal] keeps: the length of [deps], the values it has visited,
    and that these are instructions. *)
Lemma doVal_keeps n m : ∀ val visited deps visited' deps',
  Q (ident val) → (∀ x, x ∈ visited → Q x) →
  doVal n m val (visited, deps) = Returns (visited', deps') →
  length deps' = length deps ∧ visited ⊆ visited' ∧
  (∀ x, x ∈ visited' → Q x).
Proof using instructions.
  induction n as [|n IH]; intros val visited deps visited' deps' Hval Hv E;
    [done|].
  rewrite doVal_S in E.
  case_bool_decide as Hin; [by injection E as <- <-|].
  assert (∀ x, x ∈ {[ident val]} ∪ visited → Q x) as Hv1.
  { intros x Hx. apply elem_of_union in Hx as [Hx|Hx]; [|by apply Hv].
    apply elem_of_singleton in Hx. by subst x. }
  assert (∀ acc : gset nat * list (gset nat),
            (length acc.2 = length deps ∧ {[ident val]} ∪ visited ⊆ acc.1 ∧
             (∀ x, x ∈ acc.1 → Q x)) →
            acc = (visited', deps') →
            length deps' = length deps ∧ visited ⊆ visited' ∧
            (∀ x, x ∈ visited' → Q x)) as Hend.
  { intros acc (H1 & H2 & H3) ->. simpl in *. split; [done|]. split; [|done].
    etrans; [|exact H2]. apply union_subseteq_r. }
  assert (∀ (acc acc' : gset nat * list (gset nat)) r def use deps0,
            (length acc.2 = length deps ∧ {[ident val]} ∪ visited ⊆ acc.1 ∧
             (∀ x, x ∈ acc.1 → Q x)) →
            length deps0 = length acc.2 →
            asInstruction def = Some r →
            (deps1 ← walk m (ident r) use deps0;
             doVal n m r (acc.1, deps1)) = Returns acc' →
            length acc'.2 = length deps ∧ {[ident val]} ∪ visited ⊆ acc'.1 ∧
            (∀ x, x ∈ acc'.1 → Q x)) as Hstep.
  { intros [v1 d1] [v2 d2] r def use deps0 (H1 & H2 & H3) Hlen Er Eb.
    simpl in *. apply bindO_inv in Eb as (deps1 & Ew & Ed).
    apply walk_length in Ew.
    destruct (IH r v1 deps1 v2 d2 (instructions _ _ Er) H3 Ed)
      as (G1 & G2 & G3).
    split; [congruence|]. split; [by etrans|done]. }
  destruct (kind val) as
    [cond|c|isMap CommaOk| | | | | | |c| |edges|];
    try (apply (Hend (visited', deps')); [|done]; revert E;
         apply (rangeO_inv
                  (λ acc : gset nat * list (gset nat),
                     length acc.2 = length deps ∧
                     {[ident val]} ∪ visited ⊆ acc.1 ∧
                     (∀ x, x ∈ acc.1 → Q x)));
         [|by repeat apply conj];
         intros [v1 d1] rand [v2 d2] _ HP Eb;
         destruct (asInstruction rand) as [r|] eqn:Er;
         [|by injection Eb as <- <-];
         by apply (Hstep (v1, d1) (v2, d2) r rand _ d1 HP eq_refl Er Eb)).
  destruct (deps !! Index (Block (ident val))); [|done].
  apply (Hend (visited', deps')); [|done]. revert E.
  apply (rangeO_inv
           (λ acc : gset nat * list (gset nat),
              length acc.2 = length deps ∧
              {[ident val]} ∪ visited ⊆ acc.1 ∧
              (∀ x, x ∈ acc.1 → Q x)));
    [|by repeat apply conj].
  intros [v1 d1] [i rand] [v2 d2] _ HP Eb.
  destruct (asInstruction rand) as [r|] eqn:Er; [|by injection Eb as <- <-].
  destruct (d1 !! Index (Block (ident val))) as [d|]; [|done].
  destruct (Preds (Block (ident val)) !! i) as [pred|]; [|done].
  apply (Hstep (v1, d1) (v2, d2) r rand pred
           (<[Index (Block (ident val)) := {[ident r]} ∪ d]> d1) HP);
    [|done..].
  simpl. by rewrite length_insert.
Qed.

End kept.

Lemma doVal_length n m val visited deps visited' deps' :
  doVal n m val (visited, deps) = Returns (visited', deps') →
  length deps' = length deps.
Proof.
  intros E.
  by destruct (doVal_keeps (λ _, True) (λ _ _ _, I) n m val visited deps
                 visited' deps' I (λ _ _, I) E) as [H _].
Qed.

Section universe.
(** Every instruction is one of the first [K]. *)
Variable K : nat.
Hypothesis instructions : ∀ rand r,
  asInstruction rand = Some r → ident r < K.

Lemma size_bounded (v : gset nat) :
  (∀ x, x ∈ v → x < K) → size v ≤ K.
Proof.
  intros Hv.
  assert (v ⊆ list_to_set (seq 0 K)) as Hsub.
  { intros x Hx. apply elem_of_list_to_set, elem_of_seq.
    specialize (Hv x Hx). lia. }
  apply subseteq_size in Hsub.
  rewrite size_list_to_set in Hsub by apply NoDup_seq.
  by rewrite length_seq in Hsub.
Qed.

(** [doVal] returns or stops the program when it has more steps than
    there are instructions it has not visited, and [walk] more steps than
    [deps] has sets. *)
Lemma doVal_total n m : ∀ val visited deps,
  ident val < K → (∀ x, x ∈ visited → x < K) →
  K < n + size visited → length deps < m →
  doVal n m val (visited, deps) ≠ Unfinished.
Proof using instructions.
  induction n as [|n IH]; intros val visited deps Hval Hv Hn Hm.
  { pose proof (size_bounded visited Hv). simpl in Hn. lia. }
  rewrite doVal_S.
  case_bool_decide as Hin; [done|].
  assert (∀ x, x ∈ {[ident val]} ∪ visited → x < K) as Hv1.
  { intros x Hx. apply elem_of_union in Hx as [Hx|Hx]; [|by apply Hv].
    apply elem_of_singleton in Hx. by subst x. }
  assert (size ({[ident val]} ∪ visited) = S (size visited)) as Hsize.
  { rewrite size_union by (apply disjoint_singleton_l; exact Hin).
    by rewrite size_singleton. }
  assert (∀ (acc : gset nat * list (gset nat)) r def use deps0,
            (length acc.2 = length deps ∧ {[ident val]} ∪ visited ⊆ acc.1 ∧
             (∀ x, x ∈ acc.1 → x < K)) →
            length deps0 = length acc.2 →
            asInstruction def = Some r →
            (deps1 ← walk m (ident r) use deps0;
             doVal n m r (acc.1, deps1)) ≠ Unfinished) as Hstep.
  { intros [v1 d1] r def use deps0 (H1 & H2 & H3) Hlen Er. simpl in *.
    assert (walk m (ident r) use deps0 ≠ Unfinished) as Hw.
    { apply (walk_total Preds Index Block).
      pose proof (length_filter (λ d : gset nat, ident r ∉ d) deps0). lia. }
    destruct (walk m (ident r) use deps0) as [deps1| | |] eqn:Ew;
      simpl; try done.
    apply walk_length in Ew. apply IH; [by eapply instructions|done| |lia].
    apply subseteq_size in H2. lia. }
  assert (∀ (acc acc' : gset nat * list (gset nat)) r def use deps0,
            (length acc.2 = length deps ∧ {[ident val]} ∪ visited ⊆ acc.1 ∧
             (∀ x, x ∈ acc.1 → x < K)) →
            length deps0 = length acc.2 →
            asInstruction def = Some r →
            (deps1 ← walk m (ident r) use deps0;
             doVal n m r (acc.1, deps1)) = Returns acc' →
            length acc'.2 = length deps ∧ {[ident val]} ∪ visited ⊆ acc'.1 ∧
            (∀ x, x ∈ acc'.1 → x < K)) as Hkeep.
  { intros [v1 d1] [v2 d2] r def use deps0 (H1 & H2 & H3) Hlen Er Eb.
    simpl in *. apply bindO_inv in Eb as (deps1 & Ew & Ed).
    apply walk_length in Ew.
    destruct (doVal_keeps (λ x, x < K) instructions n m r v1 deps1 v2 d2
                (instructions _ _ Er) H3 Ed)
      as (G1 & G2 & G3).
    split; [congruence|]. split; [by etrans|done]. }
  destruct (kind val) as
    [cond|c|isMap CommaOk| | | | | | |c| |edges|];
    try (apply (rangeO_total
                  (λ acc : gset nat * list (gset nat),
                     length acc.2 = length deps ∧
                     {[ident val]} ∪ visited ⊆ acc.1 ∧
                     (∀ x, x ∈ acc.1 → x < K)));
         [intros [v1 d1] rand _ HP;
          destruct (asInstruction rand) as [r|] eqn:Er; [|done];
          by apply (Hstep (v1, d1) r rand _ d1 HP eq_refl Er)
         |intros [v1 d1] rand [v2 d2] _ HP Eb;
          destruct (asInstruction rand) as [r|] eqn:Er;
          [|by injection Eb as <- <-];
          by apply (Hkeep (v1, d1) (v2, d2) r rand _ d1 HP eq_refl Er Eb)
         |by repeat apply conj]).
  destruct (deps !! Index (Block (ident val))); [|done].
  apply (rangeO_total
           (λ acc : gset nat * list (gset nat),
              length acc.2 = length deps ∧
              {[ident val]} ∪ visited ⊆ acc.1 ∧
              (∀ x, x ∈ acc.1 → x < K))).
  - intros [v1 d1] [i rand] _ HP.
    destruct (asInstruction rand) as [r|] eqn:Er; [|done].
    destruct (d1 !! Index (Block (ident val))) as [d|]; [|done].
    destruct (Preds (Block (ident val)) !! i) as [pred|]; [|done].
    apply (Hstep (v1, d1) r rand pred _ HP); [|done].
    simpl. by rewrite length_insert.
  - intros [v1 d1] [i rand] [v2 d2] _ HP Eb.
    destruct (asInstruction rand) as [r|] eqn:Er;
      [|by injection Eb as <- <-].
    destruct (d1 !! Index (Block (ident val))) as [d|]; [|done].
    destruct (Preds (Block (ident val)) !! i) as [pred|]; [|done].
    apply (Hkeep (v1, d1) (v2, d2) r rand pred
             (<[Index (Block (ident val)) := {[ident r]} ∪ d]> d1) HP);
      [|done..].
    simpl. by rewrite length_insert.
  - by repeat apply conj.
Qed.

End universe.

Section operands.
(** The instructions of the program: the operands that are instructions
    are among them, and two of them with the same identity are the same
    instruction. *)
Variable Prog : Instruction → Prop.
Hypothesis Prog_operands : ∀ rand r, asInstruction rand = Some r → Prog r.
Hypothesis Prog_ident : ∀ a b,
  Prog a → Prog b → ident a = ident b → a = b.

(** [doVal] makes the operands live of every value that it marks as
    visited. *)
Lemma doVal_processes n m : ∀ val visited deps visited' deps',
  Prog val →
  doVal n m val (visited, deps) = Returns (visited', deps') →
  Forall2 (⊆) deps deps' ∧ visited ⊆ visited' ∧ ident val ∈ visited' ∧
  (∀ x, Prog x → ident x ∈ visited' → ident x ∉ visited →
        opsLive deps' visited' x).
Proof using Prog_operands Prog_ident.
  induction n as [|n IH]; intros val visited deps visited' deps' Hval E;
    [done|].
  rewrite doVal_S in E.
  case_bool_decide as Hin.
  { injection E as <- <-. split; [reflexivity|]. split; [done|].
    split; [done|]. by intros x _ H1 H2. }
  pose (Inv := λ acc : gset nat * list (gset nat),
          Forall2 (⊆) deps acc.2 ∧ {[ident val]} ∪ visited ⊆ acc.1 ∧
          (∀ x, Prog x → ident x ∈ acc.1 →
                ident x ∉ {[ident val]} ∪ visited →
                opsLive acc.2 acc.1 x)).
  assert (Inv ({[ident val]} ∪ visited, deps)) as Hinit.
  { split; [reflexivity|]. split; [done|]. by intros x _ H1 H2. }
  assert (∀ va da vb db r rand use deps0,
            Inv (va, da) →
            Forall2 (⊆) da deps0 → asInstruction rand = Some r →
            (deps1 ← walk m (ident r) use deps0;
             doVal n m r (va, deps1)) = Returns (vb, db) →
            Inv (vb, db) ∧ Forall2 (⊆) deps0 db ∧ va ⊆ vb ∧
            ident r ∈ vb ∧
            (use = Block (ident r) ∨ liveAt Index db (ident r) use))
    as Hstep.
  { intros va da vb db r rand use deps0 (I1 & I2 & I3) H0 Er Eb.
    simpl in *. apply bindO_inv in Eb as (deps1 & Ew & Ed).
    destruct (IH r va deps1 vb db (Prog_operands _ _ Er) Ed)
      as (G1 & G2 & G3 & G4).
    pose proof (walk_mono _ _ _ _ _ Ew) as Hm.
    assert (Forall2 (⊆) deps0 db) as H0b by (by etrans).
    assert (Forall2 (⊆) da db) as Hab by (by etrans).
    split; [split; [by etrans|split; [by etrans|]]|].
    - intros x Hx Hxb Hx1. destruct (decide (ident x ∈ va)) as [Hxa|Hxa].
      + eapply operandsLive_mono; [exact Hab|exact G2|by apply I3].
      + by apply G4.
    - split; [done|]. split; [done|]. split; [done|].
      destruct (walk_live _ _ _ _ _ Ew) as [->|Hl]; [by left|].
      right. eapply liveAt_mono; [exact G1|exact Hl]. }
  assert (Inv (visited', deps') → opsLive deps' visited' val →
          Forall2 (⊆) deps deps' ∧ visited ⊆ visited' ∧
          ident val ∈ visited' ∧
          (∀ x, Prog x → ident x ∈ visited' → ident x ∉ visited →
                opsLive deps' visited' x)) as Hend.
  { intros (I1 & I2 & I3) Hv. simpl in *. split; [done|].
    split; [etrans; [|exact I2]; apply union_subseteq_r|].
    split; [apply I2, elem_of_union; left; by apply elem_of_singleton|].
    intros x Hx Hxv Hxn.
    destruct (decide (ident x = ident val)) as [Heq|Hne].
    - by rewrite (Prog_ident x val Hx Hval Heq).
    - apply I3; [done..|]. intros Hu.
      apply elem_of_union in Hu as [Hu|Hu]; [|done].
      by apply elem_of_singleton in Hu. }
  pose (Ops := λ (pre : list nat) (acc : gset nat * list (gset nat)),
          ∀ rand r, rand ∈ pre → asInstruction rand = Some r →
            ident r ∈ acc.1 ∧
            (Block (ident val) = Block (ident r) ∨
             liveAt Index acc.2 (ident r) (Block (ident val)))).
  assert (∀ pre rand (acc acc' : gset nat * list (gset nat)),
            Inv acc ∧ Ops pre acc →
            (λ '(visited, deps) rand,
               match asInstruction rand with
               | None => Returns (visited, deps)
               | Some r =>
                   deps ← walk m (ident r) (Block (ident val)) deps;
                   doVal n m r (visited, deps)
               end) acc rand = Returns acc' →
            Inv acc' ∧ Ops (pre ++ [rand]) acc') as Hplain.
  { intros pre rand [va da] [vb db] [HI HO] Eb. simpl in Eb.
    destruct (asInstruction rand) as [r|] eqn:Er.
    - destruct (Hstep va da vb db r rand _ da HI (reflexivity _) Er Eb)
        as (S1 & S2 & S3 & S4 & S5).
      split; [done|]. intros rand' r' Hr' Er'.
      apply elem_of_app in Hr' as [Hr'|Hr'].
      + destruct (HO rand' r' Hr' Er') as [O1 O2]. split; [by apply S3|].
        destruct O2 as [O2|O2]; [by left|].
        right. eapply liveAt_mono; [exact S2|exact O2].
      + apply list_elem_of_singleton in Hr' as ->.
        rewrite Er in Er'. injection Er' as <-. split; [done|].
        destruct S5 as [S5|S5]; [by left|by right].
    - injection Eb as <- <-. split; [done|]. intros rand' r' Hr' Er'.
      apply elem_of_app in Hr' as [Hr'|Hr']; [by apply (HO rand' r')|].
      apply list_elem_of_singleton in Hr' as ->. congruence. }
  assert (Ops [] ({[ident val]} ∪ visited, deps)) as Hops.
  { intros rand r Hr. by apply elem_of_nil in Hr. }
  destruct (kind val) as
    [cond|c|isMap CommaOk| | | | | | |c| |edges|] eqn:Ek;
    try (destruct (rangeO_prefix (λ pre acc, Inv acc ∧ Ops pre acc) _
                     (λ pre x b b', Hplain pre x b b') _ [] _ _
                     (conj Hinit Hops) E) as [HI HO];
         apply Hend; [exact HI|];
         unfold opsLive, operandsLive; rewrite Ek; exact HO).
  clear Ops Hplain Hops.
  destruct (deps !! Index (Block (ident val))) as [d0|]; [|done].
  pose (Ops := λ (pre : list (nat * nat))
                 (acc : gset nat * list (gset nat)),
          ∀ i rand r, (i, rand) ∈ pre → asInstruction rand = Some r →
            ident r ∈ acc.1 ∧
            liveAt Index acc.2 (ident r) (Block (ident val)) ∧
            ∃ pred, Preds (Block (ident val)) !! i = Some pred ∧
                    (pred = Block (ident r) ∨
                     liveAt Index acc.2 (ident r) pred)).
  assert (∀ pre (x : nat * nat) (acc acc' : gset nat * list (gset nat)),
            Inv acc ∧ Ops pre acc →
            (λ '(visited, deps) '(i, rand),
               match asInstruction rand with
               | None => Returns (visited, deps)
               | Some r =>
                   match deps !! Index (Block (ident val)) with
                   | None => OutOfRange
                   | Some d =>
                       match Preds (Block (ident val)) !! i with
                       | None => OutOfRange
                       | Some pred =>
                           deps ←
                             walk m (ident r) pred
                               (<[Index (Block (ident val))
                                    := {[ident r]} ∪ d]> deps);
                           doVal n m r (visited, deps)
                       end
                   end
               end) acc x = Returns acc' →
            Inv acc' ∧ Ops (pre ++ [x]) acc') as Hphi.
  { intros pre [i rand] [va da] [vb db] [HI HO] Eb. simpl in Eb.
    destruct (asInstruction rand) as [r|] eqn:Er.
    - destruct (da !! Index (Block (ident val))) as [d|] eqn:Ed; [|done].
      destruct (Preds (Block (ident val)) !! i) as [pred|] eqn:Ep; [|done].
      destruct (Hstep va da vb db r rand pred _ HI
                  (insert_mono da _ d (ident r) Ed) Er Eb)
        as (S1 & S2 & S3 & S4 & S5).
      assert (Forall2 (⊆) da db) as Hab.
      { etrans; [|exact S2]. by apply insert_mono. }
      split; [done|]. intros i' rand' r' Hr' Er'.
      apply elem_of_app in Hr' as [Hr'|Hr'].
      + destruct (HO i' rand' r' Hr' Er') as (O1 & O2 & q & O3 & O4).
        split; [by apply S3|].
        split; [eapply liveAt_mono; [exact Hab|exact O2]|].
        exists q. split; [done|]. destruct O4 as [O4|O4]; [by left|].
        right. eapply liveAt_mono; [exact Hab|exact O4].
      + apply list_elem_of_singleton in Hr'. injection Hr' as -> ->.
        rewrite Er in Er'. injection Er' as <-. split; [done|]. split.
        * eapply liveAt_mono; [exact S2|].
          exists ({[ident r]} ∪ d). split.
          -- apply list_lookup_insert_eq. by eapply lookup_lt_Some.
          -- apply elem_of_union. left. by apply elem_of_singleton.
        * exists pred. split; [done|]. exact S5.
    - injection Eb as <- <-. split; [done|]. intros i' rand' r' Hr' Er'.
      apply elem_of_app in Hr' as [Hr'|Hr']; [by apply (HO i' rand' r')|].
      apply list_elem_of_singleton in Hr'. injection Hr' as -> ->.
      congruence. }
  assert (Ops [] ({[ident val]} ∪ visited, deps)) as Hops.
  { intros i rand r Hr. by apply elem_of_nil in Hr. }
  destruct (rangeO_prefix (λ pre acc, Inv acc ∧ Ops pre acc) _
              (λ pre x b b', Hphi pre x b b') _ [] _ _
              (conj Hinit Hops) E) as [HI HO].
  apply Hend; [exact HI|].
  unfold opsLive, operandsLive. rewrite Ek. intros i rand r Hi Er.
  apply (HO i rand r); [|done].
  by apply (elem_of_lookup_imap_2 (λ i rand, (i, rand))).
Qed.

(** [livenessFor] goes through [vals] with the operands of all visited
    values live. *)
Lemma livenessFor_processes n f vals visited deps :
  Forall Prog vals →
  rangeO (λ acc val, doVal n (S (length (Blocks f))) val acc) vals
         (∅, replicate (length (Blocks f)) ∅) = Returns (visited, deps) →
  Forall (λ val, ident val ∈ visited) vals ∧
  ∀ x, Prog x → ident x ∈ visited → opsLive deps visited x.
Proof using Prog_operands Prog_ident.
  intros Hvals E.
  pose (P := λ (pre : list Instruction)
               (acc : gset nat * list (gset nat)),
          Forall (λ val, ident val ∈ acc.1) pre ∧
          ∀ x, Prog x → ident x ∈ acc.1 → opsLive acc.2 acc.1 x).
  cut (∀ l pre b b', Forall Prog l → P pre b →
         rangeO (λ acc val, doVal n (S (length (Blocks f))) val acc) l b
         = Returns b' → P (pre ++ l) b').
  { intros H.
    apply (H vals [] (∅, replicate (length (Blocks f)) ∅) (visited, deps)
             Hvals); [|exact E].
    split; [constructor|]. intros x _ Hx. by apply elem_of_empty in Hx. }
  clear E Hvals.
  induction l as [|val l IH]; intros pre b b' Hl Hb Eb; simpl in Eb.
  - injection Eb as <-. by rewrite app_nil_r.
  - apply bindO_inv in Eb as (b1 & E1 & E2).
    apply Forall_cons in Hl as [Hval Hl].
    replace (pre ++ val :: l) with ((pre ++ [val]) ++ l)
      by (by rewrite <- app_assoc).
    apply (IH _ b1 b' Hl); [|exact E2].
    destruct b as [va da], b1 as [vb db], Hb as [H1 H2].
    destruct (doVal_processes _ _ _ _ _ _ _ Hval E1) as (G1 & G2 & G3 & G4).
    simpl in *. split.
    + apply Forall_app. split; [|by repeat constructor].
      eapply Forall_impl; [exact H1|]. intros y Hy. by apply G2.
    + intros x Hx Hxb. destruct (decide (ident x ∈ va)) as [Hxa|Hxa].
      * eapply operandsLive_mono; [exact G1|exact G2|by apply H2].
      * by apply G4.
Qed.

End operands.

End liveness_values.

(** X26.  [livenessFor] returns a slice with one set for every block of
    [f], the empty sets when there are no values.  It terminates for every
    program: with [K] instructions, [doVal] is never nested deeper than
    [K] calls, and [walk] never deeper than the number of blocks, whatever
    the control-flow graph and the operands are. *)
Theorem livenessFor_returns_a_set_for_every_block
    (Blocks Preds : nat → list nat) (Index Block : nat → nat)
    (Operands : Instruction → list nat)
    (asInstruction : nat → option Instruction) (f : nat) :
  (∀ n,
     live.livenessFor Blocks Preds Index Block Operands asInstruction n f []
     = Returns (replicate (length (Blocks f)) ∅)) ∧
  (∀ n vals deps,
     live.livenessFor Blocks Preds Index Block Operands asInstruction
       n f vals = Returns deps →
     length deps = length (Blocks f)) ∧
  (∀ K n vals,
     (∀ rand r, asInstruction rand = Some r → ident r < K) →
     Forall (λ val, ident val < K) vals → K < n →
     live.livenessFor Blocks Preds Index Block Operands asInstruction
       n f vals ≠ Unfinished).
Proof.
  split; [done|]. split.
  - intros n vals deps E. unfold live.livenessFor in E.
    apply bindO_inv in E as ([v d] & E & [= <-]). revert E.
    apply (rangeO_inv
             (λ acc : gset nat * list (gset nat),
                length acc.2 = length (Blocks f))).
    + intros [va da] val [vb db] _ Ha Eb. simpl in *.
      by rewrite (doVal_length _ _ _ _ _ _ _ _ _ _ _ _ Eb).
    + simpl. by rewrite length_replicate.
  - intros K n vals HK Hvals Hn. unfold live.livenessFor.
    assert (rangeO
              (λ acc val,
                 live.doVal Preds Index Block Operands asInstruction
                   n (S (length (Blocks f))) val acc) vals
              (∅, replicate (length (Blocks f)) ∅) ≠ Unfinished) as Hr.
    { apply (rangeO_total
               (λ acc : gset nat * list (gset nat),
                  length acc.2 = length (Blocks f) ∧
                  ∀ x, x ∈ acc.1 → x < K)).
      - intros [va da] val Hval [Ha Hb]. simpl in *.
        apply (doVal_total _ _ _ _ _ K HK); [|done|lia|lia].
        rewrite Forall_forall in Hvals. by apply Hvals.
      - intros [va da] val [vb db] Hval [Ha Hb] Eb. simpl in *.
        rewrite Forall_forall in Hvals.
        destruct (doVal_keeps _ _ _ _ _ (λ x, x < K) HK _ _ _ _ _ _ _
                    (Hvals val Hval) Hb Eb) as (G1 & _ & G3).
        split; [congruence|done].
      - split; [simpl; by rewrite length_replicate|].
        intros x Hx. by apply elem_of_empty in Hx. }
    destruct (rangeO _ vals _) as [[v d]| | |]; simpl; done.
Qed.

Lemma livenessFor_returns_a_set_for_every_block_witness :
  ∃ deps, Loop.livenessFor 22 0 [mkInstr 20 Other] = Returns deps ∧
          length deps = 3.
Proof.
  pose proof (livenessFor_returns_a_set_for_every_block
                Loop.Blocks Loop.Preds Loop.Index Loop.Block Loop.Operands
                Loop.asInstruction 0) as (_ & Hlen & Htot).
  unfold Loop.livenessFor.
  destruct (live.livenessFor Loop.Blocks Loop.Preds Loop.Index Loop.Block
              Loop.Operands Loop.asInstruction 22 0 [mkInstr 20 Other])
    as [deps| | |] eqn:E.
  - exists deps. split; [done|]. exact (Hlen _ _ _ E).
  - vm_compute in E. discriminate E.
  - vm_compute in E. discriminate E.
  - exfalso. apply (Htot 21 22 [mkInstr 20 Other]); [| |lia|exact E].
    + intros [|[|[|[|[|[|[|[|[|[|[|[|[|[|[|[|[|[|[|[|[|rand]]]]]]]]]]]]]]]]]]]]] r;
        simpl; intros [= <-] || intros [=]; simpl; lia.
    + repeat constructor.
Defined.

(** X27.  When [livenessFor] returns, [deps] is enough to compute each
    value of [vals]: there is a set of visited values that contains
    [vals] and, with a value, its operands that are instructions, and the
    operands of every visited value are live where the value uses them.
    An operand of an instruction that is no phi is live at the entry of
    the instruction's block unless that block defines it; the operand of
    edge [i] of a phi is in the set of the phi's block and live at the
    entry of predecessor [i] unless that predecessor defines it.  The
    instructions are those of a program in which an instruction is known
    by its identity. *)
Theorem livenessFor_makes_operands_live
    (Blocks Preds : nat → list nat) (Index Block : nat → nat)
    (Operands : Instruction → list nat)
    (asInstruction : nat → option Instruction)
    (Prog : Instruction → Prop) (n f : nat) (vals : list Instruction)
    (deps : list (gset nat)) :
  (∀ rand r, asInstruction rand = Some r → Prog r) →
  (∀ a b, Prog a → Prog b → ident a = ident b → a = b) →
  Forall Prog vals →
  live.livenessFor Blocks Preds Index Block Operands asInstruction n f vals
  = Returns deps →
  ∃ visited : gset nat,
    Forall (λ val, ident val ∈ visited) vals ∧
    ∀ x, Prog x → ident x ∈ visited →
         operandsLive Preds Index Block Operands asInstruction
           deps visited x.
Proof.
  intros Hops Hid Hvals E. unfold live.livenessFor in E.
  apply bindO_inv in E as ([v d] & E & [= <-]).
  exists v. by eapply livenessFor_processes.
Qed.

Lemma livenessFor_makes_operands_live_witness :
  ∃ deps,
    Loop.livenessFor 5 0 [mkInstr 20 Other] = Returns deps ∧
    ∃ visited : gset nat,
      Forall (λ val, ident val ∈ visited) [mkInstr 20 Other] ∧
      ∀ x, (∃ v, Loop.asInstruction v = Some x) → ident x ∈ visited →
           operandsLive Loop.Preds Loop.Index Loop.Block Loop.Operands
             Loop.asInstruction deps visited x.
Proof.
  unfold Loop.livenessFor.
  destruct (live.livenessFor Loop.Blocks Loop.Preds Loop.Index Loop.Block
              Loop.Operands Loop.asInstruction 5 0 [mkInstr 20 Other])
    as [deps| | |] eqn:E; [|vm_compute in E; discriminate E..].
  exists deps. split; [done|].
  apply (livenessFor_makes_operands_live
           Loop.Blocks Loop.Preds Loop.Index Loop.Block Loop.Operands
           Loop.asInstruction (λ x, ∃ v, Loop.asInstruction v = Some x)
           5 0 [mkInstr 20 Other] deps).
  - intros rand r Er. by exists rand.
  - intros a b [va Ea] [vb Eb] Hab.
    assert (∀ v x, Loop.asInstruction v = Some x →
                   Loop.asInstruction (ident x) = Some x) as Hcanon.
    { intros [|[|[|[|[|[|[|[|[|[|[|[|[|[|[|[|[|[|[|[|[|v]]]]]]]]]]]]]]]]]]]]] x;
        simpl; intros [= <-] || intros [=]; reflexivity. }
    apply Hcanon in Ea, Eb. rewrite Hab in Ea. congruence.
  - repeat constructor. by exists 20.
  - exact E.
Defined.

